(** * Federation credential vault of beads (package [dolt])

    Shallow embedding of [internal/storage/dolt]'s credential code:
    peer-name validation, AES-256-GCM sealing of peer passwords, the key
    bootstrap with its one-time migration from the legacy path-derived key,
    the peer table CRUD, and the two credential-delivery strategies
    ([applyToCmd] for subprocesses, [withEnvCredentials] for the in-process
    engine).

    Go values are modelled as follows: [[]byte] is [list Z] with every
    element in [0, 256); [string] is [string] (a sequence of 8-bit
    characters, as in Go); a Go result pair [(v, err)] is a Coq pair whose
    second component is [option error] with [None] for [nil]; a call that
    can panic ends in an [outcome].  The parts of the program that are not
    among the sources are parameters: the remote facility of the store
    ([RemoteAdapter]) and the file system of package [os] ([FileSystem]). *)

From Stdlib Require Import ZArith List String Ascii Lia Bool.
From stdpp Require Import gmap strings list sorting pretty.

Local Open Scope Z_scope.

Abbreviation bytes := (list Z).

(** ** Byte-level helpers *)

(** Big-endian decoding of a byte sequence. *)
Fixpoint be_to_Z_aux (l : bytes) (acc : Z) : Z :=
  match l with
  | [] => acc
  | b :: r => be_to_Z_aux r (acc * 256 + b)
  end.

Definition be_to_Z (l : bytes) : Z := be_to_Z_aux l 0.

(** Big-endian encoding of [z] on [n] bytes. *)
Fixpoint Z_to_be (n : nat) (z : Z) : bytes :=
  match n with
  | O => []
  | S n' => Z.land (Z.shiftr z (8 * Z.of_nat n')) 255 :: Z_to_be n' z
  end.

(** [dst[i] = a[i] ^ b[i]] over a fixed-size destination of [a]'s length. *)
Fixpoint xor_bytes (a b : bytes) : bytes :=
  match a with
  | [] => []
  | x :: a' => Z.lxor x (hd 0 b) :: xor_bytes a' (tl b)
  end.

(** Consecutive slices of [n] bytes; the last one may be shorter. *)
Fixpoint chunks (fuel : nat) (n : nat) (l : bytes) : list bytes :=
  match fuel with
  | O => []
  | S fuel' =>
      match l with
      | [] => []
      | _ => firstn n l :: chunks fuel' n (skipn n l)
      end
  end.

(** [[]byte(s)] and [string(b)]. *)
Definition bytes_of_string (s : string) : bytes :=
  List.map (fun c => Z.of_N (N_of_ascii c)) (list_ascii_of_string s).

Definition string_of_bytes (b : bytes) : string :=
  string_of_list_ascii (List.map (fun x => ascii_of_N (Z.to_N x)) b).

(** [subtle.ConstantTimeCompare]: [true] exactly on equal slices. *)
Fixpoint ConstantTimeCompare (x y : bytes) : bool :=
  match x, y with
  | [], [] => true
  | a :: x', b :: y' => (a =? b) && ConstantTimeCompare x' y'
  | _, _ => false
  end.

(** ** crypto/aes: the AES block cipher (FIPS 197) *)

Module AES.

Definition xtime (a : Z) : Z :=
  Z.lxor (Z.land (Z.shiftl a 1) 255) (if Z.testbit a 7 then 27 else 0).

Fixpoint gmul_aux (n : nat) (a b acc : Z) : Z :=
  match n with
  | O => acc
  | S n' => gmul_aux n' (xtime a) (Z.shiftr b 1)
              (if Z.testbit b 0 then Z.lxor acc a else acc)
  end.

(** Multiplication in GF(2^8) modulo x^8 + x^4 + x^3 + x + 1. *)
Definition gmul (a b : Z) : Z := gmul_aux 8 a b 0.

Fixpoint gpow (n : nat) (a : Z) : Z :=
  match n with
  | O => 1
  | S n' => gmul a (gpow n' a)
  end.

Definition rotl8 (b : Z) (k : Z) : Z :=
  Z.land (Z.lor (Z.shiftl b k) (Z.shiftr b (8 - k))) 255.

(** The S-box entry of [a]: field inverse followed by the affine map. *)
Definition sbox_of (a : Z) : Z :=
  let b := gpow 254 a in
  Z.lxor (Z.lxor (Z.lxor (Z.lxor (Z.lxor b (rotl8 b 1)) (rotl8 b 2))
                         (rotl8 b 3)) (rotl8 b 4)) 99.

Definition sbox_table : list Z :=
  Eval vm_compute in List.map (fun i => sbox_of (Z.of_nat i)) (seq 0 256).

Definition sbox (a : Z) : Z := nth (Z.to_nat a) sbox_table 0.

Definition sub_bytes (st : bytes) : bytes := List.map sbox st.

(** The state is kept in input order: byte [4c + r] is row [r], column [c]. *)
Definition shift_rows (st : bytes) : bytes :=
  List.map (fun i => nth (4 * (((i / 4) + (i mod 4)) mod 4) + i mod 4)%nat st 0)
           (seq 0 16).

Definition mix_column (a0 a1 a2 a3 : Z) : bytes :=
  [ Z.lxor (Z.lxor (gmul 2 a0) (gmul 3 a1)) (Z.lxor a2 a3);
    Z.lxor (Z.lxor a0 (gmul 2 a1)) (Z.lxor (gmul 3 a2) a3);
    Z.lxor (Z.lxor a0 a1) (Z.lxor (gmul 2 a2) (gmul 3 a3));
    Z.lxor (Z.lxor (gmul 3 a0) a1) (Z.lxor a2 (gmul 2 a3)) ].

Fixpoint mix_columns (st : bytes) : bytes :=
  match st with
  | a0 :: a1 :: a2 :: a3 :: rest => mix_column a0 a1 a2 a3 ++ mix_columns rest
  | _ => []
  end.

Definition rot_word (w : bytes) : bytes :=
  match w with
  | a :: rest => rest ++ [a]
  | [] => []
  end.

Definition rcon (j : nat) : bytes := [gpow (j - 1) 2; 0; 0; 0].

(** Key schedule; [ws] holds the words produced so far, most recent first. *)
Fixpoint expand_words (fuel : nat) (Nk i : nat) (ws : list bytes) : list bytes :=
  match fuel with
  | O => ws
  | S fuel' =>
      let prev := nth 0 ws [] in
      let back := nth (Nk - 1) ws [] in
      let temp :=
        if (i mod Nk =? 0)%nat
        then xor_bytes (sub_bytes (rot_word prev)) (rcon (i / Nk))
        else if ((6 <? Nk) && (i mod Nk =? 4))%nat then sub_bytes prev
        else prev in
      expand_words fuel' Nk (S i) (xor_bytes back temp :: ws)
  end.

(** The [Nr + 1] round keys of a 16, 24 or 32 byte key. *)
Definition expand_key (key : bytes) : list bytes :=
  let Nk := (length key / 4)%nat in
  let Nr := (Nk + 6)%nat in
  let ws := expand_words (4 * (Nr + 1) - Nk) Nk Nk (rev (chunks (length key) 4 key)) in
  chunks (S Nr) 16 (concat (rev ws)).

Definition round (st rk : bytes) : bytes :=
  xor_bytes (mix_columns (shift_rows (sub_bytes st))) rk.

Definition final_round (st rk : bytes) : bytes :=
  xor_bytes (shift_rows (sub_bytes st)) rk.

Fixpoint rounds (st : bytes) (rks : list bytes) : bytes :=
  match rks with
  | [] => st
  | [rk] => final_round st rk
  | rk :: rest => rounds (round st rk) rest
  end.

Definition encrypt_block (rks : list bytes) (blk : bytes) : bytes :=
  match rks with
  | [] => blk
  | rk0 :: rest => rounds (xor_bytes blk rk0) rest
  end.

End AES.

(** ** crypto/cipher: Galois/Counter Mode with the standard 12-byte nonce
    and 16-byte tag, no additional data *)

Module GCM.

Definition NonceSize : nat := 12.
Definition TagSize : nat := 16.

Definition R : Z := Z.shiftl 225 120.

Fixpoint gf_mul_aux (n : nat) (x v z : Z) : Z :=
  match n with
  | O => z
  | S n' =>
      gf_mul_aux n' x
        (if Z.testbit v 0 then Z.lxor (Z.shiftr v 1) R else Z.shiftr v 1)
        (if Z.testbit x (Z.of_nat n') then Z.lxor z v else z)
  end.

(** Multiplication in GF(2^128) in GCM's bit order. *)
Definition gf_mul (x y : Z) : Z := gf_mul_aux 128 x y 0.

Definition pad16 (l : bytes) : bytes := l ++ repeat 0 (16 - length l).

Definition ghash (h : Z) (blocks : list bytes) : Z :=
  fold_left (fun y blk => gf_mul (Z.lxor y (be_to_Z (pad16 blk))) h) blocks 0.

Definition counter_block (nonce : bytes) (i : Z) : bytes :=
  nonce ++ Z_to_be 4 (i mod 2 ^ 32).

Definition keystream (rks : list bytes) (nonce : bytes) (nblocks : nat) : bytes :=
  flat_map (fun i => AES.encrypt_block rks (counter_block nonce (2 + Z.of_nat i)))
           (seq 0 nblocks).

Definition counter_crypt (rks : list bytes) (nonce data : bytes) : bytes :=
  xor_bytes data (keystream rks nonce ((length data + 15) / 16)).

(** The tag over ciphertext [ct]: GHASH of the padded ciphertext and the
    length block, masked with the encryption of the initial counter. *)
Definition auth (rks : list bytes) (nonce : bytes) (ct : bytes) : bytes :=
  let h := be_to_Z (AES.encrypt_block rks (repeat 0 16%nat)) in
  let lens := Z_to_be 8 0 ++ Z_to_be 8 (8 * Z.of_nat (length ct)) in
  let s := ghash h (chunks (length ct) 16 ct ++ [lens]) in
  xor_bytes (Z_to_be 16 s) (AES.encrypt_block rks (counter_block nonce 1)).

(** [gcm.Seal(dst, nonce, plaintext, nil)]: appends ciphertext and tag to
    [dst].  The library's panic on messages above 2^36 - 32 bytes is outside
    this model. *)
Definition Seal (rks : list bytes) (dst nonce plaintext : bytes) : bytes :=
  let ct := counter_crypt rks nonce plaintext in
  dst ++ ct ++ auth rks nonce ct.

(** [gcm.Open(nil, nonce, ciphertext, nil)]: [None] is [errOpen]
    ("cipher: message authentication failed"). *)
Definition Open (rks : list bytes) (nonce ciphertext : bytes) : option bytes :=
  if (length ciphertext <? TagSize)%nat then None
  else
    let n := (length ciphertext - TagSize)%nat in
    let tag := skipn n ciphertext in
    let ct := firstn n ciphertext in
    if ConstantTimeCompare (auth rks nonce ct) tag
    then Some (counter_crypt rks nonce ct)
    else None.

End GCM.

(** ** crypto/sha256 (FIPS 180-4) *)

Module SHA256.

Definition mask32 : Z := 4294967295.
Definition add32 (a b : Z) : Z := Z.land (a + b) mask32.
Definition rotr (x n : Z) : Z :=
  Z.lor (Z.shiftr x n) (Z.land (Z.shiftl x (32 - n)) mask32).
Definition not32 (x : Z) : Z := Z.lxor x mask32.

Definition K : list Z :=
  [1116352408; 1899447441; 3049323471; 3921009573; 961987163; 1508970993;
   2453635748; 2870763221; 3624381080; 310598401; 607225278; 1426881987;
   1925078388; 2162078206; 2614888103; 3248222580; 3835390401; 4022224774;
   264347078; 604807628; 770255983; 1249150122; 1555081692; 1996064986;
   2554220882; 2821834349; 2952996808; 3210313671; 3336571891; 3584528711;
   113926993; 338241895; 666307205; 773529912; 1294757372; 1396182291;
   1695183700; 1986661051; 2177026350; 2456956037; 2730485921; 2820302411;
   3259730800; 3345764771; 3516065817; 3600352804; 4094571909; 275423344;
   430227734; 506948616; 659060556; 883997877; 958139571; 1322822218;
   1537002063; 1747873779; 1955562222; 2024104815; 2227730452; 2361852424;
   2428436474; 2756734187; 3204031479; 3329325298].

Definition H0 : list Z :=
  [1779033703; 3144134277; 1013904242; 2773480762;
   1359893119; 2600822924; 528734635; 1541459225].

Definition ssig0 (x : Z) : Z := Z.lxor (Z.lxor (rotr x 7) (rotr x 18)) (Z.shiftr x 3).
Definition ssig1 (x : Z) : Z := Z.lxor (Z.lxor (rotr x 17) (rotr x 19)) (Z.shiftr x 10).
Definition bsig0 (x : Z) : Z := Z.lxor (Z.lxor (rotr x 2) (rotr x 13)) (rotr x 22).
Definition bsig1 (x : Z) : Z := Z.lxor (Z.lxor (rotr x 6) (rotr x 11)) (rotr x 25).
Definition ch (x y z : Z) : Z := Z.lxor (Z.land x y) (Z.land (not32 x) z).
Definition maj (x y z : Z) : Z :=
  Z.lxor (Z.lxor (Z.land x y) (Z.land x z)) (Z.land y z).

(** Message schedule; [ws] holds the words so far, most recent first. *)
Fixpoint schedule (fuel : nat) (ws : list Z) : list Z :=
  match fuel with
  | O => ws
  | S fuel' =>
      let w := add32 (add32 (ssig1 (nth 1 ws 0)) (nth 6 ws 0))
                     (add32 (ssig0 (nth 14 ws 0)) (nth 15 ws 0)) in
      schedule fuel' (w :: ws)
  end.

Definition step (st : list Z) (kw : Z * Z) : list Z :=
  match st with
  | [a; b; c; d; e; f; g; h] =>
      let t1 := add32 (add32 (add32 h (bsig1 e)) (add32 (ch e f g) (fst kw))) (snd kw) in
      let t2 := add32 (bsig0 a) (maj a b c) in
      [add32 t1 t2; a; b; c; add32 d t1; e; f; g]
  | _ => st
  end.

Definition block (st : list Z) (blk : bytes) : list Z :=
  let w16 := List.map be_to_Z (chunks 16 4 blk) in
  let ws := rev (schedule 48 (rev w16)) in
  let st' := fold_left step (combine K ws) st in
  List.map (fun p => add32 (fst p) (snd p)) (combine st st').

Definition pad (msg : bytes) : bytes :=
  let l := length msg in
  let k := ((64 - (l + 9) mod 64) mod 64)%nat in
  msg ++ [128] ++ repeat 0 k ++ Z_to_be 8 (8 * Z.of_nat l).

(** [h := sha256.New(); h.Write(msg); h.Sum(nil)]. *)
Definition Sum256 (msg : bytes) : bytes :=
  let p := pad msg in
  let st := fold_left block (chunks (length p) 64 p) H0 in
  flat_map (Z_to_be 4) st.

End SHA256.

(** ** Go errors *)

Inductive error : Type :=
| errorString (msg : string)
    (* errors.New(msg), fmt.Errorf(msg) *)
| wrapError (prefix : string) (cause : error) (suffix : string)
    (* fmt.Errorf(prefix + "%w" + suffix, cause) *)
| KeySizeError (n : nat)
    (* aes.KeySizeError *)
| errOpen
    (* crypto/cipher: errOpen *)
| ErrNotFound
    (* storage.ErrNotFound *)
| EINVAL.
    (* syscall.EINVAL *)

Fixpoint Error (e : error) : string :=
  match e with
  | errorString msg => msg
  | wrapError p c s => p ++ Error c ++ s
  | KeySizeError n => "crypto/aes: invalid key size " ++ pretty n
  | errOpen => "cipher: message authentication failed"
  | ErrNotFound => "not found"
  | EINVAL => "invalid argument"
  end.

(** [errors.Is(e, ErrNotFound)]. *)
Fixpoint IsNotFound (e : error) : bool :=
  match e with
  | ErrNotFound => true
  | wrapError _ c _ => IsNotFound c
  | _ => false
  end.

(** [err == nil] *)
Definition is_nil (e : option error) : bool :=
  match e with
  | None => true
  | Some _ => false
  end.

(** The error classes of the design; [ValidationError] and [CryptoError]
    are recognised by the wrapper the store puts around them. *)
Definition ValidationError (e : error) : Prop :=
  exists cause, e = wrapError "invalid peer name: " cause "".

Definition CryptoError (e : error) : Prop :=
  exists cause, e = wrapError "failed to encrypt password: " cause ""
             \/ e = wrapError "failed to decrypt password: " cause "".

(** ** package strings *)

Definition HasPrefix (s p : string) : bool := String.prefix p s.

Fixpoint Contains (s sub : string) : bool :=
  String.prefix sub s ||
  match s with
  | EmptyString => false
  | String _ s' => Contains s' sub
  end.

(** [strings.CutPrefix]: the rest of [s] after [p], if [p] starts [s]. *)
Fixpoint CutPrefix (s p : string) {struct p} : option string :=
  match p with
  | EmptyString => Some s
  | String a p' =>
      match s with
      | String b s' => if Ascii.eqb a b then CutPrefix s' p' else None
      | EmptyString => None
      end
  end.

(** ** package regexp: regular expressions matched by derivatives *)

Inductive regex : Type :=
| Void
| Eps
| Class (f : ascii -> bool)
| Cat (r1 r2 : regex)
| Alt (r1 r2 : regex)
| Star (r : regex).

Fixpoint nullable (r : regex) : bool :=
  match r with
  | Void => false
  | Eps => true
  | Class _ => false
  | Cat r1 r2 => nullable r1 && nullable r2
  | Alt r1 r2 => nullable r1 || nullable r2
  | Star _ => true
  end.

Fixpoint deriv (c : ascii) (r : regex) : regex :=
  match r with
  | Void => Void
  | Eps => Void
  | Class f => if f c then Eps else Void
  | Cat r1 r2 =>
      if nullable r1
      then Alt (Cat (deriv c r1) r2) (deriv c r2)
      else Cat (deriv c r1) r2
  | Alt r1 r2 => Alt (deriv c r1) (deriv c r2)
  | Star r1 => Cat (deriv c r1) (Star r1)
  end.

(** [MatchString] of an expression anchored as [^r$]: without the [m] flag
    both anchors are absolute, so the whole text must be in the language. *)
Fixpoint MatchString (r : regex) (s : string) : bool :=
  match s with
  | EmptyString => nullable r
  | String c s' => MatchString (deriv c r) s'
  end.

(** The language of an expression, for reasoning about [MatchString]. *)
Inductive lang : regex -> string -> Prop :=
| lang_eps : lang Eps EmptyString
| lang_class f c : f c = true -> lang (Class f) (String c EmptyString)
| lang_cat r1 r2 s1 s2 : lang r1 s1 -> lang r2 s2 -> lang (Cat r1 r2) (s1 ++ s2)
| lang_alt_l r1 r2 s : lang r1 s -> lang (Alt r1 r2) s
| lang_alt_r r1 r2 s : lang r2 s -> lang (Alt r1 r2) s
| lang_star_nil r : lang (Star r) EmptyString
| lang_star_cons r s1 s2 : lang r s1 -> lang (Star r) s2 -> lang (Star r) (s1 ++ s2).

Definition in_range (lo hi c : ascii) : bool :=
  (N_of_ascii lo <=? N_of_ascii c)%N && (N_of_ascii c <=? N_of_ascii hi)%N.

(** [[a-zA-Z]] *)
Definition class_alpha (c : ascii) : bool :=
  in_range "a" "z" c || in_range "A" "Z" c.

(** [[a-zA-Z0-9_-]] *)
Definition class_name (c : ascii) : bool :=
  in_range "a" "z" c || in_range "A" "Z" c || in_range "0" "9" c
  || Ascii.eqb c "_" || Ascii.eqb c "-".

(** ** Peer-name validation *)

(** [validPeerNameRegex = ^[a-zA-Z][a-zA-Z0-9_-]*$] *)
Definition validPeerNameRegex : regex :=
  Cat (Class class_alpha) (Star (Class class_name)).

Definition validatePeerName (name : string) : option error :=
  if String.eqb name "" then
    Some (errorString "peer name cannot be empty")
  else if (64 <? String.length name)%nat then
    Some (errorString "peer name too long (max 64 characters)")
  else if negb (MatchString validPeerNameRegex name) then
    Some (errorString "peer name must start with a letter and contain only alphanumeric characters, hyphens, and underscores")
  else None.

(** The naming rule in the words of the data model: a letter, then letters,
    digits, hyphens or underscores, 1 to 64 characters in all. *)
Definition is_letter (c : ascii) : Prop :=
  let n := nat_of_ascii c in
  (65 <= n /\ n <= 90)%nat \/ (97 <= n /\ n <= 122)%nat.

Definition is_digit (c : ascii) : Prop :=
  let n := nat_of_ascii c in (48 <= n /\ n <= 57)%nat.

Definition is_name_char (c : ascii) : Prop :=
  is_letter c \/ is_digit c \/ c = "-"%char \/ c = "_"%char.

Definition well_formed_name (s : string) : Prop :=
  match s with
  | EmptyString => False
  | String c rest =>
      is_letter c /\ Forall is_name_char (list_ascii_of_string rest)
  end
  /\ (1 <= String.length s <= 64)%nat.

(** ** crypto/rand *)

(** [rand.Reader] as an unbounded byte source and a read position; every
    read takes the next bytes, so no two reads share their output position.
    [io.ReadFull(rand.Reader, buf)] fills [buf] and does not fail. *)
Record RandReader : Type := mkRand {
  rand_source : nat -> Z;
  rand_pos : nat
}.

Definition ReadFull (r : RandReader) (n : nat) : bytes * RandReader :=
  (List.map (fun i => rand_source r (rand_pos r + i)%nat mod 256) (seq 0 n),
   mkRand (rand_source r) (rand_pos r + n)).

(** ** The cipher *)

(** [aes.NewCipher] followed by [cipher.NewGCM]: the round keys of a 16, 24
    or 32 byte key.  [NewGCM] accepts every AES block. *)
Definition NewCipher (key : bytes) : list bytes + error :=
  let n := length key in
  if (n =? 16)%nat || (n =? 24)%nat || (n =? 32)%nat
  then inl (AES.expand_key key)
  else inr (KeySizeError n).

Definition encryptWithKey (plaintext : string) (key : bytes) (r : RandReader)
  : (bytes * option error) * RandReader :=
  match NewCipher key with
  | inr err => (([], Some err), r)
  | inl gcm =>
      let (nonce, r') := ReadFull r GCM.NonceSize in
      ((GCM.Seal gcm nonce nonce (bytes_of_string plaintext), None), r')
  end.

Definition decryptWithKey (encrypted key : bytes) : string * option error :=
  match NewCipher key with
  | inr err => (EmptyString, Some err)
  | inl gcm =>
      let nonceSize := GCM.NonceSize in
      if (length encrypted <? nonceSize)%nat then
        (EmptyString, Some (errorString "ciphertext too short"))
      else
        let nonce := firstn nonceSize encrypted in
        let ciphertext := skipn nonceSize encrypted in
        match GCM.Open gcm nonce ciphertext with
        | None => (EmptyString, Some errOpen)
        | Some plaintext => (string_of_bytes plaintext, None)
        end
  end.

(** ** Calls that may panic *)

(** How a call ends: it returns its results, or the goroutine panics with
    a value. *)
Inductive outcome (A : Type) : Type :=
| Returns (a : A)
| Panics (v : string).

Arguments Returns {A} _.
Arguments Panics {A} _.

(** ** The peer relation and the store *)

Module storage.

(** [storage.FederationPeer], with the password in clear. *)
Record FederationPeer : Type := mkFederationPeer {
  Name : string;
  RemoteURL : string;
  Username : string;
  Password : string;
  Sovereignty : string;
  LastSync : option Z;
  CreatedAt : Z;
  UpdatedAt : Z
}.

End storage.

(** A row of [federation_peers], keyed by [name]; [None] is SQL [NULL]. *)
Record PeerRow : Type := mkPeerRow {
  remote_url : string;
  username : option string;
  password_encrypted : option bytes;
  sovereignty : string;
  last_sync : option Z;
  created_at : Z;
  updated_at : Z
}.

(** The database: the peer table ([None] while it has not been created, so
    that every statement on it fails) and the server clock read by
    [CURRENT_TIMESTAMP]. *)
Record Database : Type := mkDatabase {
  federation_peers : option (gmap string PeerRow);
  clock : Z
}.

(** The remote-management facility behind [s.AddRemote] and
    [s.RemoveRemote], whose code is not part of this development: any state
    [R] with two operations that may fail. *)
Class RemoteAdapter (R : Type) : Type := {
  AddRemote : R -> string -> string -> R * option error;
  RemoveRemote : R -> string -> R * option error
}.

Record DoltStore (R : Type) : Type := mkDoltStore {
  dbPath : string;
  credentialKey : option bytes;
  db : option Database;
  remotes : R
}.

Arguments mkDoltStore {R} _ _ _ _.
Arguments dbPath {R} _.
Arguments credentialKey {R} _.
Arguments db {R} _.
Arguments remotes {R} _.

(** The part of package [os] the key bootstrap calls, whose code is not
    part of this development: any state [F] of the file system with three
    operations, each of which may fail. *)
Class FileSystem (F : Type) : Type := {
  ReadFile : F -> string -> bytes * option error;
  MkdirAll : F -> string -> Z -> F * option error;
  WriteFile : F -> string -> bytes -> Z -> F * option error
}.

(** ** package path/filepath, on Unix *)

(** [strings.Split(s, "/")] *)
Fixpoint split_slash (s : string) : list string :=
  match s with
  | EmptyString => [EmptyString]
  | String c rest =>
      if Ascii.eqb c "/" then EmptyString :: split_slash rest
      else match split_slash rest with
           | e :: es => String c e :: es
           | [] => [String c EmptyString]
           end
  end.

(** The elements of the cleaned path, last first: empty elements and [.]
    are dropped; [..] removes the element before it, and where there is
    none it is dropped at the root and kept otherwise. *)
Fixpoint clean_elements (rooted : bool) (elems out : list string) : list string :=
  match elems with
  | [] => out
  | e :: rest =>
      if String.eqb e "" || String.eqb e "." then clean_elements rooted rest out
      else if String.eqb e ".." then
        match out with
        | top :: out' =>
            if String.eqb top ".." then clean_elements rooted rest (e :: out)
            else clean_elements rooted rest out'
        | [] =>
            if rooted then clean_elements rooted rest []
            else clean_elements rooted rest [e]
        end
      else clean_elements rooted rest (e :: out)
  end.

(** [filepath.Clean] *)
Definition Clean (path : string) : string :=
  if String.eqb path "" then "."
  else
    let rooted := HasPrefix path "/" in
    let out := String.concat "/" (rev (clean_elements rooted (split_slash path) [])) in
    if rooted then "/" ++ out
    else if String.eqb out "" then "." else out.

(** [filepath.Join] of two elements: empty elements are ignored and the
    result is cleaned. *)
Definition Join (dir file : string) : string :=
  if negb (String.eqb dir "") then Clean (dir ++ "/" ++ file)
  else if negb (String.eqb file "") then Clean file
  else "".

Definition credentialKeyFile : string := ".beads-credential-key".

Section Store.

Context {R : Type} `{RemoteAdapter R}.
Context {F : Type} `{FileSystem F}.

Definition set_db (s : DoltStore R) (d : Database) : DoltStore R :=
  mkDoltStore (dbPath s) (credentialKey s) (Some d) (remotes s).

Definition set_remotes (s : DoltStore R) (rs : R) : DoltStore R :=
  mkDoltStore (dbPath s) (credentialKey s) (db s) rs.

Definition set_credentialKey (s : DoltStore R) (key : bytes) : DoltStore R :=
  mkDoltStore (dbPath s) (Some key) (db s) (remotes s).

Definition legacyEncryptionKey (s : DoltStore R) : bytes :=
  SHA256.Sum256 (bytes_of_string (dbPath s ++ "beads-federation-key-v1")).

(** [SELECT name, password_encrypted FROM federation_peers
     WHERE password_encrypted IS NOT NULL AND LENGTH(password_encrypted) > 0] *)
Definition select_encrypted (tbl : gmap string PeerRow) : list (string * bytes) :=
  omap (fun nr : string * PeerRow =>
          match password_encrypted nr.2 with
          | Some enc => if (0 <? length enc)%nat then Some (nr.1, enc) else None
          | None => None
          end)
       (map_to_list tbl).

Definition set_password_encrypted (enc : bytes) (row : PeerRow) : PeerRow :=
  mkPeerRow (remote_url row) (username row) (Some enc) (sovereignty row)
            (last_sync row) (created_at row) (updated_at row).

(** [UPDATE federation_peers SET password_encrypted = ? WHERE name = ?] *)
Definition update_password (name : string) (enc : bytes)
    (tbl : gmap string PeerRow) : gmap string PeerRow :=
  alter (set_password_encrypted enc) name tbl.

(** First loop of the migration: the rows that open under the old key. *)
Definition collect_migration (oldKey : bytes) (rows : list (string * bytes))
  : list (string * string) :=
  omap (fun ne : string * bytes =>
          match decryptWithKey ne.2 oldKey with
          | (plaintext, None) => Some (ne.1, plaintext)
          | (_, Some _) => None
          end)
       rows.

(** Second loop: re-encrypt each collected password and write it back. *)
Fixpoint reencrypt (toMigrate : list (string * string)) (newKey : bytes)
    (tbl : gmap string PeerRow) (r : RandReader)
  : (gmap string PeerRow * RandReader) * option error :=
  match toMigrate with
  | [] => ((tbl, r), None)
  | (name, plaintext) :: rest =>
      match encryptWithKey plaintext newKey r with
      | ((_, Some err), r') =>
          ((tbl, r'),
           Some (wrapError ("failed to re-encrypt password for peer " ++ name ++ ": ") err ""))
      | ((encrypted, None), r') =>
          reencrypt rest newKey (update_password name encrypted tbl) r'
      end
  end.

(** The two loops in sequence.  A failing query stands for the missing
    table; [rows.Scan], [rows.Err] and the [UPDATE] on an existing table do
    not fail in this model. *)
Definition migrateCredentialKeys (s : DoltStore R) (newKey : bytes) (r : RandReader)
  : (DoltStore R * RandReader) * option error :=
  match db s with
  | None => ((s, r), None)
  | Some d =>
      let oldKey := legacyEncryptionKey s in
      match federation_peers d with
      | None => ((s, r), None)
      | Some tbl =>
          let toMigrate := collect_migration oldKey (select_encrypted tbl) in
          match reencrypt toMigrate newKey tbl r with
          | ((tbl', r'), err) =>
              ((set_db s (mkDatabase (Some tbl') (clock d)), r'), err)
          end
      end
  end.

(** Key bootstrap; [448] and [384] are the modes 0700 and 0600.
    [io.ReadFull] on [rand.Reader] fills the key and does not fail. *)
Definition initCredentialKey (s : DoltStore R) (fs : F) (r : RandReader)
  : (DoltStore R * F * RandReader) * option error :=
  if String.eqb (dbPath s) "" then ((s, fs, r), None)
  else
    let keyPath := Join (dbPath s) credentialKeyFile in
    let (key, err) := ReadFile fs keyPath in
    if is_nil err && (length key =? 32)%nat then
      ((set_credentialKey s key, fs, r), None)
    else
      let (key, r1) := ReadFull r 32 in
      match migrateCredentialKeys s key r1 with
      | ((s1, r2), Some err) =>
          ((s1, fs, r2), Some (wrapError "failed to migrate credential keys: " err ""))
      | ((s1, r2), None) =>
          match MkdirAll fs (dbPath s) 448 with
          | (fs1, Some err) =>
              ((s1, fs1, r2),
               Some (wrapError "failed to create directory for credential key: " err ""))
          | (fs1, None) =>
              match WriteFile fs1 keyPath key 384 with
              | (fs2, Some err) =>
                  ((s1, fs2, r2),
                   Some (wrapError "failed to write credential key file: " err ""))
              | (fs2, None) => ((set_credentialKey s1 key, fs2, r2), None)
              end
          end
      end.

Definition encryptPassword (s : DoltStore R) (password : string) (r : RandReader)
  : (bytes * option error) * RandReader :=
  if String.eqb password "" then (([], None), r)
  else
    match credentialKey s with
    | None => (([], Some (errorString "credential encryption key not initialized")), r)
    | Some key => encryptWithKey password key r
    end.

Definition decryptPassword (s : DoltStore R) (encrypted : bytes)
  : string * option error :=
  if (length encrypted =? 0)%nat then (EmptyString, None)
  else
    match credentialKey s with
    | None => (EmptyString, Some (errorString "credential encryption key not initialized"))
    | Some key => decryptWithKey encrypted key
    end.

(** A [[]byte] argument of a statement: the nil slice is stored as [NULL]. *)
Definition blob_arg (b : bytes) : option bytes :=
  match b with
  | [] => None
  | _ => Some b
  end.

(** [INSERT INTO federation_peers (name, remote_url, username,
     password_encrypted, sovereignty) VALUES (?, ?, ?, ?, ?)
     ON DUPLICATE KEY UPDATE ... updated_at = CURRENT_TIMESTAMP] *)
Definition upsert_peer (peer : storage.FederationPeer) (enc : bytes) (now : Z)
    (tbl : gmap string PeerRow) : gmap string PeerRow :=
  let name := storage.Name peer in
  match tbl !! name with
  | Some old =>
      <[name := mkPeerRow (storage.RemoteURL peer) (Some (storage.Username peer))
                  (blob_arg enc) (storage.Sovereignty peer)
                  (last_sync old) (created_at old) now]> tbl
  | None =>
      <[name := mkPeerRow (storage.RemoteURL peer) (Some (storage.Username peer))
                  (blob_arg enc) (storage.Sovereignty peer)
                  None now now]> tbl
  end.

(** Modelled from the spec: [s.execContext] and [s.queryContext], the
    store's wrappers around the SQL connection, are not among the sources;
    after the design's error taxonomy a statement on the peer table fails
    with a store error when the persistence layer fails, which here is when
    there is no connection or no such table, and otherwise it runs. *)
Definition exec_on_peers (s : DoltStore R)
    (stmt : Z -> gmap string PeerRow -> gmap string PeerRow)
  : DoltStore R * option error :=
  match db s with
  | None => (s, Some (errorString "database connection is not open"))
  | Some d =>
      match federation_peers d with
      | None => (s, Some (errorString "table not found: federation_peers"))
      | Some tbl => (set_db s (mkDatabase (Some (stmt (clock d) tbl)) (clock d)), None)
      end
  end.

Definition AddFederationPeer (s : DoltStore R) (peer : storage.FederationPeer)
    (r : RandReader) : (DoltStore R * RandReader) * option error :=
  match validatePeerName (storage.Name peer) with
  | Some err => ((s, r), Some (wrapError "invalid peer name: " err ""))
  | None =>
      let '((encryptedPwd, err), r1) :=
        if negb (String.eqb (storage.Password peer) "")
        then encryptPassword s (storage.Password peer) r
        else (([], None), r) in
      match err with
      | Some e => ((s, r1), Some (wrapError "failed to encrypt password: " e ""))
      | None =>
          match exec_on_peers s (upsert_peer peer encryptedPwd) with
          | (s1, Some e) =>
              ((s1, r1), Some (wrapError "failed to add federation peer: " e ""))
          | (s1, None) =>
              match AddRemote (remotes s1) (storage.Name peer) (storage.RemoteURL peer) with
              | (rs, Some e) =>
                  if negb (Contains (Error e) "already exists")
                  then ((set_remotes s1 rs, r1),
                        Some (wrapError "failed to add dolt remote: " e ""))
                  else ((set_remotes s1 rs, r1), None)
              | (rs, None) => ((set_remotes s1 rs, r1), None)
              end
          end
      end
  end.

(** The peer scanned from a row, once its password is known. *)
Definition row_peer (name : string) (row : PeerRow) (password : string)
  : storage.FederationPeer :=
  storage.mkFederationPeer name (remote_url row)
    (default EmptyString (username row)) password (sovereignty row)
    (last_sync row) (created_at row) (updated_at row).

(** [rows.Scan] into a peer followed by the decryption of its password. *)
Definition scan_peer (s : DoltStore R) (name : string) (row : PeerRow)
  : option storage.FederationPeer * option error :=
  let encryptedPwd := default [] (password_encrypted row) in
  let '(password, err) :=
    if (0 <? length encryptedPwd)%nat then decryptPassword s encryptedPwd
    else (EmptyString, None) in
  match err with
  | Some e => (None, Some (wrapError "failed to decrypt password: " e ""))
  | None => (Some (row_peer name row password), None)
  end.

(** The query is a method call on the connection [s.db] itself, so without
    a connection the call panics on the nil pointer.  [sql.ErrNoRows]
    becomes the wrapped [storage.ErrNotFound]; any other failure of the
    query is reported as such. *)
Definition GetFederationPeer (s : DoltStore R) (name : string)
  : outcome (option storage.FederationPeer * option error) :=
  match db s with
  | None => Panics "runtime error: invalid memory address or nil pointer dereference"
  | Some d =>
      Returns
        match federation_peers d with
        | None =>
            (None, Some (wrapError "failed to get federation peer: "
                           (errorString "table not found: federation_peers") ""))
        | Some tbl =>
            match tbl !! name with
            | None => (None, Some (wrapError "" ErrNotFound (": federation peer " ++ name)))
            | Some row => scan_peer s name row
            end
        end
  end.

(** [ORDER BY name], bytewise. *)
Definition name_le (x y : string * PeerRow) : Prop :=
  String.leb x.1 y.1 = true.

#[global] Instance name_le_dec (x y : string * PeerRow) : Decision (name_le x y) :=
  decide (String.leb x.1 y.1 = true).

Fixpoint scan_peers (s : DoltStore R) (rows : list (string * PeerRow))
    (peers : list storage.FederationPeer)
  : list storage.FederationPeer * option error :=
  match rows with
  | [] => (peers, None)
  | (name, row) :: rest =>
      match scan_peer s name row with
      | (Some peer, None) => scan_peers s rest (peers ++ [peer])
      | (_, err) => ([], err)
      end
  end.

Definition ListFederationPeers (s : DoltStore R)
  : list storage.FederationPeer * option error :=
  match db s with
  | None =>
      ([], Some (wrapError "failed to list federation peers: "
                   (errorString "database connection is not open") ""))
  | Some d =>
      match federation_peers d with
      | None =>
          ([], Some (wrapError "failed to list federation peers: "
                       (errorString "table not found: federation_peers") ""))
      | Some tbl => scan_peers s (merge_sort name_le (map_to_list tbl)) []
      end
  end.

End Store.

(** ** The process environment (package os) *)

(** The environment after the runtime's de-duplication: one value per key,
    in the order of the underlying [envs] slice. *)
Abbreviation Environment := (list (string * string)).

Definition has_char (c : ascii) (s : string) : bool :=
  existsb (Ascii.eqb c) (list_ascii_of_string s).

Fixpoint set_var (k v : string) (env : Environment) : Environment :=
  match env with
  | [] => [(k, v)]
  | (k', v') :: rest =>
      if String.eqb k' k then (k, v) :: rest else (k', v') :: set_var k v rest
  end.

Definition LookupEnv (env : Environment) (k : string) : option string :=
  snd <$> List.find (fun kv : string * string => String.eqb kv.1 k) env.

(** [os.Setenv]: [EINVAL] for an empty key, a key with ['='] or NUL, or a
    value with NUL; otherwise the variable is replaced in place or added. *)
Definition Setenv (env : Environment) (k v : string) : Environment * option error :=
  if String.eqb k "" || has_char "="%char k || has_char zero k || has_char zero v
  then (env, Some EINVAL)
  else (set_var k v env, None).

Definition Unsetenv (env : Environment) (k : string) : Environment :=
  List.filter (fun kv : string * string => negb (String.eqb kv.1 k)) env.

(** [os.Environ]: a fresh slice of ["key=value"] strings. *)
Definition Environ (env : Environment) : list string :=
  List.map (fun kv : string * string => (kv.1 ++ "=" ++ kv.2)%string) env.

(** What can be observed of the process by the credential code: the calls
    it makes on the environment and on the mutex, and the environment the
    wrapped operation starts in. *)
Inductive Event : Type :=
| EvLock
| EvUnlock
| EvSetenv (k v : string)
| EvUnsetenv (k : string)
| EvCall (env : Environment).

(** The process-global state: the environment, [federationEnvMutex]
    ([true] while held), and the log of events. *)
Record Process : Type := mkProcess {
  environ : Environment;
  federationEnvMutex : bool;
  trace : list Event
}.

Definition os_Setenv (k v : string) (p : Process) : Process :=
  mkProcess (Setenv (environ p) k v).1 (federationEnvMutex p)
            (trace p ++ [EvSetenv k v]).

Definition os_Unsetenv (k : string) (p : Process) : Process :=
  mkProcess (Unsetenv (environ p) k) (federationEnvMutex p)
            (trace p ++ [EvUnsetenv k]).

(** [federationEnvMutex.Lock()]: [None] when the mutex is held, in which
    case the caller does not proceed. *)
Definition Lock (p : Process) : option Process :=
  if federationEnvMutex p then None
  else Some (mkProcess (environ p) true (trace p ++ [EvLock])).

Definition Unlock (p : Process) : Process :=
  mkProcess (environ p) false (trace p ++ [EvUnlock]).

(** ** Credential delivery *)

Record remoteCredentials : Type := mkRemoteCredentials {
  Username : string;
  Password : string
}.

(** [c.empty()] on a possibly nil pointer. *)
Definition empty (c : option remoteCredentials) : bool :=
  match c with
  | None => true
  | Some c => String.eqb (Username c) "" && String.eqb (Password c) ""
  end.

(** [exec.Cmd]: [Env = None] is the nil slice, under which the child
    inherits the environment of the process. *)
Record Cmd : Type := mkCmd {
  Path : string;
  Args : list string;
  Env : option (list string)
}.

Definition applyToCmd (c : option remoteCredentials) (cmd : Cmd) (p : Process)
  : Cmd * Process :=
  match c with
  | None => (cmd, p)
  | Some creds =>
      if empty c then (cmd, p)
      else
        let env :=
          List.filter
            (fun e => negb (HasPrefix e "DOLT_REMOTE_USER=")
                      && negb (HasPrefix e "DOLT_REMOTE_PASSWORD="))
            (Environ (environ p)) in
        let env :=
          if negb (String.eqb (Username creds) "")
          then env ++ [("DOLT_REMOTE_USER=" ++ Username creds)%string] else env in
        let env :=
          if negb (String.eqb (Password creds) "")
          then env ++ [("DOLT_REMOTE_PASSWORD=" ++ Password creds)%string] else env in
        (mkCmd (Path cmd) (Args cmd) (Some env), p)
  end.

(** The environment block the child is started with. *)
Definition child_environ (cmd : Cmd) (p : Process) : list string :=
  default (Environ (environ p)) (Env cmd).

(** Every value a ["key=value"] block gives to [k], in order. *)
Definition env_values (k : string) (block : list string) : list string :=
  omap (fun e => CutPrefix e (k ++ "=")%string) block.

(** Returns the environment with the credentials set, and the cleanup
    closure. *)
Definition setFederationCredentials (username password : string) (p : Process)
  : Process * (Process -> Process) :=
  let p1 := if negb (String.eqb username "")
            then os_Setenv "DOLT_REMOTE_USER" username p else p in
  let p2 := if negb (String.eqb password "")
            then os_Setenv "DOLT_REMOTE_PASSWORD" password p1 else p1 in
  (p2, fun q => os_Unsetenv "DOLT_REMOTE_PASSWORD" (os_Unsetenv "DOLT_REMOTE_USER" q)).

(** How the wrapped operation ends: it returns its error, or it panics. *)
Inductive FnResult : Type :=
| Returned (err : option error)
| Panicked (v : string).

(** The wrapped operation reads and may change the environment; the mutex
    is private to the package and out of its reach. *)
Abbreviation Operation := (Environment -> FnResult * Environment).

Definition call (fn : Operation) (p : Process) : FnResult * Process :=
  let (res, env') := fn (environ p) in
  (res, mkProcess env' (federationEnvMutex p) (trace p ++ [EvCall (environ p)])).

(** Deferred calls run last-registered first, when the function returns
    and when it panics alike; [defers] is the stack, top first. *)
Definition run_deferred (defers : list (Process -> Process)) (p : Process) : Process :=
  fold_left (fun q d => d q) defers p.

Definition withEnvCredentials (creds : option remoteCredentials) (fn : Operation)
    (p : Process) : option (FnResult * Process) :=
  match creds with
  | None => Some (call fn p)
  | Some c =>
      if empty creds then Some (call fn p)
      else
        match Lock p with
        | None => None
        | Some p1 =>
            let defers := [Unlock] in
            let (p2, cleanup) := setFederationCredentials (Username c) (Password c) p1 in
            let defers := cleanup :: defers in
            let (res, p3) := call fn p2 in
            Some (res, run_deferred defers p3)
        end
  end.

(** ** Test inputs *)

Definition hexval (c : ascii) : Z :=
  let n := Z.of_N (N_of_ascii c) in
  if (48 <=? n) && (n <=? 57) then n - 48 else n - 87.

(** The bytes written as lower-case hexadecimal. *)
Fixpoint unhex (s : string) : bytes :=
  match s with
  | String a (String b r) => (16 * hexval a + hexval b) :: unhex r
  | _ => []
  end.

(** A source of random bytes that repeats the bytes of [l]. *)
Definition rand_of (l : bytes) : RandReader :=
  mkRand (fun i => nth (i mod length l) l 0) 0.

(** ** What [gcm.Open] checks *)

Definition nonce_of (blob : bytes) : bytes := firstn GCM.NonceSize blob.

Definition sealed_of (blob : bytes) : bytes := skipn GCM.NonceSize blob.

(** The blob carries a tag, and the tag recomputed under [rks] over the
    nonce and the ciphertext equals it. *)
Definition authentic (rks : list bytes) (blob : bytes) : Prop :=
  let c := sealed_of blob in
  (GCM.TagSize <= length c)%nat /\
  GCM.auth rks (nonce_of blob) (firstn (length c - GCM.TagSize) c)
  = skipn (length c - GCM.TagSize) c.

(** Two keys, a nonce and a password for which the sealed blob carries a
    tag that is valid under both keys. *)
Definition collision_key1 : bytes := repeat 1 32%nat.
Definition collision_key2 : bytes := repeat 2 32%nat.
Definition collision_rand : RandReader := rand_of [0].
Definition collision_password : string :=
  string_of_bytes
    [136; 218; 200; 64; 213; 114; 185; 244; 202; 209; 245; 103; 217; 109; 64; 124].
Definition collision_opened : string :=
  string_of_bytes
    [109; 157; 106; 82; 69; 101; 228; 235; 114; 58; 196; 129; 200; 137; 20; 168].

(** ** A remote adapter for the examples *)

(** Remotes kept in a list; a name cannot be added twice. *)
#[global] Instance memory_remotes : RemoteAdapter (list (string * string)) := {|
  AddRemote rs name url :=
    if existsb (fun nu : string * string => String.eqb nu.1 name) rs
    then (rs, Some (errorString "remote already exists"))
    else ((name, url) :: rs, None);
  RemoveRemote rs name :=
    (List.filter (fun nu : string * string => negb (String.eqb nu.1 name)) rs, None)
|}.

Definition peer_of (name url user password : string) : storage.FederationPeer :=
  storage.mkFederationPeer name url user password "T2" None 0 0.

Definition empty_store (path : string) (key : option bytes)
  : DoltStore (list (string * string)) :=
  mkDoltStore path key (Some (mkDatabase (Some ∅) 1000)) [].

(** A store without key or data directory that holds one peer without
    password. *)
Definition row_without_password : PeerRow :=
  mkPeerRow "https://x/y" (Some "bob") None "T2" None 1000 1000.

Definition keyless_store : DoltStore (list (string * string)) :=
  mkDoltStore "" None
    (Some (mkDatabase (Some {[ "origin" := row_without_password ]}) 1000)) [].

(** ** The migration in the words of the design *)

(** The plaintext of a row whose non-empty blob opens under [oldKey]; [None]
    for a row without ciphertext and for a blob that does not open. *)
Definition legacy_plaintext (oldKey : bytes) (row : PeerRow) : option string :=
  match password_encrypted row with
  | Some enc =>
      if (0 <? length enc)%nat then
        match decryptWithKey enc oldKey with
        | (plaintext, None) => Some plaintext
        | (_, Some _) => None
        end
      else None
  | None => None
  end.

(** ** Stores for the migration examples *)

Definition legacy_path : string := "/data/beads".

Definition legacy_key : bytes :=
  SHA256.Sum256 (bytes_of_string (legacy_path ++ "beads-federation-key-v1")).

Definition row_with_blob (enc : bytes) : PeerRow :=
  mkPeerRow "https://x/y" (Some "bob") (Some enc) "T2" None 1000 1000.

(** A password sealed under the legacy key, as the old scheme stored it. *)
Definition legacy_blob (password : string) : bytes :=
  (encryptWithKey password legacy_key (rand_of [5; 6; 7])).1.1.

Definition store_of_rows (tbl : gmap string PeerRow)
  : DoltStore (list (string * string)) :=
  mkDoltStore legacy_path None (Some (mkDatabase (Some tbl) 1000)) [].

Definition legacy_rows : gmap string PeerRow :=
  {[ "origin" := row_with_blob (legacy_blob "secret");
     "nopw" := row_without_password ]}.


Definition new_key : bytes := repeat 1 32%nat.

Definition migration_rand : RandReader :=
  rand_of [1; 2; 3; 4; 5; 6; 7; 8; 9; 10; 11; 12; 13].






(** ** The child environment in the words of the design *)

(** The block without any entry for the two credential variables. *)
Definition strip_credentials (block : list string) : list string :=
  List.filter
    (fun e => negb (HasPrefix e "DOLT_REMOTE_USER=")
              && negb (HasPrefix e "DOLT_REMOTE_PASSWORD="))
    block.

(** One entry per non-empty credential, user first. *)
Definition credential_entries (c : remoteCredentials) : list string :=
  (if String.eqb (Username c) "" then []
   else [("DOLT_REMOTE_USER=" ++ Username c)%string])
  ++ (if String.eqb (Password c) "" then []
      else [("DOLT_REMOTE_PASSWORD=" ++ Password c)%string]).

Definition expected_child_env (c : remoteCredentials) (p : Process) : list string :=
  strip_credentials (Environ (environ p)) ++ credential_entries c.

(** A process with a stale credential in its environment, and two peers. *)
Definition ambient : Process :=
  mkProcess [("PATH", "/usr/bin"); ("DOLT_REMOTE_USER", "stale");
             ("DOLT_REMOTE_PASSWORD", "old")]%string false [].

Definition alpha : remoteCredentials := mkRemoteCredentials "a" "a1".
Definition beta : remoteCredentials := mkRemoteCredentials "b" "b1".
Definition dolt_push : Cmd := mkCmd "dolt" ["push"; "origin"]%string None.

(** ** The in-process path in the words of the design *)

(** [Setenv] of a credential that is not empty, its result ignored. *)
Definition setenv_nonempty (k v : string) (env : Environment) : Environment :=
  if String.eqb v "" then env else (Setenv env k v).1.

(** The environment the wrapped operation starts in. *)
Definition credentialed_env (c : remoteCredentials) (env : Environment) : Environment :=
  setenv_nonempty "DOLT_REMOTE_PASSWORD" (Password c)
    (setenv_nonempty "DOLT_REMOTE_USER" (Username c) env).

Definition setenv_events (c : remoteCredentials) : list Event :=
  (if String.eqb (Username c) "" then [] else [EvSetenv "DOLT_REMOTE_USER" (Username c)])
  ++ (if String.eqb (Password c) "" then []
      else [EvSetenv "DOLT_REMOTE_PASSWORD" (Password c)]).

(** An operation that fails after leaving a variable of its own behind. *)
Definition failing_push : Operation :=
  fun env => (Returned (Some (errorString "push failed")),
              env ++ [("PUSHED"%string, "no"%string)]).

(** An operation that panics. *)
Definition panicking_push : Operation :=
  fun env => (Panicked "nil pointer dereference", env).

Definition user_only : remoteCredentials := mkRemoteCredentials "a" "".

Definition stale_password : Process :=
  mkProcess [("DOLT_REMOTE_PASSWORD", "stale")]%string false [].

(** An operation that succeeds and leaves the environment alone. *)
Definition quiet_pull : Operation := fun env => (Returned None, env).

(** ** Removing peers, the sync timestamp, and credential lookup *)

Section Sync.

Context {R : Type} `{RemoteAdapter R}.

(** [wrapExecError], a helper of the store that is not among the sources:
    any function from an operation name and the error of a statement. *)
Variable wrapExecError : string -> option error -> option error.

(** [DELETE FROM federation_peers WHERE name = ?], then the best-effort
    removal of the remote, whose error is dropped. *)
Definition RemoveFederationPeer (s : DoltStore R) (name : string)
  : DoltStore R * option error :=
  match exec_on_peers s (fun _ tbl => delete name tbl) with
  | (s1, Some err) => (s1, Some (wrapError "failed to remove federation peer: " err ""))
  | (s1, None) =>
      let (rs, _) := RemoveRemote (remotes s1) name in
      (set_remotes s1 rs, None)
  end.

Definition set_last_sync (now : Z) (row : PeerRow) : PeerRow :=
  mkPeerRow (remote_url row) (username row) (password_encrypted row)
            (sovereignty row) (Some now) (created_at row) (updated_at row).

(** [UPDATE federation_peers SET last_sync = CURRENT_TIMESTAMP WHERE name = ?] *)
Definition updatePeerLastSync (s : DoltStore R) (name : string)
  : DoltStore R * option error :=
  let (s1, err) := exec_on_peers s (fun now tbl => alter (set_last_sync now) name tbl) in
  (s1, wrapExecError "update peer last sync" err).

(** The callback of [withPeerCredentials]: it receives the credentials and
    may change the store.  A panic of the lookup passes through. *)
Definition withPeerCredentials (s : DoltStore R) (peerName : string)
    (fn : option remoteCredentials -> DoltStore R -> DoltStore R * option error)
  : outcome (DoltStore R * option error) :=
  match GetFederationPeer s peerName with
  | Panics v => Panics v
  | Returns (_, Some err) =>
      Returns (s, Some (wrapError "failed to get peer credentials: " err ""))
  | Returns (peer, None) =>
      let creds :=
        match peer with
        | Some p =>
            if negb (String.eqb (storage.Username p) "")
               || negb (String.eqb (storage.Password p) "")
            then Some (mkRemoteCredentials (storage.Username p) (storage.Password p))
            else None
        | None => None
        end in
      let (s1, err) := fn creds s in
      match err, peer with
      | None, Some _ => Returns ((updatePeerLastSync s1 peerName).1, err)
      | _, _ => Returns (s1, err)
      end
  end.

End Sync.

(** ** package doltutil *)

Module doltutil.

Definition IsSSHURL (url : string) : bool :=
  HasPrefix url "git+ssh://" || HasPrefix url "ssh://" || Contains url "git@".

End doltutil.

(** ** More inputs for the examples *)

(** A remote facility whose every operation fails. *)
Inductive broken : Type := Broken.

#[global] Instance broken_remotes : RemoteAdapter broken := {|
  AddRemote rs name url :=
    (rs, Some (errorString "dolt remote add failed: exit status 1"));
  RemoveRemote rs name :=
    (rs, Some (errorString "dolt remote remove failed: exit status 1"))
|}.

Definition broken_store (key : option bytes) : DoltStore broken :=
  mkDoltStore "/data" key (Some (mkDatabase (Some ∅) 1000)) Broken.

Definition keyed_store : DoltStore (list (string * string)) :=
  empty_store "/data" (Some new_key).

(** [wrapExecError] as the identity on the error. *)
Definition plain_wrap (op : string) (err : option error) : option error := err.

(** A store, read one thousand ticks after its only peer was created and
    last synchronised. *)
Definition synced_row : PeerRow :=
  mkPeerRow "https://old/url" (Some "bob") None "T2" (Some 1000) 1000 1000.

Definition later_store : DoltStore (list (string * string)) :=
  mkDoltStore "/data" (Some new_key)
    (Some (mkDatabase (Some {[ "origin" := synced_row ]}) 2000)) [].

(** Two peers without password, entered out of order. *)
Definition two_peer_store : DoltStore (list (string * string)) :=
  mkDoltStore "/data" None
    (Some (mkDatabase (Some {[ "zeta" := row_without_password;
                               "alpha" := row_without_password ]}) 1000)) [].

(** A small disk for the examples: regular files with their mode and
    directories with theirs, under their cleaned path; the root and the
    working directory exist.  A name is a file or a directory, not both. *)
Record Disk : Type := mkDisk {
  files : gmap string (bytes * Z);
  dirs : gmap string Z
}.

Definition is_file (fs : Disk) (path : string) : bool :=
  match files fs !! path with Some _ => true | None => false end.

Definition is_dir (fs : Disk) (path : string) : bool :=
  String.eqb path "/" || String.eqb path "."
  || match dirs fs !! path with Some _ => true | None => false end.

(** The directories above a cleaned path, outermost first, the root left
    out: [/data] for [/data/beads]. *)
Fixpoint ancestors_from (seen rest : string) : list string :=
  match rest with
  | EmptyString => []
  | String c rest' =>
      if Ascii.eqb c "/" then
        (if String.eqb seen "" then [] else [seen])
        ++ ancestors_from (seen ++ "/") rest'
      else ancestors_from (seen ++ String c EmptyString) rest'
  end.

Definition ancestors (path : string) : list string := ancestors_from "" path.

Definition mkdir (perm : Z) (ds : gmap string Z) (path : string) : gmap string Z :=
  if String.eqb path "/" || String.eqb path "." then ds
  else match ds !! path with
       | Some _ => ds
       | None => <[path := perm]> ds
       end.

(** Reading needs a regular file.  [MkdirAll] makes the directory and the
    missing directories above it, and fails when one of these names is a
    regular file.  [WriteFile] creates the file with [perm] or truncates an
    existing file and keeps its mode; it fails when the name is a
    directory or when the directory above does not exist. *)
#[global] Instance memory_disk : FileSystem Disk := {|
  ReadFile fs path :=
    let p := Clean path in
    match files fs !! p with
    | Some (data, _) => (data, None)
    | None =>
        ([], Some (errorString
                     (if is_dir fs p then "read " ++ path ++ ": is a directory"
                      else if existsb (is_file fs) (ancestors p)
                           then "open " ++ path ++ ": not a directory"
                           else "open " ++ path ++ ": no such file or directory")))
    end;
  MkdirAll fs path perm :=
    let p := Clean path in
    let chain := ancestors p ++ [p] in
    match List.find (is_file fs) chain with
    | Some q => (fs, Some (errorString ("mkdir " ++ q ++ ": not a directory")))
    | None => (mkDisk (files fs) (fold_left (mkdir perm) chain (dirs fs)), None)
    end;
  WriteFile fs path data perm :=
    let p := Clean path in
    if existsb (is_file fs) (ancestors p) then
      (fs, Some (errorString ("open " ++ path ++ ": not a directory")))
    else if is_dir fs p then
      (fs, Some (errorString ("open " ++ path ++ ": is a directory")))
    else if negb (forallb (is_dir fs) (ancestors p)) then
      (fs, Some (errorString ("open " ++ path ++ ": no such file or directory")))
    else
      match files fs !! p with
      | Some (_, mode) => (mkDisk (<[p := (data, mode)]> (files fs)) (dirs fs), None)
      | None => (mkDisk (<[p := (data, perm)]> (files fs)) (dirs fs), None)
      end
|}.

Definition empty_disk : Disk := mkDisk ∅ ∅.


(** A disk on which the key file of [/data/beads] cannot be written: its
    name is taken by a directory. *)
Definition occupied_disk : Disk :=
  mkDisk ∅ {[ "/data" := 493; "/data/beads" := 493;
              "/data/beads/.beads-credential-key" := 493 ]}.

(** The path of the key file of a store. *)
Definition keyPath_of {R : Type} (s : DoltStore R) : string :=
  Join (dbPath s) credentialKeyFile.

(** A sync callback that succeeds without touching the store, and one that
    fails. *)
Definition sync_ok {R : Type} (creds : option remoteCredentials) (s : DoltStore R)
  : DoltStore R * option error := (s, None).

Definition sync_fails {R : Type} (creds : option remoteCredentials) (s : DoltStore R)
  : DoltStore R * option error := (s, Some (errorString "push rejected")).

(** The credentials handed to the callback for a user name and password. *)
Definition credentials_for (user password : string) : option remoteCredentials :=
  if String.eqb user "" && String.eqb password "" then None
  else Some (mkRemoteCredentials user password).

(** The environment the wrapped operation starts in, for credentials that
    may be nil or empty. *)
Definition env_seen (creds : option remoteCredentials) (env : Environment)
  : Environment :=
  match creds with
  | Some c => if empty creds then env else credentialed_env c env
  | None => env
  end.

(** What the operation finds for a credential variable that no earlier
    call has left behind. *)
Definition fresh_value (v : string) : option string :=
  if String.eqb v "" || has_char zero v then None else Some v.

(** The key file at [path] is not usable: it cannot be read, or it does not
    hold exactly 32 bytes. *)
Definition no_usable_key {F : Type} `{FileSystem F} (fs : F) (path : string) : Prop :=
  (ReadFile fs path).2 <> None \/ length (ReadFile fs path).1 <> 32%nat.

(* ================================================================== *)
(** * Properties *)
(* ================================================================== *)

(** ** The primitives agree with the published test vectors *)

Example aes128_fips197 :
  AES.encrypt_block (AES.expand_key (unhex "000102030405060708090a0b0c0d0e0f"))
                    (unhex "00112233445566778899aabbccddeeff")
  = unhex "69c4e0d86a7b0430d8cdb78070b4c55a".
Proof. vm_compute. reflexivity. Qed.

Example aes192_fips197 :
  AES.encrypt_block
    (AES.expand_key (unhex "000102030405060708090a0b0c0d0e0f1011121314151617"))
    (unhex "00112233445566778899aabbccddeeff")
  = unhex "dda97ca4864cdfe06eaf70a0ec0d7191".
Proof. vm_compute. reflexivity. Qed.

Example aes256_fips197 :
  AES.encrypt_block
    (AES.expand_key
       (unhex "000102030405060708090a0b0c0d0e0f101112131415161718191a1b1c1d1e1f"))
    (unhex "00112233445566778899aabbccddeeff")
  = unhex "8ea2b7ca516745bfeafc49904b496089".
Proof. vm_compute. reflexivity. Qed.

Example gcm_aes256_empty :
  GCM.Seal (AES.expand_key (repeat 0 32%nat)) [] (repeat 0 12%nat) []
  = unhex "530f8afbc74536b9a963b4f1c4cb738b".
Proof. vm_compute. reflexivity. Qed.

Example gcm_aes256_one_block :
  GCM.Seal (AES.expand_key (repeat 0 32%nat)) [] (repeat 0 12%nat) (repeat 0 16%nat)
  = unhex "cea7403d4d606b6e074ec5d3baf39d18d0d1c8a799996bf0265b98b5d48ab919".
Proof. vm_compute. reflexivity. Qed.

Example gcm_aes256_four_blocks :
  GCM.Seal
    (AES.expand_key
       (unhex "feffe9928665731c6d6a8f9467308308feffe9928665731c6d6a8f9467308308"))
    [] (unhex "cafebabefacedbaddecaf888")
    (unhex "d9313225f88406e5a55909c5aff5269a86a7a9531534f7da2e4c303d8a318a721c3c0c95956809532fcf0e2449a6b525b16aedf5aa0de657ba637b391aafd255")
  = unhex "522dc1f099567d07f47f37a32a84427d643a8cdcbfe5c0c97598a2bd2555d1aa8cb08e48590dbb3da7b08b1056828838c5f61e6393ba7a0abcc9f662898015adb094dac5d93471bdec1a502270e3cc6c".
Proof. vm_compute. reflexivity. Qed.

Example sha256_abc :
  SHA256.Sum256 (bytes_of_string "abc")
  = unhex "ba7816bf8f01cfea414140de5dae2223b00361a396177a9cb410ff61f20015ad".
Proof. vm_compute. reflexivity. Qed.

Example sha256_two_blocks :
  SHA256.Sum256 (repeat 97 100%nat)
  = unhex "2816597888e4a0d3a36b82b83316ab32680eb8f00f8cd3b904d681246d285a0e".
Proof. vm_compute. reflexivity. Qed.

(** ** Paths *)

(** [Clean] on the cases of the test table of package path/filepath. *)
Example Clean_cases :
  Clean "" = "."%string /\ Clean "abc" = "abc"%string /\
  Clean "abc/def/" = "abc/def"%string /\ Clean "/" = "/"%string /\
  Clean "./" = "."%string /\ Clean "../../" = "../.."%string /\
  Clean "abc//def//ghi" = "abc/def/ghi"%string /\
  Clean "//abc//" = "/abc"%string /\
  Clean "abc/./def" = "abc/def"%string /\ Clean "/./abc/def" = "/abc/def"%string /\
  Clean "abc/def/ghi/../jkl" = "abc/def/jkl"%string /\
  Clean "abc/def/../.." = "."%string /\ Clean "/abc/def/../.." = "/"%string /\
  Clean "abc/def/../../.." = ".."%string /\
  Clean "/abc/def/../../.." = "/"%string /\
  Clean "abc/def/../../../ghi/jkl/../../../mno" = "../../mno"%string /\
  Clean "/../abc" = "/abc"%string /\
  Clean "abc/../../././../def" = "../../def"%string.
Proof. repeat split. Qed.

(** The key path does not depend on how the data directory is written. *)
Example Join_cases :
  Join "/data/beads" credentialKeyFile = "/data/beads/.beads-credential-key"%string /\
  Join "/data/beads/" credentialKeyFile = "/data/beads/.beads-credential-key"%string /\
  Join "data//beads/." credentialKeyFile = "data/beads/.beads-credential-key"%string /\
  Join "." credentialKeyFile = ".beads-credential-key"%string /\
  Join "" credentialKeyFile = ".beads-credential-key"%string.
Proof. repeat split. Qed.

(** ** Bytes and strings *)

Lemma length_xor_bytes (a b : bytes) : length (xor_bytes a b) = length a.
Proof.
  revert b. induction a as [|x a IH]; intros b; simpl; [reflexivity|].
  now rewrite IH.
Qed.

Lemma xor_bytes_involutive (a b : bytes) : xor_bytes (xor_bytes a b) b = a.
Proof.
  revert b. induction a as [|x a IH]; intros b; simpl; [reflexivity|].
  rewrite IH. f_equal.
  rewrite Z.lxor_assoc, Z.lxor_nilpotent. apply Z.lxor_0_r.
Qed.

Lemma length_Z_to_be (n : nat) (z : Z) : length (Z_to_be n z) = n.
Proof. induction n as [|n IH]; simpl; [reflexivity|]. now rewrite IH. Qed.

Lemma ConstantTimeCompare_eq (x y : bytes) :
  ConstantTimeCompare x y = true <-> x = y.
Proof.
  revert y. induction x as [|a x IH]; intros [|b y]; simpl; split;
    try discriminate; try reflexivity.
  - intros Hc. apply andb_true_iff in Hc as [Hab Hxy].
    apply Z.eqb_eq in Hab. apply IH in Hxy. now subst.
  - intros Heq. injection Heq as -> ->.
    apply andb_true_iff. split; [apply Z.eqb_refl | now apply IH].
Qed.

Lemma string_of_bytes_of_string (s : string) :
  string_of_bytes (bytes_of_string s) = s.
Proof.
  unfold string_of_bytes, bytes_of_string.
  rewrite List.map_map.
  rewrite (List.map_ext _ (fun c => c)).
  - rewrite List.map_id. apply string_of_list_ascii_of_string.
  - intros c. rewrite N2Z.id. apply ascii_N_embedding.
Qed.

Lemma string_of_bytes_nil : string_of_bytes [] = EmptyString.
Proof. reflexivity. Qed.

(** ** The AEAD *)

Lemma length_auth rks nonce ct : length (GCM.auth rks nonce ct) = GCM.TagSize.
Proof. unfold GCM.auth. rewrite length_xor_bytes. apply length_Z_to_be. Qed.

Lemma length_counter_crypt rks nonce data :
  length (GCM.counter_crypt rks nonce data) = length data.
Proof. apply length_xor_bytes. Qed.

Lemma counter_crypt_involutive rks nonce data :
  GCM.counter_crypt rks nonce (GCM.counter_crypt rks nonce data) = data.
Proof.
  unfold GCM.counter_crypt at 1. rewrite length_counter_crypt.
  apply xor_bytes_involutive.
Qed.

(** Opening what was sealed under the same round keys and nonce gives the
    plaintext back. *)
Lemma Open_Seal rks nonce plaintext :
  GCM.Open rks nonce (GCM.Seal rks [] nonce plaintext) = Some plaintext.
Proof.
  unfold GCM.Open, GCM.Seal. rewrite List.app_nil_l.
  set (ct := GCM.counter_crypt rks nonce plaintext).
  assert (Hlen : length (ct ++ GCM.auth rks nonce ct) = (length ct + GCM.TagSize)%nat).
  { rewrite List.length_app, length_auth. reflexivity. }
  rewrite Hlen.
  replace (length ct + GCM.TagSize <? GCM.TagSize)%nat with false
    by (symmetry; apply Nat.ltb_ge; lia).
  replace (length ct + GCM.TagSize - GCM.TagSize)%nat with (length ct) by lia.
  rewrite List.skipn_app, List.skipn_all, Nat.sub_diag, List.skipn_O.
  rewrite List.firstn_app, List.firstn_all, Nat.sub_diag, List.firstn_O.
  rewrite List.app_nil_l, List.app_nil_r.
  replace (ConstantTimeCompare (GCM.auth rks nonce ct) (GCM.auth rks nonce ct))
    with true by (symmetry; now apply ConstantTimeCompare_eq).
  unfold ct. now rewrite counter_crypt_involutive.
Qed.

Lemma Seal_app rks dst nonce plaintext :
  GCM.Seal rks dst nonce plaintext = dst ++ GCM.Seal rks [] nonce plaintext.
Proof. reflexivity. Qed.

Lemma length_ReadFull r n : length (ReadFull r n).1 = n.
Proof. unfold ReadFull. simpl. now rewrite List.length_map, List.length_seq. Qed.

Lemma NewCipher_32 key :
  length key = 32%nat -> NewCipher key = inl (AES.expand_key key).
Proof. intros Hk. unfold NewCipher. now rewrite Hk. Qed.

(** Decrypting [nonce ++ Seal] under the sealing key. *)
Lemma decryptWithKey_sealed key nonce plaintext :
  length nonce = GCM.NonceSize ->
  (exists rks, NewCipher key = inl rks) ->
  forall rks, NewCipher key = inl rks ->
  decryptWithKey (GCM.Seal rks nonce nonce (bytes_of_string plaintext)) key
  = (plaintext, None).
Proof.
  intros Hn _ rks Hk. unfold decryptWithKey. rewrite Hk.
  rewrite Seal_app.
  rewrite List.length_app, Hn.
  replace (GCM.NonceSize + _ <? GCM.NonceSize)%nat with false
    by (symmetry; apply Nat.ltb_ge; lia).
  rewrite <- Hn at 1 2.
  rewrite List.firstn_app, List.firstn_all, Nat.sub_diag, List.firstn_O.
  rewrite List.app_nil_r.
  rewrite List.skipn_app, List.skipn_all, Nat.sub_diag, List.skipn_O.
  rewrite List.app_nil_l, Open_Seal. now rewrite string_of_bytes_of_string.
Qed.

(** With a 32-byte key, [encryptWithKey] succeeds, consumes one nonce from
    the random source and returns a blob that decrypts to the plaintext. *)
Lemma encryptWithKey_ok (P : string) (K : bytes) (r : RandReader) :
  length K = 32%nat ->
  exists blob,
    encryptWithKey P K r = ((blob, None), (ReadFull r GCM.NonceSize).2) /\
    blob = GCM.Seal (AES.expand_key K) (ReadFull r GCM.NonceSize).1
                    (ReadFull r GCM.NonceSize).1 (bytes_of_string P) /\
    decryptWithKey blob K = (P, None).
Proof.
  intros HK. unfold encryptWithKey.
  rewrite (NewCipher_32 K HK).
  destruct (ReadFull r GCM.NonceSize) as [nonce r'] eqn:Hread.
  eexists. split; [reflexivity|]. split; [reflexivity|]. cbn [fst].
  apply decryptWithKey_sealed.
  - pose proof (length_ReadFull r GCM.NonceSize) as Hl. now rewrite Hread in Hl.
  - eexists. now apply NewCipher_32.
  - now apply NewCipher_32.
Qed.

(** C1: for every plaintext [P], every 32-byte key [K] and every state of
    the random source (hence every fresh nonce), [encryptWithKey] succeeds
    and [decryptWithKey] of its blob under [K] returns exactly [P]. *)
Theorem encrypt_decrypt_roundtrip (P : string) (K : bytes) (r : RandReader) :
  length K = 32%nat ->
  exists blob r',
    encryptWithKey P K r = ((blob, None), r') /\
    decryptWithKey blob K = (P, None).
Proof.
  intros HK. destruct (encryptWithKey_ok P K r HK) as (blob & Henc & _ & Hdec).
  eauto.
Qed.

Lemma encrypt_decrypt_roundtrip_witness :
  length (repeat 7 32%nat) = 32%nat /\
  exists blob r',
    encryptWithKey "secret" (repeat 7 32%nat) (rand_of [1; 2; 3]) = ((blob, None), r') /\
    decryptWithKey blob (repeat 7 32%nat) = ("secret"%string, None).
Proof.
  split; [reflexivity|].
  apply (encrypt_decrypt_roundtrip "secret" (repeat 7 32%nat) (rand_of [1; 2; 3])).
  reflexivity.
Defined.

(** ** Failure of [decryptWithKey] *)

(** [Open] returns the decrypted ciphertext when the tag verifies, and
    nothing otherwise. *)
Lemma Open_cases rks nonce c :
  ((GCM.TagSize <= length c)%nat /\
   GCM.auth rks nonce (firstn (length c - GCM.TagSize) c)
   = skipn (length c - GCM.TagSize) c /\
   GCM.Open rks nonce c
   = Some (GCM.counter_crypt rks nonce (firstn (length c - GCM.TagSize) c)))
  \/
  (~ ((GCM.TagSize <= length c)%nat /\
      GCM.auth rks nonce (firstn (length c - GCM.TagSize) c)
      = skipn (length c - GCM.TagSize) c) /\
   GCM.Open rks nonce c = None).
Proof.
  unfold GCM.Open.
  destruct (length c <? GCM.TagSize)%nat eqn:Hlt.
  - apply Nat.ltb_lt in Hlt. right. split; [|reflexivity]. intros [Hle _]. lia.
  - apply Nat.ltb_ge in Hlt.
    destruct (ConstantTimeCompare _ _) eqn:Hc.
    + apply ConstantTimeCompare_eq in Hc. left. now repeat split.
    + right. split; [|reflexivity]. intros [_ Heq].
      apply ConstantTimeCompare_eq in Heq. congruence.
Qed.

(** Under a usable key, decryption either fails with an empty result, on a
    blob shorter than a nonce or not authentic, or succeeds on an authentic
    blob. *)
Lemma decryptWithKey_cases blob key rks :
  NewCipher key = inl rks ->
  ((length blob < GCM.NonceSize)%nat /\
   decryptWithKey blob key = (EmptyString, Some (errorString "ciphertext too short")))
  \/ ((GCM.NonceSize <= length blob)%nat /\ ~ authentic rks blob /\
      decryptWithKey blob key = (EmptyString, Some errOpen))
  \/ ((GCM.NonceSize <= length blob)%nat /\ authentic rks blob /\
      (decryptWithKey blob key).2 = None).
Proof.
  intros Hk. unfold decryptWithKey. rewrite Hk.
  destruct (length blob <? GCM.NonceSize)%nat eqn:Hlt.
  - apply Nat.ltb_lt in Hlt. left. now split.
  - apply Nat.ltb_ge in Hlt. right.
    destruct (Open_cases rks (firstn GCM.NonceSize blob) (skipn GCM.NonceSize blob))
      as [(Hle & Htag & ->) | (Hno & ->)].
    + right. split; [exact Hlt|]. split; [|reflexivity]. now split.
    + left. split; [exact Hlt|]. split; [|reflexivity]. exact Hno.
Qed.

Lemma decryptWithKey_bad_key blob key err :
  NewCipher key = inr err -> decryptWithKey blob key = (EmptyString, Some err).
Proof. intros Hk. unfold decryptWithKey. now rewrite Hk. Qed.

(** Whatever the inputs, an error comes with the empty string. *)
Lemma decryptWithKey_error_empty blob key e :
  (decryptWithKey blob key).2 = Some e -> (decryptWithKey blob key).1 = EmptyString.
Proof.
  destruct (NewCipher key) as [rks|err] eqn:Hk.
  - destruct (decryptWithKey_cases blob key rks Hk)
      as [(_ & ->) | [(_ & _ & ->) | (_ & _ & Hok)]];
      [reflexivity | reflexivity | congruence].
  - now rewrite (decryptWithKey_bad_key blob key err Hk).
Qed.

Lemma sealed_parts rks nonce plaintext :
  length nonce = GCM.NonceSize ->
  let blob := GCM.Seal rks nonce nonce plaintext in
  let ct := GCM.counter_crypt rks nonce plaintext in
  nonce_of blob = nonce /\
  sealed_of blob = ct ++ GCM.auth rks nonce ct /\
  firstn (length (sealed_of blob) - GCM.TagSize) (sealed_of blob) = ct /\
  skipn (length (sealed_of blob) - GCM.TagSize) (sealed_of blob) = GCM.auth rks nonce ct.
Proof.
  intros Hn blob ct. unfold nonce_of, sealed_of, blob, GCM.Seal. fold ct.
  rewrite <- Hn.
  rewrite List.firstn_app, List.firstn_all, Nat.sub_diag, List.firstn_O, List.app_nil_r.
  rewrite List.skipn_app, List.skipn_all, Nat.sub_diag, List.skipn_O, List.app_nil_l.
  rewrite List.length_app, length_auth.
  replace (length ct + GCM.TagSize - GCM.TagSize)%nat with (length ct) by lia.
  rewrite List.firstn_app, List.firstn_all, Nat.sub_diag, List.firstn_O, List.app_nil_r.
  rewrite List.skipn_app, List.skipn_all, Nat.sub_diag, List.skipn_O, List.app_nil_l.
  repeat split; reflexivity.
Qed.

(** A blob sealed under [rks1] is authentic under [rks2] exactly when both
    give its ciphertext the same tag. *)
Lemma sealed_authentic_iff rks1 rks2 nonce plaintext :
  length nonce = GCM.NonceSize ->
  let ct := GCM.counter_crypt rks1 nonce plaintext in
  authentic rks2 (GCM.Seal rks1 nonce nonce plaintext) <->
  GCM.auth rks2 nonce ct = GCM.auth rks1 nonce ct.
Proof.
  intros Hn ct. unfold authentic.
  destruct (sealed_parts rks1 nonce plaintext Hn) as (Hnonce & Hsealed & Hct & Htag).
  cbv zeta. rewrite Hnonce, Hct, Htag. fold ct. split.
  - intros [_ Heq]. exact Heq.
  - intros Heq. split; [|exact Heq].
    rewrite Hsealed, List.length_app, length_auth. lia.
Qed.

(** C2, as the code has it: for every blob and key, [decryptWithKey] fails
    with an error and the empty string whenever the blob is shorter than one
    nonce or is not authentic under the key.  Decrypting what
    [encryptWithKey] sealed under [K1] with another 32-byte key [K2] fails
    with the authentication error exactly when [K2] gives the ciphertext a
    tag other than the one sealed under [K1]; when the two tags coincide it
    succeeds. *)
Theorem decryptWithKey_failure :
  (forall blob key : bytes,
     (length blob < GCM.NonceSize)%nat \/
     (forall rks, NewCipher key = inl rks -> ~ authentic rks blob) ->
     exists e, decryptWithKey blob key = (EmptyString, Some e)) /\
  (forall (P : string) (K1 K2 : bytes) (r : RandReader),
     length K1 = 32%nat -> length K2 = 32%nat ->
     let nonce := (ReadFull r GCM.NonceSize).1 in
     let ct := GCM.counter_crypt (AES.expand_key K1) nonce (bytes_of_string P) in
     let blob := (encryptWithKey P K1 r).1.1 in
     (GCM.auth (AES.expand_key K2) nonce ct <> GCM.auth (AES.expand_key K1) nonce ct ->
      decryptWithKey blob K2 = (EmptyString, Some errOpen)) /\
     (GCM.auth (AES.expand_key K2) nonce ct = GCM.auth (AES.expand_key K1) nonce ct ->
      (decryptWithKey blob K2).2 = None)).
Proof.
  split.
  - intros blob key Hfail.
    destruct (NewCipher key) as [rks|err] eqn:Hk.
    + destruct (decryptWithKey_cases blob key rks Hk)
        as [(_ & ->) | [(_ & _ & ->) | (Hle & Hauth & _)]]; [eauto | eauto |].
      destruct Hfail as [Hshort | Hno]; [lia|].
      exfalso. exact (Hno rks eq_refl Hauth).
    + exists err. now apply decryptWithKey_bad_key.
  - intros P K1 K2 r HK1 HK2 nonce ct blob.
    assert (Hn : length nonce = GCM.NonceSize) by apply length_ReadFull.
    assert (Hblob : blob = GCM.Seal (AES.expand_key K1) nonce nonce (bytes_of_string P)).
    { unfold blob, encryptWithKey. rewrite (NewCipher_32 K1 HK1).
      unfold nonce. now destruct (ReadFull r GCM.NonceSize). }
    pose proof (sealed_authentic_iff (AES.expand_key K1) (AES.expand_key K2)
                  nonce (bytes_of_string P) Hn) as Hiff.
    cbv zeta in Hiff. fold ct in Hiff. rewrite <- Hblob in Hiff.
    destruct (decryptWithKey_cases blob K2 _ (NewCipher_32 K2 HK2))
      as [(Hshort & _) | [(_ & Hno & Herr) | (_ & Hauth & Hok)]].
    + exfalso. rewrite Hblob in Hshort. unfold GCM.Seal in Hshort.
      rewrite List.length_app in Hshort. lia.
    + split; [intros _; exact Herr|]. intros Heq. exfalso. apply Hno. now apply Hiff.
    + split; [|intros _; exact Hok]. intros Hne. exfalso. apply Hne. now apply Hiff.
Qed.

Lemma decryptWithKey_failure_witness :
  ((length [1; 2; 3] < GCM.NonceSize)%nat \/
   (forall rks, NewCipher (repeat 0 32%nat) = inl rks -> ~ authentic rks [1; 2; 3])) /\
  (exists e, decryptWithKey [1; 2; 3] (repeat 0 32%nat) = (EmptyString, Some e)) /\
  length (repeat 7 32%nat) = 32%nat /\ length (repeat 9 32%nat) = 32%nat /\
  decryptWithKey (encryptWithKey "secret" (repeat 7 32%nat) (rand_of [1; 2; 3])).1.1
                 (repeat 9 32%nat)
  = (EmptyString, Some errOpen).
Proof.
  split; [left; vm_compute; lia|].
  split; [apply (proj1 decryptWithKey_failure); left; vm_compute; lia|].
  split; [reflexivity|]. split; [reflexivity|].
  apply (proj2 decryptWithKey_failure "secret" (repeat 7 32%nat) (repeat 9 32%nat)
           (rand_of [1; 2; 3]) eq_refl eq_refl).
  vm_compute. discriminate.
Defined.

(** The tag of the colliding ciphertext is the same under both keys. *)
Example collision_tags_agree :
  GCM.auth (AES.expand_key collision_key1) (repeat 0 12%nat)
    (GCM.counter_crypt (AES.expand_key collision_key1) (repeat 0 12%nat)
       (bytes_of_string collision_password))
  = GCM.auth (AES.expand_key collision_key2) (repeat 0 12%nat)
      (GCM.counter_crypt (AES.expand_key collision_key1) (repeat 0 12%nat)
         (bytes_of_string collision_password)).
Proof. vm_compute. reflexivity. Qed.

(** C2 as stated does not hold: the two keys below differ, yet the blob that
    [encryptWithKey] produces for this password under the first key, with
    this nonce, is opened without error by [decryptWithKey] under the second
    key. *)
Lemma wrong_key_accepted :
  collision_key1 <> collision_key2 /\
  length collision_key1 = 32%nat /\ length collision_key2 = 32%nat /\
  (encryptWithKey collision_password collision_key1 collision_rand).1.2 = None /\
  decryptWithKey
    (encryptWithKey collision_password collision_key1 collision_rand).1.1
    collision_key2
  = (collision_opened, None).
Proof.
  split; [discriminate|]. split; [reflexivity|]. split; [reflexivity|].
  split; vm_compute; reflexivity.
Qed.

(** ** Regular expressions: the matcher decides the language *)

Lemma append_nil_inv (s1 s2 : string) :
  (s1 ++ s2)%string = EmptyString -> s1 = EmptyString /\ s2 = EmptyString.
Proof. destruct s1; simpl; [auto | discriminate]. Qed.

Lemma append_cons_inv (c : ascii) (s s1 s2 : string) :
  String c s = (s1 ++ s2)%string ->
  (s1 = EmptyString /\ s2 = String c s) \/
  (exists s1', s1 = String c s1' /\ s = (s1' ++ s2)%string).
Proof.
  destruct s1 as [|c1 s1']; simpl; intros Heq.
  - left. auto.
  - right. injection Heq as -> ->. eauto.
Qed.

Lemma nullable_lang (r : regex) : nullable r = true <-> lang r EmptyString.
Proof.
  split.
  - induction r as [| |f|r1 IH1 r2 IH2|r1 IH1 r2 IH2|r IH]; simpl; intros Hn;
      try discriminate.
    + constructor.
    + apply andb_true_iff in Hn as [H1 H2].
      change EmptyString with (EmptyString ++ EmptyString)%string.
      constructor; auto.
    + apply orb_true_iff in Hn as [H1 | H2];
        [apply lang_alt_l | apply lang_alt_r]; auto.
    + constructor.
  - intros Hl. remember EmptyString as s eqn:Hs.
    induction Hl as [|f c Hf|r1 r2 s1 s2 H1 IH1 H2 IH2|r1 r2 s H1 IH1
                    |r1 r2 s H2 IH2|r|r s1 s2 H1 IH1 H2 IH2]; simpl;
      try reflexivity; try discriminate.
    + apply append_nil_inv in Hs as [-> ->]. now rewrite IH1, IH2.
    + rewrite IH1; auto.
    + rewrite IH2; auto. apply orb_true_r.
Qed.

(** A non-empty word of [Star r] starts with a non-empty word of [r]. *)
Lemma lang_star_cons_inv (r : regex) (c : ascii) (s : string) :
  lang (Star r) (String c s) ->
  exists s1 s2, s = (s1 ++ s2)%string /\ lang r (String c s1) /\ lang (Star r) s2.
Proof.
  intros Hl. remember (Star r) as r0 eqn:Hr. remember (String c s) as w eqn:Hw.
  revert Hr Hw.
  induction Hl as [|f c0 Hf|r1 r2 s1 s2 H1 IH1 H2 IH2|r1 r2 s0 H1 IH1
                  |r1 r2 s0 H2 IH2|r1|r1 s1 s2 H1 IH1 H2 IH2];
    intros Hr Hw; try discriminate.
  injection Hr as ->. symmetry in Hw.
  apply append_cons_inv in Hw as [[-> ->] | (s1' & -> & ->)].
  - now apply IH2.
  - eauto.
Qed.

Lemma deriv_lang (r : regex) (c : ascii) (s : string) :
  lang (deriv c r) s <-> lang r (String c s).
Proof.
  revert s.
  induction r as [| |f|r1 IH1 r2 IH2|r1 IH1 r2 IH2|r IH]; intros s; simpl.
  - split; intros Hl; inversion Hl.
  - split; intros Hl; inversion Hl.
  - destruct (f c) eqn:Hf; split; intros Hl.
    + inversion Hl; subst. now constructor.
    + inversion Hl; subst. constructor.
    + inversion Hl.
    + inversion Hl; subst. congruence.
  - destruct (nullable r1) eqn:Hn1.
    + split; intros Hl.
      * inversion Hl as [| | |? ? ? Hc|? ? ? Hd| |]; subst.
        -- inversion Hc as [| |? ? s1 s2 Ha Hb| | | |]; subst.
           apply IH1 in Ha.
           change (String c (s1 ++ s2)) with (String c s1 ++ s2)%string.
           now constructor.
        -- apply IH2 in Hd.
           change (String c s) with (EmptyString ++ String c s)%string.
           constructor; [now apply nullable_lang | exact Hd].
      * inversion Hl as [| |? ? s1 s2 Ha Hb Hr Hw| | | |]; subst.
        symmetry in Hw.
        apply append_cons_inv in Hw as [[-> ->] | (s1' & -> & ->)].
        -- apply lang_alt_r. now apply IH2.
        -- apply lang_alt_l. constructor; [now apply IH1 | exact Hb].
    + split; intros Hl.
      * inversion Hl as [| |? ? s1 s2 Ha Hb| | | |]; subst.
        apply IH1 in Ha.
        change (String c (s1 ++ s2)) with (String c s1 ++ s2)%string.
        now constructor.
      * inversion Hl as [| |? ? s1 s2 Ha Hb Hr Hw| | | |]; subst.
        symmetry in Hw.
        apply append_cons_inv in Hw as [[-> ->] | (s1' & -> & ->)].
        -- apply nullable_lang in Ha. congruence.
        -- constructor; [now apply IH1 | exact Hb].
  - split; intros Hl; inversion Hl; subst;
      try (apply lang_alt_l; now apply IH1);
      try (apply lang_alt_r; now apply IH2).
  - split; intros Hl.
    + inversion Hl as [| |? ? s1 s2 Ha Hb| | | |]; subst.
      apply IH in Ha.
      change (String c (s1 ++ s2)) with (String c s1 ++ s2)%string.
      now constructor.
    + apply lang_star_cons_inv in Hl as (s1 & s2 & -> & Ha & Hb).
      constructor; [now apply IH | exact Hb].
Qed.

Theorem MatchString_lang (r : regex) (s : string) :
  MatchString r s = true <-> lang r s.
Proof.
  revert r. induction s as [|c s IH]; intros r; simpl.
  - apply nullable_lang.
  - rewrite IH. apply deriv_lang.
Qed.

(** ** Peer names *)

Lemma class_alpha_spec (c : ascii) : class_alpha c = true <-> is_letter c.
Proof.
  unfold class_alpha, is_letter, in_range, nat_of_ascii.
  change (N_of_ascii "a") with 97%N. change (N_of_ascii "z") with 122%N.
  change (N_of_ascii "A") with 65%N. change (N_of_ascii "Z") with 90%N.
  rewrite orb_true_iff, !andb_true_iff, !N.leb_le. lia.
Qed.

Lemma class_name_spec (c : ascii) : class_name c = true <-> is_name_char c.
Proof.
  unfold class_name, is_name_char, is_letter, is_digit, in_range, nat_of_ascii.
  change (N_of_ascii "a") with 97%N. change (N_of_ascii "z") with 122%N.
  change (N_of_ascii "A") with 65%N. change (N_of_ascii "Z") with 90%N.
  change (N_of_ascii "0") with 48%N. change (N_of_ascii "9") with 57%N.
  rewrite !orb_true_iff, !andb_true_iff, !N.leb_le, !Ascii.eqb_eq. intuition lia.
Qed.

Lemma lang_class_inv f s :
  lang (Class f) s -> exists c, s = String c EmptyString /\ f c = true.
Proof. intros Hl. inversion Hl; subst. eauto. Qed.

Lemma lang_star_class (f : ascii -> bool) (s : string) :
  lang (Star (Class f)) s <->
  Forall (fun c => f c = true) (list_ascii_of_string s).
Proof.
  induction s as [|c s IH]; simpl.
  - split; intros _; constructor.
  - split.
    + intros Hl. apply lang_star_cons_inv in Hl as (s1 & s2 & -> & Ha & Hb).
      apply lang_class_inv in Ha as (c' & Heq & Hf).
      injection Heq as -> ->. constructor; [exact Hf|]. now apply IH.
    + intros Hall. inversion Hall as [|? ? Hf Hrest]; subst.
      change (String c s) with (String c EmptyString ++ s)%string.
      constructor; [now constructor | now apply IH].
Qed.

(** The words of [validPeerNameRegex]. *)
Lemma lang_validPeerNameRegex (s : string) :
  lang validPeerNameRegex s <->
  match s with
  | EmptyString => False
  | String c rest => is_letter c /\ Forall is_name_char (list_ascii_of_string rest)
  end.
Proof.
  unfold validPeerNameRegex. split.
  - intros Hl. inversion Hl as [| |? ? s1 s2 Ha Hb| | | |]; subst.
    apply lang_class_inv in Ha as (c & -> & Hc).
    change (String c EmptyString ++ s2)%string with (String c s2).
    split; [now apply class_alpha_spec|].
    apply lang_star_class in Hb.
    eapply List.Forall_impl; [|exact Hb]. intros a. apply class_name_spec.
  - destruct s as [|c rest]; [intros []|]. intros [Hc Hrest].
    change (String c rest) with (String c EmptyString ++ rest)%string.
    constructor.
    + constructor. now apply class_alpha_spec.
    + apply lang_star_class.
      eapply List.Forall_impl; [|exact Hrest]. intros a. apply class_name_spec.
Qed.

Lemma validatePeerName_None_iff (s : string) :
  validatePeerName s = None <->
  s <> EmptyString /\ (String.length s <= 64)%nat /\
  MatchString validPeerNameRegex s = true.
Proof.
  unfold validatePeerName.
  destruct (String.eqb s "") eqn:He.
  - apply String.eqb_eq in He. split; [discriminate | tauto].
  - apply String.eqb_neq in He.
    destruct (64 <? String.length s)%nat eqn:Hl.
    + apply Nat.ltb_lt in Hl. split; [discriminate | lia].
    + apply Nat.ltb_ge in Hl.
      destruct (MatchString validPeerNameRegex s); simpl.
      * tauto.
      * split; [discriminate|]. intros (_ & _ & Hf). discriminate.
Qed.

(** Validation accepts exactly the well-formed names. *)
Lemma validatePeerName_well_formed (s : string) :
  validatePeerName s = None <-> well_formed_name s.
Proof.
  rewrite validatePeerName_None_iff, MatchString_lang, lang_validPeerNameRegex.
  unfold well_formed_name. destruct s as [|c rest]; simpl; [tauto|].
  split.
  - intros (_ & Hlen & Hc & Hrest). repeat split; auto; lia.
  - intros ((Hc & Hrest) & _ & Hlen). repeat split; auto; discriminate.
Qed.

Lemma AddFederationPeer_invalid_name `{RemoteAdapter R} (s : DoltStore R)
    (peer : storage.FederationPeer) (r : RandReader) :
  validatePeerName (storage.Name peer) <> None ->
  exists e, AddFederationPeer s peer r = ((s, r), Some e) /\ ValidationError e.
Proof.
  intros Hbad. unfold AddFederationPeer.
  destruct (validatePeerName (storage.Name peer)) as [err|]; [|congruence].
  eexists. split; [reflexivity|]. now exists err.
Qed.

(** C6: validation accepts a name if and only if it starts with a letter,
    continues with letters, digits, hyphens or underscores and has 1 to 64
    characters; "bot1" is accepted, "1bot", every 65-character name and the
    empty name are rejected; and [AddFederationPeer] fails with a validation
    error, leaving the store as it was, on every rejected name. *)
Theorem validatePeerName_spec :
  (forall s, validatePeerName s = None <-> well_formed_name s) /\
  validatePeerName "bot1" = None /\
  validatePeerName "1bot" <> None /\
  (forall s, String.length s = 65%nat -> validatePeerName s <> None) /\
  validatePeerName "" <> None /\
  (forall (R : Type) (A : RemoteAdapter R) (s : DoltStore R)
          (peer : storage.FederationPeer) (r : RandReader),
     ~ well_formed_name (storage.Name peer) ->
     exists e, AddFederationPeer s peer r = ((s, r), Some e) /\ ValidationError e).
Proof.
  split; [exact validatePeerName_well_formed|].
  split; [reflexivity|].
  split; [discriminate|].
  split.
  { intros s Hlen Hok. apply validatePeerName_None_iff in Hok as (_ & Hle & _). lia. }
  split; [discriminate|].
  intros R A s peer r Hbad. apply AddFederationPeer_invalid_name.
  intros Hok. apply Hbad. now apply validatePeerName_well_formed.
Qed.

Lemma validatePeerName_spec_witness :
  ~ well_formed_name (storage.Name (peer_of "1bot" "https://x/y" "" "")) /\
  exists e,
    AddFederationPeer (empty_store "/data" None) (peer_of "1bot" "https://x/y" "" "")
                      (rand_of [1])
    = ((empty_store "/data" None, rand_of [1]), Some e) /\ ValidationError e.
Proof.
  assert (Hbad : ~ well_formed_name (storage.Name (peer_of "1bot" "https://x/y" "" ""))).
  { intros Hwf. apply (proj1 validatePeerName_spec) in Hwf. discriminate Hwf. }
  split; [exact Hbad|].
  exact (proj2 (proj2 (proj2 (proj2 (proj2 validatePeerName_spec)))) _ _
           (empty_store "/data" None) (peer_of "1bot" "https://x/y" "" "")
           (rand_of [1]) Hbad).
Defined.

(** ** Passwords in the store *)

Section StoreFacts.

Context {R : Type} `{RemoteAdapter R}.

Lemma encryptPassword_empty (s : DoltStore R) (r : RandReader) :
  encryptPassword s "" r = (([], None), r).
Proof. reflexivity. Qed.

Lemma decryptPassword_empty (s : DoltStore R) :
  decryptPassword s [] = (EmptyString, None).
Proof. reflexivity. Qed.

(** A row without ciphertext scans to a peer with the empty password,
    whatever the key of the store. *)
Lemma scan_peer_no_ciphertext (s : DoltStore R) (name : string) (row : PeerRow) :
  password_encrypted row = None \/ password_encrypted row = Some [] ->
  scan_peer s name row = (Some (row_peer name row EmptyString), None).
Proof. intros [Hpw | Hpw]; unfold scan_peer; now rewrite Hpw. Qed.

Lemma GetFederationPeer_row (s : DoltStore R) (name : string) d tbl row :
  db s = Some d -> federation_peers d = Some tbl -> tbl !! name = Some row ->
  GetFederationPeer s name = Returns (scan_peer s name row).
Proof. intros Hdb Htbl Hrow. unfold GetFederationPeer. now rewrite Hdb, Htbl, Hrow. Qed.

Lemma scan_peers_no_ciphertext (s : DoltStore R) (rows : list (string * PeerRow))
    (acc : list storage.FederationPeer) :
  Forall (fun nr : string * PeerRow =>
            password_encrypted nr.2 = None \/ password_encrypted nr.2 = Some []) rows ->
  scan_peers s rows acc
  = (acc ++ List.map (fun nr : string * PeerRow => row_peer nr.1 nr.2 EmptyString) rows,
     None).
Proof.
  revert acc. induction rows as [|[name row] rows IH]; intros acc Hall; simpl.
  - now rewrite List.app_nil_r.
  - inversion Hall as [|? ? Hrow Hrest]; subst. simpl in Hrow.
    rewrite (scan_peer_no_ciphertext s name row Hrow), (IH _ Hrest).
    now rewrite <- List.app_assoc.
Qed.

(** What a successful [AddFederationPeer] leaves in the table. *)
Lemma AddFederationPeer_ok (s s' : DoltStore R) (peer : storage.FederationPeer)
    (r r' : RandReader) :
  AddFederationPeer s peer r = ((s', r'), None) ->
  exists d tbl enc,
    db s = Some d /\ federation_peers d = Some tbl /\
    (if negb (String.eqb (storage.Password peer) "")
     then encryptPassword s (storage.Password peer) r
     else (([], None), r)) = ((enc, None), r') /\
    db s' = Some (mkDatabase (Some (upsert_peer peer enc (clock d) tbl)) (clock d)) /\
    credentialKey s' = credentialKey s /\ dbPath s' = dbPath s.
Proof.
  unfold AddFederationPeer.
  destruct (validatePeerName (storage.Name peer)); [discriminate|].
  destruct (if negb (String.eqb (storage.Password peer) "") then _ else _)
    as [[enc [e|]] r1] eqn:Henc; [discriminate|].
  unfold exec_on_peers.
  destruct (db s) as [d|] eqn:Hdb; [|discriminate].
  destruct (federation_peers d) as [tbl|] eqn:Htbl; [|discriminate].
  cbn [remotes set_db].
  destruct (AddRemote _ _ _) as [rs [e|]].
  - destruct (negb (Contains (Error e) "already exists")); [discriminate|].
    intros Heq. injection Heq as <- <-. exists d, tbl, enc. now repeat split.
  - intros Heq. injection Heq as <- <-. exists d, tbl, enc. now repeat split.
Qed.

Lemma upsert_peer_lookup (peer : storage.FederationPeer) (enc : bytes) (now : Z)
    (tbl : gmap string PeerRow) :
  exists row, upsert_peer peer enc now tbl !! storage.Name peer = Some row /\
              password_encrypted row = blob_arg enc.
Proof.
  unfold upsert_peer. destruct (tbl !! storage.Name peer);
    eexists; (split; [apply lookup_insert_eq | reflexivity]).
Qed.

End StoreFacts.

(** C5: encrypting the empty password yields no blob; a peer stored with the
    empty password has no ciphertext in its row (SQL NULL, not a sealed empty
    string), and reading it back yields the password "". *)
Theorem empty_password_is_absent :
  (forall (R : Type) (A : RemoteAdapter R) (s : DoltStore R) (r : RandReader),
     encryptPassword s "" r = (([], None), r)) /\
  (forall (R : Type) (A : RemoteAdapter R) (s s' : DoltStore R)
          (peer : storage.FederationPeer) (r r' : RandReader),
     storage.Password peer = EmptyString ->
     AddFederationPeer s peer r = ((s', r'), None) ->
     (exists d tbl row,
        db s' = Some d /\ federation_peers d = Some tbl /\
        tbl !! storage.Name peer = Some row /\ password_encrypted row = None) /\
     (exists p, GetFederationPeer s' (storage.Name peer) = Returns (Some p, None) /\
                storage.Password p = EmptyString)).
Proof.
  split; [intros; apply encryptPassword_empty|].
  intros R A s s' peer r r' Hpw Hadd.
  apply AddFederationPeer_ok in Hadd
    as (d & tbl & enc & Hdb & Htbl & Henc & Hdb' & _ & _).
  rewrite Hpw in Henc. cbn in Henc. injection Henc as <- <-.
  destruct (upsert_peer_lookup peer [] (clock d) tbl) as (row & Hrow & Hnull).
  split.
  - eexists _, _, row. repeat split; [exact Hdb' | reflexivity | exact Hrow | exact Hnull].
  - exists (row_peer (storage.Name peer) row EmptyString). split; [|reflexivity].
    rewrite (GetFederationPeer_row s' _ _ _ row Hdb' eq_refl Hrow). f_equal.
    apply scan_peer_no_ciphertext. now left.
Qed.

Lemma empty_password_is_absent_witness :
  storage.Password (peer_of "origin" "https://x/y" "bob" "") = EmptyString /\
  exists s',
    AddFederationPeer (empty_store "/data" None) (peer_of "origin" "https://x/y" "bob" "")
                      (rand_of [1]) = ((s', rand_of [1]), None) /\
    exists p, GetFederationPeer s' "origin" = Returns (Some p, None) /\
              storage.Password p = EmptyString.
Proof.
  split; [reflexivity|].
  eexists. split; [vm_compute; reflexivity|].
  eapply (proj2 empty_password_is_absent _ _ (empty_store "/data" None) _
            (peer_of "origin" "https://x/y" "bob" "") (rand_of [1]) (rand_of [1])
            eq_refl).
  vm_compute. reflexivity.
Defined.

(** ** A store without a data directory *)

Lemma initCredentialKey_no_path `{RemoteAdapter R} `{FileSystem F} (s : DoltStore R)
    (fs : F) (r : RandReader) :
  dbPath s = EmptyString -> initCredentialKey s fs r = ((s, fs, r), None).
Proof. intros Hp. unfold initCredentialKey. now rewrite Hp. Qed.

Lemma AddFederationPeer_no_key `{RemoteAdapter R} (s : DoltStore R)
    (peer : storage.FederationPeer) (r : RandReader) :
  credentialKey s = None ->
  validatePeerName (storage.Name peer) = None ->
  storage.Password peer <> EmptyString ->
  AddFederationPeer s peer r
  = ((s, r),
     Some (wrapError "failed to encrypt password: "
             (errorString "credential encryption key not initialized") "")).
Proof.
  intros Hkey Hname Hpw. unfold AddFederationPeer, encryptPassword.
  rewrite Hname, Hkey.
  apply String.eqb_neq in Hpw. now rewrite Hpw.
Qed.

(** C9, as the code has it: with an empty [dbPath] the key initialisation
    succeeds without error, touches neither the file system nor the random
    source and changes nothing, so a store whose key was not set stays
    without a key; storing a peer with a well-formed name and a non-empty
    password then fails with exactly the crypto error "failed to encrypt
    password: credential encryption key not initialized" and leaves the
    store as it was. *)
Theorem no_data_directory_no_encryption (R : Type) (A : RemoteAdapter R)
    (F : Type) (O : FileSystem F)
    (s : DoltStore R) (fs : F) (r : RandReader)
    (peer : storage.FederationPeer) :
  dbPath s = EmptyString ->
  credentialKey s = None ->
  well_formed_name (storage.Name peer) ->
  storage.Password peer <> EmptyString ->
  exists s1 e,
    initCredentialKey s fs r = ((s1, fs, r), None) /\
    s1 = s /\ credentialKey s1 = None /\
    AddFederationPeer s1 peer r = ((s1, r), Some e) /\
    e = wrapError "failed to encrypt password: "
          (errorString "credential encryption key not initialized") "" /\
    Error e
    = "failed to encrypt password: credential encryption key not initialized"%string /\
    CryptoError e.
Proof.
  intros Hpath Hkey Hname Hpw. exists s. eexists.
  split; [now apply initCredentialKey_no_path|].
  split; [reflexivity|]. split; [exact Hkey|].
  split; [apply AddFederationPeer_no_key; auto; now apply validatePeerName_well_formed|].
  split; [reflexivity|]. split; [reflexivity|].
  eexists. left. reflexivity.
Qed.

Lemma no_data_directory_no_encryption_witness :
  exists s1 e,
    initCredentialKey (empty_store "" None) empty_disk (rand_of [1])
    = ((s1, empty_disk, rand_of [1]), None) /\
    s1 = empty_store "" None /\ credentialKey s1 = None /\
    AddFederationPeer s1 (peer_of "origin" "https://x/y" "" "secret") (rand_of [1])
    = ((s1, rand_of [1]), Some e) /\
    Error e
    = "failed to encrypt password: credential encryption key not initialized"%string.
Proof.
  destruct (no_data_directory_no_encryption _ _ _ _ (empty_store "" None) empty_disk
              (rand_of [1]) (peer_of "origin" "https://x/y" "" "secret"))
    as (s1 & e & Hinit & Hs & Hkey & Hadd & _ & Herr & _).
  - reflexivity.
  - reflexivity.
  - apply validatePeerName_well_formed. reflexivity.
  - discriminate.
  - exists s1, e. repeat split; assumption.
Defined.

(** C9 as stated does not hold: in a store without a data directory, whose
    key initialisation has succeeded, storing the peer "origin" with the
    password "secret" fails on account of the uninitialised key, and nothing
    is written. *)
Lemma no_key_store_rejects_password :
  dbPath (empty_store "" None) = EmptyString /\
  initCredentialKey (empty_store "" None) empty_disk (rand_of [1])
  = ((empty_store "" None, empty_disk, rand_of [1]), None) /\
  AddFederationPeer (empty_store "" None)
                    (peer_of "origin" "https://x/y" "" "secret") (rand_of [1])
  = ((empty_store "" None, rand_of [1]),
     Some (wrapError "failed to encrypt password: "
             (errorString "credential encryption key not initialized") "")).
Proof. repeat split. Qed.

(** ** Reading peers that have no ciphertext *)

(** C10: in every store, also one whose key was never initialised,
    [decryptPassword] returns "" for an empty blob without consulting the
    key; [GetFederationPeer] of a peer whose stored blob is absent or empty
    succeeds with the password ""; and [ListFederationPeers] succeeds, with
    every password "", when no row has a ciphertext. *)
Theorem read_without_ciphertext (R : Type) (A : RemoteAdapter R)
    (s : DoltStore R) (d : Database) (tbl : gmap string PeerRow) :
  db s = Some d -> federation_peers d = Some tbl ->
  decryptPassword s [] = (EmptyString, None) /\
  (forall name row,
     tbl !! name = Some row ->
     password_encrypted row = None \/ password_encrypted row = Some [] ->
     exists p, GetFederationPeer s name = Returns (Some p, None) /\
               storage.Password p = EmptyString /\ storage.Name p = name) /\
  ((forall name row, tbl !! name = Some row ->
      password_encrypted row = None \/ password_encrypted row = Some []) ->
   exists peers, ListFederationPeers s = (peers, None) /\
                 length peers = size tbl /\
                 Forall (fun p => storage.Password p = EmptyString) peers).
Proof.
  intros Hdb Htbl. split; [reflexivity|]. split.
  - intros name row Hrow Hpw.
    exists (row_peer name row EmptyString). split; [|split; reflexivity].
    rewrite (GetFederationPeer_row s name d tbl row Hdb Htbl Hrow). f_equal.
    now apply scan_peer_no_ciphertext.
  - intros Hall. unfold ListFederationPeers. rewrite Hdb, Htbl.
    set (rows := merge_sort name_le (map_to_list tbl)).
    assert (Hperm : rows ≡ₚ map_to_list tbl) by apply merge_sort_Permutation.
    assert (Hrows : Forall (fun nr : string * PeerRow =>
                password_encrypted nr.2 = None \/ password_encrypted nr.2 = Some [])
              rows).
    { rewrite Hperm. apply Forall_forall. intros [name row] Hin.
      apply elem_of_map_to_list in Hin. simpl. eauto. }
    rewrite (scan_peers_no_ciphertext s rows [] Hrows).
    eexists. split; [reflexivity|]. split.
    + rewrite List.app_nil_l, List.length_map, Hperm. apply length_map_to_list.
    + rewrite List.app_nil_l. apply Forall_forall. intros p Hin.
      apply list_elem_of_In, List.in_map_iff in Hin as (nr & <- & _). reflexivity.
Qed.

Lemma read_without_ciphertext_witness :
  db keyless_store
  = Some (mkDatabase (Some {[ "origin" := row_without_password ]}) 1000) /\
  credentialKey keyless_store = None /\
  exists p, GetFederationPeer keyless_store "origin" = Returns (Some p, None) /\
            storage.Password p = EmptyString /\ storage.Name p = "origin".
Proof.
  split; [reflexivity|]. split; [reflexivity|].
  apply (proj1 (proj2 (read_without_ciphertext _ _ keyless_store
                         (mkDatabase (Some {[ "origin" := row_without_password ]}) 1000)
                         {[ "origin" := row_without_password ]} eq_refl eq_refl))
           "origin" row_without_password).
  - reflexivity.
  - left. reflexivity.
Defined.

(** ** Key migration *)

Lemma elem_of_fst_omap {A B C : Type} (f : A * B -> option (A * C))
    (l : list (A * B)) (z : A) :
  (forall x y, f x = Some y -> y.1 = x.1) ->
  z ∈ (omap f l).*1 -> z ∈ l.*1.
Proof.
  intros Hf Hin.
  apply list_elem_of_fmap in Hin as (y & -> & Hy).
  apply list_elem_of_omap in Hy as (x & Hx & Hfx).
  apply list_elem_of_fmap. exists x. split; [now apply Hf | exact Hx].
Qed.

Lemma NoDup_fst_omap {A B C : Type} (f : A * B -> option (A * C))
    (l : list (A * B)) :
  (forall x y, f x = Some y -> y.1 = x.1) ->
  NoDup (l.*1) -> NoDup ((omap f l).*1).
Proof.
  intros Hf. induction l as [|x l IH]; intros Hnd; [constructor|].
  cbn [omap list_omap fmap list_fmap] in *.
  apply NoDup_cons in Hnd as [Hx Hl].
  destruct (f x) as [y|] eqn:Hfx; [|now apply IH].
  cbn [fmap list_fmap]. apply NoDup_cons. split; [|now apply IH].
  rewrite (Hf x y Hfx). intros Hin. apply Hx.
  now apply (elem_of_fst_omap f).
Qed.

Lemma elem_of_select_encrypted (tbl : gmap string PeerRow) (name : string)
    (enc : bytes) :
  (name, enc) ∈ select_encrypted tbl <->
  exists row, tbl !! name = Some row /\ password_encrypted row = Some enc /\
              (0 < length enc)%nat.
Proof.
  unfold select_encrypted. rewrite list_elem_of_omap. split.
  - intros ([n row] & Hin & Hf). apply elem_of_map_to_list in Hin.
    cbn [fst snd] in Hf.
    destruct (password_encrypted row) as [e|] eqn:Hpw; [|discriminate].
    destruct (0 <? length e)%nat eqn:Hlen; [|discriminate].
    injection Hf as -> ->. apply Nat.ltb_lt in Hlen. eauto.
  - intros (row & Hrow & Hpw & Hlen). exists (name, row).
    split; [now apply elem_of_map_to_list|].
    cbn [fst snd]. rewrite Hpw.
    apply Nat.ltb_lt in Hlen. now rewrite Hlen.
Qed.

Lemma elem_of_collect_migration (oldKey : bytes) (tbl : gmap string PeerRow)
    (name plaintext : string) :
  (name, plaintext) ∈ collect_migration oldKey (select_encrypted tbl) <->
  exists row, tbl !! name = Some row /\ legacy_plaintext oldKey row = Some plaintext.
Proof.
  unfold collect_migration. rewrite list_elem_of_omap. split.
  - intros ([n enc] & Hin & Hf). cbn [fst snd] in Hf.
    apply elem_of_select_encrypted in Hin as (row & Hrow & Hpw & Hlen).
    destruct (decryptWithKey enc oldKey) as [pt [e|]] eqn:Hdec; [discriminate|].
    injection Hf as -> ->. exists row. split; [exact Hrow|].
    unfold legacy_plaintext. rewrite Hpw.
    apply Nat.ltb_lt in Hlen. now rewrite Hlen, Hdec.
  - intros (row & Hrow & Hleg). unfold legacy_plaintext in Hleg.
    destruct (password_encrypted row) as [enc|] eqn:Hpw; [|discriminate].
    destruct (0 <? length enc)%nat eqn:Hlen; [|discriminate].
    destruct (decryptWithKey enc oldKey) as [pt [e|]] eqn:Hdec; [discriminate|].
    injection Hleg as ->. exists (name, enc). split.
    + apply elem_of_select_encrypted. apply Nat.ltb_lt in Hlen. eauto.
    + cbn [fst snd]. now rewrite Hdec.
Qed.

Lemma NoDup_collect_migration (oldKey : bytes) (tbl : gmap string PeerRow) :
  NoDup ((collect_migration oldKey (select_encrypted tbl)).*1).
Proof.
  unfold collect_migration, select_encrypted.
  apply NoDup_fst_omap.
  - intros [n enc] y Hf. cbn [fst snd] in Hf.
    destruct (decryptWithKey enc oldKey) as [pt [e|]]; [discriminate|].
    now injection Hf as <-.
  - apply NoDup_fst_omap; [|apply NoDup_fst_map_to_list].
    intros [n row] y Hf. cbn [fst snd] in Hf.
    destruct (password_encrypted row) as [e|]; [|discriminate].
    destruct (0 <? length e)%nat; [|discriminate].
    now injection Hf as <-.
Qed.

(** The second loop, with a 32-byte key: it cannot fail, it rewrites the
    blob of each listed peer with one that opens under the new key to the
    listed plaintext, and it touches nothing else. *)
Lemma reencrypt_spec (newKey : bytes) (toMigrate : list (string * string)) :
  length newKey = 32%nat ->
  forall (tbl : gmap string PeerRow) (r : RandReader),
    NoDup (toMigrate.*1) ->
    exists tbl' r',
      reencrypt toMigrate newKey tbl r = ((tbl', r'), None) /\
      (forall name, name ∉ toMigrate.*1 -> tbl' !! name = tbl !! name) /\
      (forall name plaintext,
         (name, plaintext) ∈ toMigrate ->
         exists enc,
           tbl' !! name = set_password_encrypted enc <$> tbl !! name /\
           decryptWithKey enc newKey = (plaintext, None)).
Proof.
  intros HK. induction toMigrate as [|[n p] rest IH]; intros tbl r Hnd.
  - exists tbl, r. split; [reflexivity|]. split; [reflexivity|].
    intros name pt Hin. inversion Hin.
  - cbn [fmap list_fmap fst] in Hnd. apply NoDup_cons in Hnd as [Hn Hrest].
    destruct (encryptWithKey_ok p newKey r HK) as (enc & Henc & _ & Hdec).
    destruct (IH (update_password n enc tbl) (ReadFull r GCM.NonceSize).2 Hrest)
      as (tbl' & r' & Hre & Hother & Hmig).
    exists tbl', r'. split; [|split].
    + cbn [reencrypt]. now rewrite Henc.
    + intros name Hnot. cbn [fmap list_fmap fst] in Hnot.
      apply not_elem_of_cons in Hnot as [Hne Hnot].
      rewrite (Hother name Hnot). unfold update_password.
      now apply lookup_alter_ne.
    + intros name pt Hin. apply elem_of_cons in Hin as [Heq | Hin].
      * injection Heq as -> ->. exists enc. split; [|exact Hdec].
        rewrite (Hother n Hn). apply lookup_alter_eq.
      * destruct (Hmig name pt Hin) as (enc' & Hrow & Hdec').
        exists enc'. split; [|exact Hdec'].
        rewrite Hrow. unfold update_password. rewrite lookup_alter_ne; [reflexivity|].
        intros ->. apply Hn. apply list_elem_of_fmap. now exists (name, pt).
Qed.

Section Migration.

Context {R : Type} `{RemoteAdapter R}.

Lemma migrateCredentialKeys_no_db (s : DoltStore R) (newKey : bytes) (r : RandReader) :
  db s = None -> migrateCredentialKeys s newKey r = ((s, r), None).
Proof. intros Hdb. unfold migrateCredentialKeys. now rewrite Hdb. Qed.

Lemma migrateCredentialKeys_no_table (s : DoltStore R) (newKey : bytes)
    (r : RandReader) (d : Database) :
  db s = Some d -> federation_peers d = None ->
  migrateCredentialKeys s newKey r = ((s, r), None).
Proof. intros Hdb Htbl. unfold migrateCredentialKeys. now rewrite Hdb, Htbl. Qed.

(** The table after a migration to a 32-byte key, row by row. *)
Lemma migrateCredentialKeys_table (s : DoltStore R) (newKey : bytes)
    (r : RandReader) (d : Database) (tbl : gmap string PeerRow) :
  length newKey = 32%nat ->
  db s = Some d -> federation_peers d = Some tbl ->
  exists tbl' r',
    migrateCredentialKeys s newKey r
    = ((set_db s (mkDatabase (Some tbl') (clock d)), r'), None) /\
    (forall name, tbl !! name = None -> tbl' !! name = None) /\
    (forall name row,
       tbl !! name = Some row ->
       match legacy_plaintext (legacyEncryptionKey s) row with
       | Some plaintext =>
           exists enc, tbl' !! name = Some (set_password_encrypted enc row) /\
                       decryptWithKey enc newKey = (plaintext, None)
       | None => tbl' !! name = Some row
       end).
Proof.
  intros HK Hdb Htbl. unfold migrateCredentialKeys. rewrite Hdb, Htbl.
  set (old := legacyEncryptionKey s).
  set (toMigrate := collect_migration old (select_encrypted tbl)).
  destruct (reencrypt_spec newKey toMigrate HK tbl r (NoDup_collect_migration old tbl))
    as (tbl' & r' & Hre & Hother & Hmig).
  assert (Hnot : forall name,
             (forall row, tbl !! name = Some row -> legacy_plaintext old row = None) ->
             name ∉ toMigrate.*1).
  { intros name Hnone Hin.
    apply list_elem_of_fmap in Hin as ([n pt] & -> & Hin).
    apply elem_of_collect_migration in Hin as (row & Hrow & Hleg).
    cbn [fst] in Hnone. rewrite (Hnone row Hrow) in Hleg. discriminate. }
  exists tbl', r'. rewrite Hre. split; [reflexivity|]. split.
  - intros name Hnone. rewrite Hother; [exact Hnone|].
    apply Hnot. intros row Hrow. congruence.
  - intros name row Hrow.
    destruct (legacy_plaintext old row) as [pt|] eqn:Hleg.
    + destruct (Hmig name pt) as (enc & Hrow' & Hdec).
      { apply elem_of_collect_migration. eauto. }
      exists enc. split; [|exact Hdec]. now rewrite Hrow', Hrow.
    + rewrite Hother; [exact Hrow|].
      apply Hnot. intros row' Hrow'. congruence.
Qed.

End Migration.









(** ** Strings of the form ["key=value"] *)

Lemma append_cons (a : ascii) (s t : string) :
  (String a s ++ t)%string = String a (s ++ t)%string.
Proof. reflexivity. Qed.

Lemma append_nil_l (t : string) : (EmptyString ++ t)%string = t.
Proof. reflexivity. Qed.

Lemma CutPrefix_Some (s p v : string) :
  CutPrefix s p = Some v <-> s = (p ++ v)%string.
Proof.
  revert s. induction p as [|a p IH]; intros s.
  - rewrite append_nil_l. cbn [CutPrefix].
    split; [intros Heq; now injection Heq | now intros ->].
  - rewrite append_cons. cbn [CutPrefix]. destruct s as [|b s].
    + split; discriminate.
    + destruct (Ascii.eqb a b) eqn:Hab.
      * apply Ascii.eqb_eq in Hab as ->. rewrite IH.
        split; [now intros -> | intros Heq; now injection Heq].
      * apply Ascii.eqb_neq in Hab.
        split; [discriminate | intros Heq; injection Heq as Hb _; congruence].
Qed.

Lemma CutPrefix_app (p v : string) : CutPrefix (p ++ v) p = Some v.
Proof. now apply CutPrefix_Some. Qed.

Lemma HasPrefix_CutPrefix (s p : string) :
  HasPrefix s p = true <-> exists v, CutPrefix s p = Some v.
Proof.
  unfold HasPrefix. revert s. induction p as [|a p IH]; intros s.
  - destruct s; (split; [intros _; eexists; reflexivity | intros _; reflexivity]).
  - destruct s as [|b s]; cbn [String.prefix CutPrefix].
    + split; [discriminate | intros [v Hv]; discriminate].
    + destruct (ascii_dec a b) as [->|Hne].
      * rewrite Ascii.eqb_refl. apply IH.
      * apply Ascii.eqb_neq in Hne. rewrite Hne.
        split; [discriminate | intros [v Hv]; discriminate].
Qed.

Lemma HasPrefix_false_CutPrefix (s p : string) :
  HasPrefix s p = false -> CutPrefix s p = None.
Proof.
  intros Hf. destruct (CutPrefix s p) as [v|] eqn:Hc; [|reflexivity].
  assert (Ht : HasPrefix s p = true) by (apply HasPrefix_CutPrefix; eauto).
  congruence.
Qed.

Lemma has_char_cons (c a : ascii) (s : string) :
  has_char c (String a s) = Ascii.eqb c a || has_char c s.
Proof. reflexivity. Qed.

(** A string has at most one key: the text before its first ['=']. *)
Lemma key_unique (k1 k2 v1 v2 : string) :
  has_char "=" k1 = false -> has_char "=" k2 = false ->
  (k1 ++ String "=" v1)%string = (k2 ++ String "=" v2)%string ->
  k1 = k2 /\ v1 = v2.
Proof.
  revert k2. induction k1 as [|a k1 IH]; intros [|b k2] Hk1 Hk2;
    rewrite ?append_nil_l, ?append_cons; intros Heq.
  - injection Heq as ->. auto.
  - injection Heq as <- _. rewrite has_char_cons in Hk2. discriminate.
  - injection Heq as -> _. rewrite has_char_cons in Hk1. discriminate.
  - injection Heq as -> Heq.
    rewrite has_char_cons in Hk1, Hk2.
    apply orb_false_iff in Hk1 as [_ Hk1]. apply orb_false_iff in Hk2 as [_ Hk2].
    destruct (IH k2 Hk1 Hk2 Heq) as [-> ->]. auto.
Qed.

Lemma append_assoc_eq (k v : string) :
  ((k ++ "=") ++ v)%string = (k ++ String "=" v)%string.
Proof.
  induction k as [|a k IH]; [reflexivity|].
  rewrite !append_cons. now rewrite IH.
Qed.

(** An entry of one key gives no value to another key. *)
Lemma CutPrefix_other_key (k1 k2 e v1 : string) :
  has_char "=" k1 = false -> has_char "=" k2 = false -> k1 <> k2 ->
  CutPrefix e (k1 ++ "=") = Some v1 -> CutPrefix e (k2 ++ "=") = None.
Proof.
  intros Hk1 Hk2 Hne H1.
  destruct (CutPrefix e (k2 ++ "=")) as [v2|] eqn:H2; [|reflexivity].
  apply CutPrefix_Some in H1, H2. rewrite append_assoc_eq in H1, H2.
  rewrite H1 in H2. destruct (key_unique _ _ _ _ Hk1 Hk2 H2). contradiction.
Qed.

Lemma env_values_app (k : string) (l1 l2 : list string) :
  env_values k (l1 ++ l2) = env_values k l1 ++ env_values k l2.
Proof. unfold env_values. apply omap_app. Qed.

Lemma env_values_filter_out (k : string) (f : string -> bool) (l : list string) :
  (forall e, f e = true -> HasPrefix e (k ++ "=") = false) ->
  env_values k (List.filter f l) = [].
Proof.
  intros Hf. induction l as [|e l IH]; [reflexivity|].
  cbn [List.filter]. destruct (f e) eqn:Hfe; [|exact IH].
  unfold env_values in *. cbn [omap list_omap].
  rewrite (HasPrefix_false_CutPrefix e _ (Hf e Hfe)). exact IH.
Qed.

Lemma env_values_filter_keep (k : string) (f : string -> bool) (l : list string) :
  (forall e, f e = false -> CutPrefix e (k ++ "=") = None) ->
  env_values k (List.filter f l) = env_values k l.
Proof.
  intros Hf. induction l as [|e l IH]; [reflexivity|].
  cbn [List.filter]. unfold env_values in *.
  destruct (f e) eqn:Hfe; cbn [omap list_omap].
  - now rewrite IH.
  - now rewrite (Hf e Hfe).
Qed.

Lemma env_values_entry (k k' v : string) :
  has_char "=" k = false -> has_char "=" k' = false ->
  env_values k [((k' ++ "=") ++ v)%string] = if String.eqb k k' then [v] else [].
Proof.
  intros Hk Hk'. unfold env_values. cbn [omap list_omap].
  destruct (String.eqb k k') eqn:Heq.
  - apply String.eqb_eq in Heq as ->. now rewrite CutPrefix_app.
  - apply String.eqb_neq in Heq.
    rewrite (CutPrefix_other_key k' k _ v Hk' Hk); [reflexivity | congruence |].
    apply CutPrefix_app.
Qed.

(** ** Subprocess isolation *)

Lemma applyToCmd_nonempty (c : remoteCredentials) (cmd : Cmd) (p : Process) :
  empty (Some c) = false ->
  applyToCmd (Some c) cmd p
  = (mkCmd (Path cmd) (Args cmd) (Some (expected_child_env c p)), p).
Proof.
  intros He. unfold applyToCmd. rewrite He.
  unfold expected_child_env, credential_entries, strip_credentials.
  destruct (String.eqb (Username c) ""), (String.eqb (Password c) "");
    cbn [negb]; rewrite ?List.app_nil_r, <- ?List.app_assoc; reflexivity.
Qed.

Lemma applyToCmd_keeps_process (c : option remoteCredentials) (cmd : Cmd) (p : Process) :
  (applyToCmd c cmd p).2 = p.
Proof.
  destruct c as [c|]; [|reflexivity].
  unfold applyToCmd. now destruct (empty (Some c)).
Qed.

Lemma env_values_credential_entries (c : remoteCredentials) (k : string) :
  has_char "=" k = false ->
  env_values k (credential_entries c)
  = (if String.eqb k "DOLT_REMOTE_USER" && negb (String.eqb (Username c) "")
     then [Username c] else [])
    ++ (if String.eqb k "DOLT_REMOTE_PASSWORD" && negb (String.eqb (Password c) "")
        then [Password c] else []).
Proof.
  intros Hk. unfold credential_entries. rewrite env_values_app. f_equal.
  - destruct (String.eqb (Username c) ""); cbn [negb];
      [now rewrite andb_false_r|].
    rewrite andb_true_r.
    change ("DOLT_REMOTE_USER=" ++ Username c)%string
      with (("DOLT_REMOTE_USER" ++ "=") ++ Username c)%string.
    now apply env_values_entry.
  - destruct (String.eqb (Password c) ""); cbn [negb];
      [now rewrite andb_false_r|].
    rewrite andb_true_r.
    change ("DOLT_REMOTE_PASSWORD=" ++ Password c)%string
      with (("DOLT_REMOTE_PASSWORD" ++ "=") ++ Password c)%string.
    now apply env_values_entry.
Qed.

Lemma env_values_strip_credentials (k : string) (block : list string) :
  has_char "=" k = false ->
  env_values k (strip_credentials block)
  = if String.eqb k "DOLT_REMOTE_USER" || String.eqb k "DOLT_REMOTE_PASSWORD"
    then [] else env_values k block.
Proof.
  intros Hk. unfold strip_credentials.
  destruct (String.eqb k "DOLT_REMOTE_USER") eqn:Hu;
    [|destruct (String.eqb k "DOLT_REMOTE_PASSWORD") eqn:Hp]; cbn [orb].
  - apply String.eqb_eq in Hu as ->. apply env_values_filter_out.
    intros e Hf. apply andb_true_iff in Hf as [Hf _].
    now apply negb_true_iff in Hf.
  - apply String.eqb_eq in Hp as ->. apply env_values_filter_out.
    intros e Hf. apply andb_true_iff in Hf as [_ Hf].
    now apply negb_true_iff in Hf.
  - apply String.eqb_neq in Hu, Hp. apply env_values_filter_keep.
    intros e Hf. apply andb_false_iff in Hf as [Hf | Hf];
      apply negb_false_iff, HasPrefix_CutPrefix in Hf as [v Hv].
    + apply (CutPrefix_other_key "DOLT_REMOTE_USER" k e v); auto.
    + apply (CutPrefix_other_key "DOLT_REMOTE_PASSWORD" k e v); auto.
Qed.

Lemma child_environ_Some (path : string) (args block : list string) (p : Process) :
  child_environ (mkCmd path args (Some block)) p = block.
Proof. reflexivity. Qed.

(** C4: for non-empty credentials and every ambient environment,
    [applyToCmd] gives the command the ambient environment without its
    entries for DOLT_REMOTE_USER and DOLT_REMOTE_PASSWORD, followed by
    DOLT_REMOTE_USER for a non-empty username and DOLT_REMOTE_PASSWORD for a
    non-empty password; the process itself is left as it was, whatever other
    invocation ran before, so the child sees these credentials and no
    others, and every other variable as in the parent. *)
Theorem applyToCmd_spec (c : remoteCredentials) (cmd : Cmd) (p : Process) :
  empty (Some c) = false ->
  let cmd' := (applyToCmd (Some c) cmd p).1 in
  let p' := (applyToCmd (Some c) cmd p).2 in
  Env cmd' = Some (expected_child_env c p) /\
  Path cmd' = Path cmd /\ Args cmd' = Args cmd /\
  p' = p /\
  env_values "DOLT_REMOTE_USER" (child_environ cmd' p')
  = (if String.eqb (Username c) "" then [] else [Username c]) /\
  env_values "DOLT_REMOTE_PASSWORD" (child_environ cmd' p')
  = (if String.eqb (Password c) "" then [] else [Password c]) /\
  (forall k, has_char "=" k = false ->
             k <> "DOLT_REMOTE_USER"%string -> k <> "DOLT_REMOTE_PASSWORD"%string ->
             env_values k (child_environ cmd' p') = env_values k (Environ (environ p))) /\
  (forall other cmd2,
     (applyToCmd (Some c) cmd (applyToCmd other cmd2 p).2).1 = cmd').
Proof.
  intros He cmd' p'. unfold cmd', p'. rewrite (applyToCmd_nonempty c cmd p He).
  cbn [fst snd Env Path Args]. rewrite child_environ_Some.
  split; [reflexivity|]. split; [reflexivity|]. split; [reflexivity|].
  split; [reflexivity|].
  unfold expected_child_env.
  split; [|split; [|split]].
  - rewrite env_values_app, env_values_strip_credentials,
      env_values_credential_entries by reflexivity.
    cbn. destruct (String.eqb (Username c) ""); reflexivity.
  - rewrite env_values_app, env_values_strip_credentials,
      env_values_credential_entries by reflexivity.
    cbn. destruct (String.eqb (Password c) ""); reflexivity.
  - intros k Hk Hu Hp.
    rewrite env_values_app, env_values_strip_credentials,
      env_values_credential_entries by exact Hk.
    apply String.eqb_neq in Hu, Hp. rewrite Hu, Hp. cbn.
    now rewrite List.app_nil_r.
  - intros other cmd2. rewrite applyToCmd_keeps_process.
    now rewrite (applyToCmd_nonempty c cmd p He).
Qed.

Lemma applyToCmd_spec_witness :
  empty (Some alpha) = false /\ empty (Some beta) = false /\
  Env (applyToCmd (Some alpha) dolt_push ambient).1
  = Some ["PATH=/usr/bin"; "DOLT_REMOTE_USER=a"; "DOLT_REMOTE_PASSWORD=a1"]%string /\
  (applyToCmd (Some alpha) dolt_push ambient).2 = ambient /\
  env_values "DOLT_REMOTE_USER"
    (child_environ (applyToCmd (Some alpha) dolt_push ambient).1
                   (applyToCmd (Some alpha) dolt_push ambient).2) = ["a"%string] /\
  env_values "DOLT_REMOTE_PASSWORD"
    (child_environ
       (applyToCmd (Some beta) dolt_push (applyToCmd (Some alpha) dolt_push ambient).2).1
       (applyToCmd (Some beta) dolt_push (applyToCmd (Some alpha) dolt_push ambient).2).2)
  = ["b1"%string].
Proof.
  pose proof (applyToCmd_spec alpha dolt_push ambient eq_refl)
    as (Henv & _ & _ & Hp & Hu & _).
  pose proof (applyToCmd_spec beta dolt_push
                (applyToCmd (Some alpha) dolt_push ambient).2 eq_refl)
    as (_ & _ & _ & _ & _ & Hpw & _).
  split; [reflexivity|]. split; [reflexivity|].
  split; [exact Henv|]. split; [exact Hp|]. split; [exact Hu | exact Hpw].
Defined.

(** ** The process environment *)

Lemma LookupEnv_set_var_eq (k v : string) (env : Environment) :
  LookupEnv (set_var k v env) k = Some v.
Proof.
  unfold LookupEnv. induction env as [|[k' v'] env IH]; cbn [set_var].
  - cbn. now rewrite String.eqb_refl.
  - destruct (String.eqb k' k) eqn:Hk; cbn [List.find fst].
    + now rewrite String.eqb_refl.
    + rewrite Hk. exact IH.
Qed.

Lemma LookupEnv_set_var_ne (k k' v : string) (env : Environment) :
  k <> k' -> LookupEnv (set_var k' v env) k = LookupEnv env k.
Proof.
  intros Hne. unfold LookupEnv.
  induction env as [|[k0 v0] env IH]; cbn [set_var].
  - cbn. apply not_eq_sym, String.eqb_neq in Hne. now rewrite Hne.
  - destruct (String.eqb k0 k') eqn:Hk; cbn [List.find fst].
    + apply String.eqb_eq in Hk as ->.
      apply not_eq_sym, String.eqb_neq in Hne. now rewrite Hne.
    + destruct (String.eqb k0 k); [reflexivity | exact IH].
Qed.

Lemma LookupEnv_Unsetenv (k k' : string) (env : Environment) :
  LookupEnv (Unsetenv env k') k
  = if String.eqb k k' then None else LookupEnv env k.
Proof.
  unfold LookupEnv, Unsetenv.
  induction env as [|[k0 v0] env IH]; cbn [List.filter List.find fst].
  - now destruct (String.eqb k k').
  - destruct (String.eqb k0 k') eqn:Hk0; cbn [negb List.find fst].
    + rewrite IH. apply String.eqb_eq in Hk0 as ->.
      destruct (String.eqb k k') eqn:Hk; [reflexivity|].
      rewrite String.eqb_sym in Hk. now rewrite Hk.
    + destruct (String.eqb k0 k) eqn:Hk.
      * apply String.eqb_eq in Hk as ->. now rewrite Hk0.
      * exact IH.
Qed.

Lemma Setenv_ok (env : Environment) (k v : string) :
  k <> EmptyString -> has_char "=" k = false -> has_char zero k = false ->
  has_char zero v = false ->
  Setenv env k v = (set_var k v env, None).
Proof.
  intros Hk He Hz Hv. unfold Setenv.
  apply String.eqb_neq in Hk. now rewrite Hk, He, Hz, Hv.
Qed.

Lemma LookupEnv_setenv_nonempty_ne (k k' v : string) (env : Environment) :
  k <> k' -> LookupEnv (setenv_nonempty k' v env) k = LookupEnv env k.
Proof.
  intros Hne. unfold setenv_nonempty, Setenv.
  destruct (String.eqb v ""); [reflexivity|].
  destruct (_ || _); cbn [fst]; [reflexivity|].
  now apply LookupEnv_set_var_ne.
Qed.

Lemma LookupEnv_setenv_nonempty_eq (k v : string) (env : Environment) :
  String.eqb k "" || has_char "=" k || has_char zero k = false ->
  LookupEnv (setenv_nonempty k v env) k
  = if String.eqb v "" || has_char zero v then LookupEnv env k else Some v.
Proof.
  intros Hk. unfold setenv_nonempty, Setenv. rewrite Hk.
  destruct (String.eqb v ""); [reflexivity|].
  cbn [orb]. destruct (has_char zero v); cbn [fst]; [reflexivity|].
  apply LookupEnv_set_var_eq.
Qed.

(** What the operation finds for a credential that is not empty and has no
    NUL byte. *)
Lemma credentialed_env_lookup (c : remoteCredentials) (env : Environment) :
  (Username c <> EmptyString -> has_char zero (Username c) = false ->
   LookupEnv (credentialed_env c env) "DOLT_REMOTE_USER" = Some (Username c)) /\
  (Password c <> EmptyString -> has_char zero (Password c) = false ->
   LookupEnv (credentialed_env c env) "DOLT_REMOTE_PASSWORD" = Some (Password c)).
Proof.
  unfold credentialed_env, setenv_nonempty. split.
  - intros Hu Hz. apply String.eqb_neq in Hu. rewrite Hu.
    rewrite (Setenv_ok env "DOLT_REMOTE_USER" (Username c)); try reflexivity;
      [|discriminate | exact Hz].
    cbn [fst]. destruct (String.eqb (Password c) "").
    + apply LookupEnv_set_var_eq.
    + unfold Setenv.
      destruct (_ || _); cbn [fst]; [apply LookupEnv_set_var_eq|].
      rewrite LookupEnv_set_var_ne by discriminate. apply LookupEnv_set_var_eq.
  - intros Hp Hz. apply String.eqb_neq in Hp. rewrite Hp.
    rewrite Setenv_ok; try reflexivity; [|discriminate | exact Hz].
    apply LookupEnv_set_var_eq.
Qed.

(** ** The mutex-protected path *)

(** C3, as the code has it: for credentials with a non-empty username or
    password, called while the mutex is free, [withEnvCredentials] returns;
    it locks the mutex, calls [os.Setenv] for each credential variable whose
    value is not empty, runs the operation in that environment, then unsets
    both variables and unlocks, in this order, whatever the operation
    returned (nil, an error, or a panic) and whatever it did to the
    environment; on return neither variable is set and the mutex is free.
    The operation finds a credential variable set to the credential when
    the credential is not empty and has no NUL byte; otherwise ([os.Setenv]
    is not called, or refuses the value and its error is dropped) it finds
    what the environment held before the call. *)
Theorem withEnvCredentials_spec (c : remoteCredentials) (fn : Operation) (p : Process) :
  empty (Some c) = false ->
  federationEnvMutex p = false ->
  let env_in := credentialed_env c (environ p) in
  exists p',
    withEnvCredentials (Some c) fn p = Some ((fn env_in).1, p') /\
    trace p' = trace p ++ [EvLock] ++ setenv_events c
               ++ [EvCall env_in; EvUnsetenv "DOLT_REMOTE_USER";
                   EvUnsetenv "DOLT_REMOTE_PASSWORD"; EvUnlock] /\
    environ p'
    = Unsetenv (Unsetenv (fn env_in).2 "DOLT_REMOTE_USER") "DOLT_REMOTE_PASSWORD" /\
    LookupEnv (environ p') "DOLT_REMOTE_USER" = None /\
    LookupEnv (environ p') "DOLT_REMOTE_PASSWORD" = None /\
    federationEnvMutex p' = false /\
    LookupEnv env_in "DOLT_REMOTE_USER"
    = (if String.eqb (Username c) "" || has_char zero (Username c)
       then LookupEnv (environ p) "DOLT_REMOTE_USER"
       else Some (Username c)) /\
    LookupEnv env_in "DOLT_REMOTE_PASSWORD"
    = (if String.eqb (Password c) "" || has_char zero (Password c)
       then LookupEnv (environ p) "DOLT_REMOTE_PASSWORD"
       else Some (Password c)).
Proof.
  intros He Hm env_in.
  exists (mkProcess
            (Unsetenv (Unsetenv (fn env_in).2 "DOLT_REMOTE_USER") "DOLT_REMOTE_PASSWORD")
            false
            (trace p ++ [EvLock] ++ setenv_events c
             ++ [EvCall env_in; EvUnsetenv "DOLT_REMOTE_USER";
                 EvUnsetenv "DOLT_REMOTE_PASSWORD"; EvUnlock])).
  cbn [environ federationEnvMutex trace].
  split; [|split; [reflexivity|]; split; [reflexivity|];
           split; [now rewrite !LookupEnv_Unsetenv|];
           split; [now rewrite !LookupEnv_Unsetenv|];
           split; [reflexivity|]; split].
  - unfold withEnvCredentials. rewrite He. unfold Lock. rewrite Hm.
    unfold setFederationCredentials, call, run_deferred, os_Setenv.
    assert (Henv : env_in = credentialed_env c (environ p)) by reflexivity.
    unfold credentialed_env, setenv_nonempty in Henv.
    unfold setenv_events.
    unfold empty in He.
    destruct (String.eqb (Username c) "") eqn:Hu,
             (String.eqb (Password c) "") eqn:Hp;
      try discriminate He;
      cbn [negb environ federationEnvMutex trace] in *; rewrite <- Henv;
      destruct (fn env_in) as [res env_out];
      unfold os_Unsetenv, Unlock;
      cbn [fold_left environ federationEnvMutex trace fst snd];
      rewrite <- ?List.app_assoc; reflexivity.
  - unfold env_in, credentialed_env.
    rewrite LookupEnv_setenv_nonempty_ne by discriminate.
    now rewrite LookupEnv_setenv_nonempty_eq.
  - unfold env_in, credentialed_env.
    rewrite LookupEnv_setenv_nonempty_eq by reflexivity.
    destruct (_ || _); [|reflexivity].
    now rewrite LookupEnv_setenv_nonempty_ne.
Qed.

Lemma withEnvCredentials_spec_witness :
  empty (Some alpha) = false /\ federationEnvMutex ambient = false /\
  exists p',
    withEnvCredentials (Some alpha) failing_push ambient
    = Some (Returned (Some (errorString "push failed")), p') /\
    LookupEnv (environ p') "DOLT_REMOTE_USER" = None /\
    LookupEnv (environ p') "DOLT_REMOTE_PASSWORD" = None /\
    federationEnvMutex p' = false.
Proof.
  split; [reflexivity|]. split; [reflexivity|].
  destruct (withEnvCredentials_spec alpha failing_push ambient eq_refl eq_refl)
    as (p' & Hrun & _ & _ & Hu & Hp & Hm & _).
  exists p'. split; [exact Hrun|]. split; [exact Hu|]. split; [exact Hp | exact Hm].
Defined.

(** When the operation panics, the deferred calls still run. *)
Example withEnvCredentials_panic :
  withEnvCredentials (Some alpha) panicking_push ambient
  = Some (Panicked "nil pointer dereference",
          mkProcess [("PATH", "/usr/bin")]%string false
            [EvLock; EvSetenv "DOLT_REMOTE_USER" "a";
             EvSetenv "DOLT_REMOTE_PASSWORD" "a1";
             EvCall [("PATH", "/usr/bin"); ("DOLT_REMOTE_USER", "a");
                     ("DOLT_REMOTE_PASSWORD", "a1")]%string;
             EvUnsetenv "DOLT_REMOTE_USER"; EvUnsetenv "DOLT_REMOTE_PASSWORD";
             EvUnlock]).
Proof. reflexivity. Qed.

(** While the mutex is held the call does not proceed. *)
Lemma withEnvCredentials_blocked (c : remoteCredentials) (fn : Operation) (p : Process) :
  empty (Some c) = false -> federationEnvMutex p = true ->
  withEnvCredentials (Some c) fn p = None.
Proof.
  intros He Hm. unfold withEnvCredentials, Lock. now rewrite He, Hm.
Qed.

(** Empty credentials: the operation runs directly, without the mutex and
    without any change to the environment. *)
Lemma withEnvCredentials_empty (c : option remoteCredentials) (fn : Operation)
    (p : Process) :
  empty c = true -> withEnvCredentials c fn p = Some (call fn p).
Proof.
  intros He. unfold withEnvCredentials.
  destruct c as [c|]; [now rewrite He | reflexivity].
Qed.

(** C3 as stated does not hold: with a username and no password only
    DOLT_REMOTE_USER is set; the operation runs with the password that was
    in the environment before the call, which is not the credential's. *)
Lemma withEnvCredentials_sets_one_variable :
  empty (Some user_only) = false /\
  federationEnvMutex stale_password = false /\
  withEnvCredentials (Some user_only) quiet_pull stale_password
  = Some (Returned None,
          mkProcess [] false
            [EvLock; EvSetenv "DOLT_REMOTE_USER" "a";
             EvCall [("DOLT_REMOTE_PASSWORD", "stale");
                     ("DOLT_REMOTE_USER", "a")]%string;
             EvUnsetenv "DOLT_REMOTE_USER"; EvUnsetenv "DOLT_REMOTE_PASSWORD";
             EvUnlock]) /\
  LookupEnv (credentialed_env user_only (environ stale_password)) "DOLT_REMOTE_PASSWORD"
  = Some "stale"%string.
Proof. repeat split. Qed.

(* ================================================================== *)
(** * Further properties of the cipher *)
(* ================================================================== *)

Lemma length_bytes_of_string (s : string) :
  length (bytes_of_string s) = String.length s.
Proof.
  unfold bytes_of_string. rewrite List.length_map.
  induction s as [|c s IH]; simpl; [reflexivity | now rewrite IH].
Qed.

(** With any key that [aes.NewCipher] accepts, [encryptWithKey] seals under
    the next nonce of the random source. *)
Lemma encryptWithKey_usable (P : string) (K : bytes) (r : RandReader) rks :
  NewCipher K = inl rks ->
  encryptWithKey P K r
  = ((GCM.Seal rks (ReadFull r GCM.NonceSize).1 (ReadFull r GCM.NonceSize).1
        (bytes_of_string P), None),
     (ReadFull r GCM.NonceSize).2).
Proof.
  intros HK. unfold encryptWithKey. rewrite HK.
  now destruct (ReadFull r GCM.NonceSize).
Qed.

Lemma length_Seal rks dst nonce plaintext :
  length (GCM.Seal rks dst nonce plaintext)
  = (length dst + length plaintext + GCM.TagSize)%nat.
Proof.
  unfold GCM.Seal. rewrite !List.length_app, length_counter_crypt, length_auth. lia.
Qed.

(** The blob starts with the nonce that was drawn. *)
Lemma encryptWithKey_nonce (P : string) (K : bytes) (r : RandReader) rks :
  NewCipher K = inl rks ->
  firstn 12 (encryptWithKey P K r).1.1 = (ReadFull r 12).1.
Proof.
  intros HK. rewrite (encryptWithKey_usable P K r rks HK). cbn [fst snd].
  unfold GCM.Seal.
  pose proof (length_ReadFull r GCM.NonceSize) as Hn.
  change 12%nat with GCM.NonceSize. rewrite <- Hn at 1.
  now rewrite List.firstn_app, List.firstn_all, Nat.sub_diag, List.firstn_O,
    List.app_nil_r.
Qed.

(** The blob is the nonce, then as many bytes as the plaintext has, then the
    16-byte tag; one nonce is consumed from the random source. *)
Theorem encryptWithKey_layout (P : string) (K : bytes) (r : RandReader) rks :
  NewCipher K = inl rks ->
  (encryptWithKey P K r).1.2 = None /\
  length (encryptWithKey P K r).1.1 = (12 + String.length P + 16)%nat /\
  firstn 12 (encryptWithKey P K r).1.1 = (ReadFull r 12).1 /\
  (encryptWithKey P K r).2 = (ReadFull r 12).2 /\
  rand_pos (encryptWithKey P K r).2 = (rand_pos r + 12)%nat.
Proof.
  intros HK. pose proof (encryptWithKey_nonce P K r rks HK) as Hnonce.
  rewrite (encryptWithKey_usable P K r rks HK) in *. cbn [fst snd] in *.
  split; [reflexivity|]. split.
  - rewrite length_Seal, length_ReadFull, length_bytes_of_string. reflexivity.
  - split; [exact Hnonce | split; reflexivity].
Qed.

Lemma encryptWithKey_layout_witness :
  NewCipher new_key = inl (AES.expand_key new_key) /\
  length (encryptWithKey "secret" new_key migration_rand).1.1 = 34%nat /\
  firstn 12 (encryptWithKey "secret" new_key migration_rand).1.1
  = [1; 2; 3; 4; 5; 6; 7; 8; 9; 10; 11; 12].
Proof.
  pose proof (encryptWithKey_layout "secret" new_key migration_rand
                (AES.expand_key new_key) eq_refl) as (_ & Hlen & Hnonce & _).
  split; [reflexivity|]. split; [exact Hlen | exact Hnonce].
Defined.

(** Under one key, two encryptions of one plaintext give the same blob
    exactly when they drew the same nonce. *)
Theorem nonce_decides_blob (P : string) (K : bytes) (r1 r2 : RandReader) rks :
  NewCipher K = inl rks ->
  (encryptWithKey P K r1).1.1 = (encryptWithKey P K r2).1.1 <->
  (ReadFull r1 12).1 = (ReadFull r2 12).1.
Proof.
  intros HK. split.
  - intros Heq.
    rewrite <- (encryptWithKey_nonce P K r1 rks HK).
    rewrite <- (encryptWithKey_nonce P K r2 rks HK).
    now rewrite Heq.
  - intros Heq. rewrite !(encryptWithKey_usable P K _ rks HK). cbn [fst].
    change GCM.NonceSize with 12%nat. now rewrite Heq.
Qed.

Lemma nonce_decides_blob_witness :
  NewCipher new_key = inl (AES.expand_key new_key) /\
  (encryptWithKey "secret" new_key migration_rand).1.1
  <> (encryptWithKey "secret" new_key
        (encryptWithKey "secret" new_key migration_rand).2).1.1.
Proof.
  split; [reflexivity|]. intros Heq.
  apply (nonce_decides_blob "secret" new_key migration_rand _
           (AES.expand_key new_key) eq_refl) in Heq.
  revert Heq. vm_compute. discriminate.
Defined.

(** A key that is not 16, 24 or 32 bytes long makes both directions fail
    with the key-size error; encryption then draws no random bytes. *)
Theorem bad_key_size (P : string) (blob K : bytes) (r : RandReader) :
  length K <> 16%nat -> length K <> 24%nat -> length K <> 32%nat ->
  encryptWithKey P K r = (([], Some (KeySizeError (length K))), r) /\
  decryptWithKey blob K = (EmptyString, Some (KeySizeError (length K))).
Proof.
  intros H16 H24 H32.
  assert (HK : NewCipher K = inr (KeySizeError (length K))).
  { unfold NewCipher.
    apply Nat.eqb_neq in H16, H24, H32. now rewrite H16, H24, H32. }
  unfold encryptWithKey, decryptWithKey. now rewrite HK.
Qed.

Lemma bad_key_size_witness :
  encryptWithKey "secret" [1; 2; 3] migration_rand
  = (([], Some (KeySizeError 3)), migration_rand) /\
  decryptWithKey (repeat 0 40%nat) [1; 2; 3] = (EmptyString, Some (KeySizeError 3)).
Proof.
  apply (bad_key_size "secret" (repeat 0 40%nat) [1; 2; 3] migration_rand);
    cbn; lia.
Defined.

(** Authenticity of a blob given by its three parts. *)
Lemma authentic_parts rks (nonce ct tag : bytes) :
  length nonce = GCM.NonceSize -> length tag = GCM.TagSize ->
  authentic rks (nonce ++ ct ++ tag) <-> GCM.auth rks nonce ct = tag.
Proof.
  intros Hn Ht. unfold authentic, nonce_of, sealed_of. rewrite <- Hn.
  rewrite List.firstn_app, List.firstn_all, Nat.sub_diag, List.firstn_O, List.app_nil_r.
  rewrite List.skipn_app, List.skipn_all, Nat.sub_diag, List.skipn_O, List.app_nil_l.
  rewrite List.length_app, Ht.
  replace (length ct + GCM.TagSize - GCM.TagSize)%nat with (length ct) by lia.
  rewrite List.firstn_app, List.firstn_all, Nat.sub_diag, List.firstn_O, List.app_nil_r.
  rewrite List.skipn_app, List.skipn_all, Nat.sub_diag, List.skipn_O, List.app_nil_l.
  split; [intros [_ Heq]; exact Heq | intros Heq; split; [lia | exact Heq]].
Qed.

(** Tampering with the tag is always detected: a blob that differs from a
    sealed one only in its last 16 bytes does not decrypt under the sealing
    key; and no blob of fewer than 28 bytes decrypts under any key. *)
Theorem tampered_tag_rejected :
  (forall (P : string) (K : bytes) (r : RandReader) rks (tag' : bytes),
     NewCipher K = inl rks ->
     let blob := (encryptWithKey P K r).1.1 in
     length tag' = 16%nat ->
     tag' <> skipn (length blob - 16) blob ->
     decryptWithKey (firstn (length blob - 16) blob ++ tag') K
     = (EmptyString, Some errOpen)) /\
  (forall blob K : bytes,
     (length blob < 28)%nat ->
     exists e, decryptWithKey blob K = (EmptyString, Some e)).
Proof.
  split.
  - intros P K r rks tag' HK blob Hlen Hne.
    unfold blob in *. rewrite (encryptWithKey_usable P K r rks HK) in *.
    cbn [fst] in *.
    set (nonce := (ReadFull r GCM.NonceSize).1) in *.
    set (ct := GCM.counter_crypt rks nonce (bytes_of_string P)) in *.
    assert (Hn : length nonce = GCM.NonceSize) by apply length_ReadFull.
    unfold GCM.Seal in *. fold ct in Hne |- *.
    assert (Hl : (length (nonce ++ ct ++ GCM.auth rks nonce ct) - 16
                  = length (nonce ++ ct))%nat).
    { rewrite !List.length_app, length_auth. unfold GCM.TagSize. lia. }
    rewrite Hl in *. rewrite List.app_assoc in Hne |- *.
    rewrite List.firstn_app, List.firstn_all, Nat.sub_diag, List.firstn_O,
      List.app_nil_r.
    rewrite List.skipn_app, List.skipn_all, Nat.sub_diag, List.skipn_O,
      List.app_nil_l in Hne.
    rewrite <- List.app_assoc.
    destruct (decryptWithKey_cases (nonce ++ ct ++ tag') K rks HK)
      as [(Hshort & _) | [(_ & _ & Herr) | (_ & Hauth & _)]].
    + rewrite List.length_app in Hshort. lia.
    + exact Herr.
    + apply authentic_parts in Hauth; [|exact Hn | exact Hlen]. congruence.
  - intros blob K Hlen. destruct (NewCipher K) as [rks|err] eqn:HK.
    + destruct (decryptWithKey_cases blob K rks HK)
        as [(_ & Herr) | [(_ & _ & Herr) | (Hle & [Htag _] & _)]]; eauto.
      unfold sealed_of in Htag. rewrite List.length_skipn in Htag.
      unfold GCM.TagSize, GCM.NonceSize in *. lia.
    + exists err. now apply decryptWithKey_bad_key.
Qed.

Lemma tampered_tag_rejected_witness :
  NewCipher new_key = inl (AES.expand_key new_key) /\
  decryptWithKey
    (firstn (length (encryptWithKey "secret" new_key migration_rand).1.1 - 16)
            (encryptWithKey "secret" new_key migration_rand).1.1
     ++ repeat 0 16%nat) new_key
  = (EmptyString, Some errOpen) /\
  exists e, decryptWithKey (repeat 7 27%nat) new_key = (EmptyString, Some e).
Proof.
  split; [reflexivity|]. split.
  - apply (proj1 tampered_tag_rejected "secret" new_key migration_rand
             (AES.expand_key new_key) (repeat 0 16%nat) eq_refl eq_refl).
    vm_compute. discriminate.
  - apply (proj2 tampered_tag_rejected). vm_compute. lia.
Defined.

Lemma encryptWithKey_success_inv (P : string) (K : bytes) (r r' : RandReader)
    (blob : bytes) :
  encryptWithKey P K r = ((blob, None), r') ->
  exists rks, NewCipher K = inl rks /\
              blob = GCM.Seal rks (ReadFull r GCM.NonceSize).1
                       (ReadFull r GCM.NonceSize).1 (bytes_of_string P) /\
              r' = (ReadFull r GCM.NonceSize).2 /\
              decryptWithKey blob K = (P, None).
Proof.
  intros Henc. destruct (NewCipher K) as [rks|err] eqn:HK.
  - rewrite (encryptWithKey_usable P K r rks HK) in Henc.
    pose proof (f_equal (fun x : bytes * option error * RandReader => x.1.1) Henc) as Hb.
    pose proof (f_equal snd Henc) as Hr. cbn [fst snd] in Hb, Hr. subst blob r'.
    exists rks. split; [reflexivity|]. split; [reflexivity|]. split; [reflexivity|].
    apply decryptWithKey_sealed; [apply length_ReadFull | eauto | exact HK].
  - unfold encryptWithKey in Henc. rewrite HK in Henc. discriminate.
Qed.

(** SHA-256 digests have 32 bytes. *)
Lemma length_step st kw : length (SHA256.step st kw) = length st.
Proof.
  unfold SHA256.step.
  do 9 (destruct st as [|? st]; [reflexivity|]). reflexivity.
Qed.

Lemma length_fold_step l st : length (fold_left SHA256.step l st) = length st.
Proof.
  revert st. induction l as [|kw l IH]; intros st; [reflexivity|].
  cbn [fold_left]. now rewrite IH, length_step.
Qed.

Lemma length_block st blk : length (SHA256.block st blk) = length st.
Proof.
  unfold SHA256.block.
  rewrite List.length_map, List.length_combine, length_fold_step. lia.
Qed.

Lemma length_fold_block l st : length (fold_left SHA256.block l st) = length st.
Proof.
  revert st. induction l as [|blk l IH]; intros st; [reflexivity|].
  cbn [fold_left]. now rewrite IH, length_block.
Qed.

Lemma length_flat_map_Z_to_be (n : nat) (l : list Z) :
  length (flat_map (Z_to_be n) l) = (n * length l)%nat.
Proof.
  induction l as [|z l IH]; cbn [flat_map length]; [lia|].
  rewrite List.length_app, length_Z_to_be, IH. lia.
Qed.

Lemma length_Sum256 (msg : bytes) : length (SHA256.Sum256 msg) = 32%nat.
Proof.
  unfold SHA256.Sum256. rewrite length_flat_map_Z_to_be, length_fold_block.
  reflexivity.
Qed.

(* ================================================================== *)
(** * Further properties of the store *)
(* ================================================================== *)

Section StoreRoundTrip.

Context {R : Type} `{RemoteAdapter R}.

(** A non-empty password is sealed into a non-empty blob that the same
    store opens again. *)
Lemma encryptPassword_sealed (s : DoltStore R) (password : string)
    (r r' : RandReader) (blob : bytes) :
  String.eqb password "" = false ->
  encryptPassword s password r = ((blob, None), r') ->
  blob <> [] /\ decryptPassword s blob = (password, None).
Proof.
  unfold encryptPassword, decryptPassword. intros ->.
  destruct (credentialKey s) as [key|]; [|discriminate].
  intros Henc.
  apply encryptWithKey_success_inv in Henc as (rks & _ & Hblob & _ & Hdec).
  assert (Hlen : (0 < length blob)%nat).
  { rewrite Hblob, length_Seal. unfold GCM.TagSize. lia. }
  destruct blob as [|b blob]; [cbn in Hlen; lia|].
  cbn [length Nat.eqb]. split; [discriminate | exact Hdec].
Qed.

(** What [encryptPassword] returns without error, [decryptPassword] of the
    same store turns back into the password: the empty password through the
    nil blob, any other through the cipher. *)
Theorem encryptPassword_decryptPassword (s : DoltStore R) (password : string)
    (r r' : RandReader) (blob : bytes) :
  encryptPassword s password r = ((blob, None), r') ->
  decryptPassword s blob = (password, None) /\
  (blob = [] <-> password = EmptyString).
Proof.
  destruct (String.eqb password "") eqn:Hpw.
  - unfold encryptPassword, decryptPassword. rewrite Hpw.
    apply String.eqb_eq in Hpw as ->. intros Heq. injection Heq as <- _.
    split; [reflexivity | tauto].
  - intros Henc. destruct (encryptPassword_sealed s password r r' blob Hpw Henc)
      as [Hne Hdec].
    apply String.eqb_neq in Hpw. split; [exact Hdec|]. split; contradiction.
Qed.

(** The legacy key has 32 bytes for every data path, so decryption under it
    is never refused for its size. *)
Theorem legacyEncryptionKey_usable (s : DoltStore R) :
  length (legacyEncryptionKey s) = 32%nat /\
  NewCipher (legacyEncryptionKey s) = inl (AES.expand_key (legacyEncryptionKey s)).
Proof.
  assert (Hlen : length (legacyEncryptionKey s) = 32%nat) by apply length_Sum256.
  split; [exact Hlen | now apply NewCipher_32].
Qed.

Lemma decryptPassword_same_key (s s' : DoltStore R) (blob : bytes) :
  credentialKey s' = credentialKey s -> decryptPassword s' blob = decryptPassword s blob.
Proof. intros Hk. unfold decryptPassword. now rewrite Hk. Qed.

(** Scanning a row, in terms of [decryptPassword] of its blob. *)
Lemma scan_peer_decrypt (s : DoltStore R) (name : string) (row : PeerRow) :
  scan_peer s name row
  = match decryptPassword s (default [] (password_encrypted row)) with
    | (password, None) => (Some (row_peer name row password), None)
    | (_, Some e) => (None, Some (wrapError "failed to decrypt password: " e ""))
    end.
Proof.
  unfold scan_peer.
  destruct (default [] (password_encrypted row)) as [|b blob]; reflexivity.
Qed.

Lemma default_blob_arg (enc : bytes) : default [] (blob_arg enc) = enc.
Proof. now destruct enc. Qed.

Lemma upsert_peer_row (peer : storage.FederationPeer) (enc : bytes) (now : Z)
    (tbl : gmap string PeerRow) :
  upsert_peer peer enc now tbl !! storage.Name peer
  = Some (mkPeerRow (storage.RemoteURL peer) (Some (storage.Username peer))
            (blob_arg enc) (storage.Sovereignty peer)
            (from_option last_sync None (tbl !! storage.Name peer))
            (from_option created_at now (tbl !! storage.Name peer)) now).
Proof.
  unfold upsert_peer. destruct (tbl !! storage.Name peer); cbn [from_option];
    apply lookup_insert_eq.
Qed.

Lemma upsert_peer_other (peer : storage.FederationPeer) (enc : bytes) (now : Z)
    (tbl : gmap string PeerRow) (name : string) :
  name <> storage.Name peer -> upsert_peer peer enc now tbl !! name = tbl !! name.
Proof.
  intros Hne. unfold upsert_peer.
  destruct (tbl !! storage.Name peer); now apply lookup_insert_ne.
Qed.

(** The row a successful [AddFederationPeer] leaves behind, as
    [GetFederationPeer] scans it. *)
Lemma AddFederationPeer_scanned (s s' : DoltStore R)
    (peer : storage.FederationPeer) (r r' : RandReader) :
  AddFederationPeer s peer r = ((s', r'), None) ->
  exists row,
    GetFederationPeer s' (storage.Name peer)
    = Returns (Some (row_peer (storage.Name peer) row (storage.Password peer)), None) /\
    remote_url row = storage.RemoteURL peer /\
    username row = Some (storage.Username peer) /\
    sovereignty row = storage.Sovereignty peer.
Proof.
  intros Hadd.
  apply AddFederationPeer_ok in Hadd
    as (d & tbl & enc & Hdb & Htbl & Henc & Hdb' & Hkey & _).
  assert (Hdec : decryptPassword s' enc = (storage.Password peer, None)).
  { rewrite (decryptPassword_same_key s s' enc Hkey).
    destruct (String.eqb (storage.Password peer) "") eqn:Hpw; cbn [negb] in Henc.
    - apply String.eqb_eq in Hpw. rewrite Hpw. now injection Henc as <- _.
    - now apply (encryptPassword_sealed _ _ _ _ _ Hpw) in Henc as [_ Hdec]. }
  eexists. split.
  - rewrite (GetFederationPeer_row s' _ _ _ _ Hdb' eq_refl
               (upsert_peer_row peer enc (clock d) tbl)).
    rewrite scan_peer_decrypt. cbn [password_encrypted].
    rewrite default_blob_arg, Hdec. reflexivity.
  - repeat split.
Qed.

(** A peer that was added without error is read back with the name, URL,
    user name, password and sovereignty it was added with. *)
Theorem AddFederationPeer_then_Get (s s' : DoltStore R)
    (peer : storage.FederationPeer) (r r' : RandReader) :
  AddFederationPeer s peer r = ((s', r'), None) ->
  exists p,
    GetFederationPeer s' (storage.Name peer) = Returns (Some p, None) /\
    storage.Name p = storage.Name peer /\
    storage.RemoteURL p = storage.RemoteURL peer /\
    storage.Username p = storage.Username peer /\
    storage.Password p = storage.Password peer /\
    storage.Sovereignty p = storage.Sovereignty peer.
Proof.
  intros Hadd.
  destruct (AddFederationPeer_scanned s s' peer r r' Hadd)
    as (row & Hget & Hurl & Huser & Hsov).
  eexists. split; [exact Hget|]. unfold row_peer.
  cbn [storage.Name storage.RemoteURL storage.Username storage.Password
       storage.Sovereignty].
  rewrite Hurl, Huser, Hsov. repeat split.
Qed.

End StoreRoundTrip.

Lemma encryptPassword_decryptPassword_witness :
  encryptPassword keyed_store "secret" migration_rand
  = (((encryptPassword keyed_store "secret" migration_rand).1.1, None),
     (encryptPassword keyed_store "secret" migration_rand).2) /\
  decryptPassword keyed_store (encryptPassword keyed_store "secret" migration_rand).1.1
  = ("secret"%string, None).
Proof.
  assert (Henc : encryptPassword keyed_store "secret" migration_rand
                 = (((encryptPassword keyed_store "secret" migration_rand).1.1, None),
                    (encryptPassword keyed_store "secret" migration_rand).2))
    by (vm_compute; reflexivity).
  split; [exact Henc|].
  exact (proj1 (encryptPassword_decryptPassword keyed_store "secret" migration_rand
                  _ _ Henc)).
Defined.

Lemma AddFederationPeer_then_Get_witness :
  exists s' r' p,
    AddFederationPeer keyed_store (peer_of "origin" "https://x/y" "bob" "secret")
                      migration_rand = ((s', r'), None) /\
    GetFederationPeer s' "origin" = Returns (Some p, None) /\
    storage.Password p = "secret"%string /\ storage.Username p = "bob"%string.
Proof.
  assert (Hadd :
    AddFederationPeer keyed_store (peer_of "origin" "https://x/y" "bob" "secret")
                      migration_rand
    = (((AddFederationPeer keyed_store (peer_of "origin" "https://x/y" "bob" "secret")
                      migration_rand).1.1,
        (AddFederationPeer keyed_store (peer_of "origin" "https://x/y" "bob" "secret")
                      migration_rand).1.2), None))
    by (vm_compute; reflexivity).
  destruct (AddFederationPeer_then_Get _ _ _ _ _ Hadd)
    as (p & Hget & _ & _ & Huser & Hpw & _).
  eexists _, _, p. split; [exact Hadd|]. split; [exact Hget|].
  split; [exact Hpw | exact Huser].
Defined.

(** ** Substrings *)

Lemma prefix_spec (s p : string) :
  String.prefix p s = true <-> exists rest, s = (p ++ rest)%string.
Proof.
  change (String.prefix p s) with (HasPrefix s p).
  rewrite HasPrefix_CutPrefix. split; intros [v Hv]; exists v; now apply CutPrefix_Some.
Qed.

(** [strings.Contains]: the substring occurs somewhere. *)
Lemma Contains_spec (s sub : string) :
  Contains s sub = true <-> exists a b, s = (a ++ sub ++ b)%string.
Proof.
  induction s as [|c s IH]; cbn [Contains]; rewrite orb_true_iff, prefix_spec.
  - split.
    + intros [[rest Hrest] | Hf]; [|discriminate].
      exists EmptyString, rest. now rewrite append_nil_l.
    + intros (a & b & Heq). left.
      destruct a as [|x a]; [|rewrite append_cons in Heq; discriminate].
      rewrite append_nil_l in Heq. eauto.
  - rewrite IH. split.
    + intros [[rest Hrest] | (a & b & ->)].
      * exists EmptyString, rest. now rewrite append_nil_l.
      * exists (String c a), b. now rewrite append_cons.
    + intros (a & b & Heq). destruct a as [|x a].
      * left. rewrite append_nil_l in Heq. eauto.
      * right. rewrite append_cons in Heq. injection Heq as _ ->. eauto.
Qed.

Section StoreEdges.

Context {R : Type} `{RemoteAdapter R}.

(** [scan_peer] returns a peer or an error, never both and never neither. *)
Lemma scan_peer_cases (s : DoltStore R) (name : string) (row : PeerRow) :
  (exists password,
     decryptPassword s (default [] (password_encrypted row)) = (password, None) /\
     scan_peer s name row = (Some (row_peer name row password), None)) \/
  (exists pw e,
     decryptPassword s (default [] (password_encrypted row)) = (pw, Some e) /\
     scan_peer s name row
     = (None, Some (wrapError "failed to decrypt password: " e ""))).
Proof.
  rewrite scan_peer_decrypt.
  destruct (decryptPassword s _) as [pw [e|]]; [right | left]; eauto.
Qed.

(** The errors of [decryptPassword] are never [ErrNotFound]. *)
Lemma decryptPassword_error_not_NotFound (s : DoltStore R) (blob : bytes) pw e :
  decryptPassword s blob = (pw, Some e) -> IsNotFound e = false.
Proof.
  unfold decryptPassword. destruct (length blob =? 0)%nat; [discriminate|].
  destruct (credentialKey s) as [key|].
  - destruct (NewCipher key) as [rks|err] eqn:HK.
    + destruct (decryptWithKey_cases blob key rks HK)
        as [(_ & ->) | [(_ & _ & ->) | (_ & _ & Hok)]].
      * intros Heq. now injection Heq as _ <-.
      * intros Heq. now injection Heq as _ <-.
      * intros Heq. rewrite Heq in Hok. discriminate.
    + rewrite (decryptWithKey_bad_key blob key err HK).
      unfold NewCipher in HK. destruct (_ || _); [discriminate|].
      injection HK as <-. intros Heq. now injection Heq as _ <-.
  - intros Heq. now injection Heq as _ <-.
Qed.

(** [GetFederationPeer] on an existing table returns exactly one of a peer
    and an error; the error is [ErrNotFound] exactly when there is no row of
    that name, and a peer is returned under the name that was asked for. *)
Theorem GetFederationPeer_outcomes (s : DoltStore R) (d : Database)
    (tbl : gmap string PeerRow) (name : string) :
  db s = Some d -> federation_peers d = Some tbl ->
  ((exists p, GetFederationPeer s name = Returns (Some p, None) /\ storage.Name p = name) \/
   (exists e, GetFederationPeer s name = Returns (None, Some e))) /\
  (tbl !! name = None <->
   exists e, GetFederationPeer s name = Returns (None, Some e) /\ IsNotFound e = true).
Proof.
  intros Hdb Htbl. unfold GetFederationPeer. rewrite Hdb, Htbl.
  destruct (tbl !! name) as [row|] eqn:Hrow.
  - destruct (scan_peer_cases s name row)
      as [(pw & _ & ->) | (pw & e & Hdec & ->)].
    + split; [left; eauto|]. split; [discriminate|].
      intros (e & Heq & _). discriminate.
    + split; [right; eauto|]. split; [discriminate|].
      intros (e' & Heq & Hnf). injection Heq as <-. cbn in Hnf.
      rewrite (decryptPassword_error_not_NotFound s _ pw e Hdec) in Hnf. discriminate.
  - split; [right; eauto|]. split; [|reflexivity].
    intros _. eexists. split; reflexivity.
Qed.

(** Without a key, a peer that has a ciphertext cannot be read: the lookup
    returns the crypto error and no peer. *)
Theorem GetFederationPeer_without_key (s : DoltStore R) (d : Database)
    (tbl : gmap string PeerRow) (name : string) (row : PeerRow) (enc : bytes) :
  db s = Some d -> federation_peers d = Some tbl ->
  credentialKey s = None ->
  tbl !! name = Some row -> password_encrypted row = Some enc -> enc <> [] ->
  GetFederationPeer s name
  = Returns (None, Some (wrapError "failed to decrypt password: "
                   (errorString "credential encryption key not initialized") "")) /\
  exists e, (ListFederationPeers s).2 = Some e.
Proof.
  intros Hdb Htbl Hkey Hrow Hpw Hne.
  assert (Hscan : scan_peer s name row
                  = (None, Some (wrapError "failed to decrypt password: "
                       (errorString "credential encryption key not initialized") ""))).
  { rewrite scan_peer_decrypt, Hpw. cbn [default from_option id].
    unfold decryptPassword. rewrite Hkey.
    destruct enc; [contradiction | reflexivity]. }
  split.
  - now rewrite (GetFederationPeer_row s name d tbl row Hdb Htbl Hrow), Hscan.
  - unfold ListFederationPeers. rewrite Hdb, Htbl.
    assert (Hin : (name, row) ∈ merge_sort name_le (map_to_list tbl)).
    { rewrite merge_sort_Permutation. now apply elem_of_map_to_list. }
    revert Hin. generalize (merge_sort name_le (map_to_list tbl)).
    generalize (@nil storage.FederationPeer).
    intros acc rows. revert acc.
    induction rows as [|[n0 r0] rows IH]; intros acc Hin; [inversion Hin|].
    cbn [scan_peers]. apply elem_of_cons in Hin as [Heq | Hin].
    + injection Heq as <- <-. rewrite Hscan. eauto.
    + destruct (scan_peer_cases s n0 r0) as [(pw & _ & ->) | (pw & e & _ & ->)].
      * now apply IH.
      * eauto.
Qed.

End StoreEdges.

Lemma GetFederationPeer_outcomes_witness :
  db keyless_store
  = Some (mkDatabase (Some {[ "origin" := row_without_password ]}) 1000) /\
  exists e, GetFederationPeer keyless_store "missing" = Returns (None, Some e) /\
            IsNotFound e = true.
Proof.
  split; [reflexivity|].
  apply (proj2 (GetFederationPeer_outcomes keyless_store _
                  {[ "origin" := row_without_password ]} "missing" eq_refl eq_refl)).
  reflexivity.
Defined.

Lemma GetFederationPeer_without_key_witness :
  credentialKey (store_of_rows legacy_rows) = None /\
  legacy_rows !! "origin" = Some (row_with_blob (legacy_blob "secret")) /\
  legacy_blob "secret" <> [] /\
  GetFederationPeer (store_of_rows legacy_rows) "origin"
  = Returns (None, Some (wrapError "failed to decrypt password: "
                   (errorString "credential encryption key not initialized") "")).
Proof.
  assert (Hrow : legacy_rows !! "origin" = Some (row_with_blob (legacy_blob "secret")))
    by (vm_compute; reflexivity).
  assert (Hne : legacy_blob "secret" <> []) by (vm_compute; discriminate).
  split; [reflexivity|]. split; [exact Hrow|]. split; [exact Hne|].
  exact (proj1 (GetFederationPeer_without_key (store_of_rows legacy_rows)
                  (mkDatabase (Some legacy_rows) 1000) legacy_rows "origin"
                  (row_with_blob (legacy_blob "secret")) (legacy_blob "secret")
                  eq_refl eq_refl eq_refl Hrow eq_refl Hne)).
Defined.

Section StoreWrites.

Context {R : Type} `{RemoteAdapter R}.

(** An upsert replaces the URL, user name, blob and sovereignty of the row
    and stamps [updated_at]; a row that existed keeps its [created_at] and
    [last_sync], a new one starts with the current time and no sync; no
    other row changes. *)
Theorem AddFederationPeer_upsert (s s' : DoltStore R) (peer : storage.FederationPeer)
    (r r' : RandReader) (d : Database) (tbl : gmap string PeerRow) :
  db s = Some d -> federation_peers d = Some tbl ->
  AddFederationPeer s peer r = ((s', r'), None) ->
  exists tbl' row,
    db s' = Some (mkDatabase (Some tbl') (clock d)) /\
    (forall name, name <> storage.Name peer -> tbl' !! name = tbl !! name) /\
    tbl' !! storage.Name peer = Some row /\
    remote_url row = storage.RemoteURL peer /\
    username row = Some (storage.Username peer) /\
    sovereignty row = storage.Sovereignty peer /\
    updated_at row = clock d /\
    match tbl !! storage.Name peer with
    | Some old => created_at row = created_at old /\ last_sync row = last_sync old
    | None => created_at row = clock d /\ last_sync row = None
    end.
Proof.
  intros Hdb Htbl Hadd.
  apply AddFederationPeer_ok in Hadd
    as (d0 & tbl0 & enc & Hdb0 & Htbl0 & _ & Hdb' & _ & _).
  rewrite Hdb in Hdb0. injection Hdb0 as <-.
  rewrite Htbl in Htbl0. injection Htbl0 as <-.
  eexists _, _. split; [exact Hdb'|].
  split; [intros name Hne; now apply upsert_peer_other|].
  split; [apply upsert_peer_row|]. cbn [remote_url username sovereignty updated_at
                                         created_at last_sync].
  repeat split. destruct (tbl !! storage.Name peer); split; reflexivity.
Qed.

(** When registering the remote fails, the credential row has already
    been written and stays: an error that mentions "already exists" is
    swallowed, any other is returned. *)
Theorem AddFederationPeer_remote_failure (s s' : DoltStore R)
    (peer : storage.FederationPeer) (r r' : RandReader) (e : error) :
  AddFederationPeer s peer r
  = ((s', r'), Some (wrapError "failed to add dolt remote: " e "")) ->
  (~ exists a b, Error e = (a ++ "already exists" ++ b)%string) /\
  exists d tbl row,
    db s' = Some d /\ federation_peers d = Some tbl /\
    tbl !! storage.Name peer = Some row /\
    remote_url row = storage.RemoteURL peer.
Proof.
  unfold AddFederationPeer.
  destruct (validatePeerName (storage.Name peer)); [discriminate|].
  destruct (if negb (String.eqb (storage.Password peer) "") then _ else _)
    as [[enc [e0|]] r1]; [discriminate|].
  unfold exec_on_peers.
  destruct (db s) as [d|]; [|discriminate].
  destruct (federation_peers d) as [tbl|]; [|discriminate].
  cbn [remotes set_db].
  destruct (AddRemote _ _ _) as [rs [e1|]]; [|discriminate].
  destruct (Contains (Error e1) "already exists") eqn:Hc; cbn [negb]; [discriminate|].
  intros Heq. injection Heq as <- _ <-. split.
  - intros Hex. apply Contains_spec in Hex. congruence.
  - eexists _, _, _. split; [reflexivity|]. split; [reflexivity|].
    split; [apply upsert_peer_row | reflexivity].
Qed.

(** The other half: an "already exists" from the remote facility does not
    fail the call. *)
Lemma AddFederationPeer_already_exists (s : DoltStore R)
    (peer : storage.FederationPeer) (r : RandReader) (d : Database)
    (tbl : gmap string PeerRow) (rs : R) (e : error) :
  validatePeerName (storage.Name peer) = None ->
  storage.Password peer = EmptyString ->
  db s = Some d -> federation_peers d = Some tbl ->
  AddRemote (remotes s) (storage.Name peer) (storage.RemoteURL peer) = (rs, Some e) ->
  (exists a b, Error e = (a ++ "already exists" ++ b)%string) ->
  (AddFederationPeer s peer r).2 = None.
Proof.
  intros Hname Hpw Hdb Htbl Hadd Hex. apply Contains_spec in Hex.
  unfold AddFederationPeer, exec_on_peers.
  rewrite Hname, Hpw, Hdb, Htbl. cbn [String.eqb negb remotes set_db].
  now rewrite Hadd, Hex.
Qed.

(** Removing a peer succeeds whether or not the row existed and whether or
    not the remote could be removed; afterwards the peer is not found, and
    every other peer is read as before. *)
Theorem RemoveFederationPeer_then_Get (s : DoltStore R) (d : Database)
    (tbl : gmap string PeerRow) (name : string) :
  db s = Some d -> federation_peers d = Some tbl ->
  exists s',
    RemoveFederationPeer s name = (s', None) /\
    db s' = Some (mkDatabase (Some (delete name tbl)) (clock d)) /\
    (exists e, GetFederationPeer s' name = Returns (None, Some e) /\ IsNotFound e = true) /\
    (forall other, other <> name ->
                   GetFederationPeer s' other = GetFederationPeer s other).
Proof.
  intros Hdb Htbl. unfold RemoveFederationPeer, exec_on_peers.
  rewrite Hdb, Htbl. cbn [remotes set_db].
  destruct (RemoveRemote (remotes s) name) as [rs err].
  eexists. split; [reflexivity|]. split; [reflexivity|]. split.
  - unfold GetFederationPeer, set_remotes, set_db. cbn [db federation_peers].
    rewrite lookup_delete_eq. eexists. split; reflexivity.
  - intros other Hne. unfold GetFederationPeer, set_remotes, set_db.
    cbn [db federation_peers]. rewrite Hdb, Htbl.
    rewrite lookup_delete_ne by congruence.
    destruct (tbl !! other); reflexivity.
Qed.

End StoreWrites.

Lemma AddFederationPeer_upsert_witness :
  exists s' r' row,
    AddFederationPeer later_store (peer_of "origin" "https://x/y" "alice" "secret")
                      migration_rand = ((s', r'), None) /\
    (exists tbl', db s' = Some (mkDatabase (Some tbl') 2000) /\
                  tbl' !! "origin" = Some row) /\
    remote_url row = "https://x/y"%string /\ updated_at row = 2000 /\
    created_at row = 1000 /\ last_sync row = Some 1000.
Proof.
  assert (Hadd :
    AddFederationPeer later_store (peer_of "origin" "https://x/y" "alice" "secret")
                      migration_rand
    = (((AddFederationPeer later_store
           (peer_of "origin" "https://x/y" "alice" "secret") migration_rand).1.1,
        (AddFederationPeer later_store
           (peer_of "origin" "https://x/y" "alice" "secret") migration_rand).1.2),
       None)) by (vm_compute; reflexivity).
  destruct (AddFederationPeer_upsert later_store _ _ _ _
              (mkDatabase (Some {[ "origin" := synced_row ]}) 2000)
              {[ "origin" := synced_row ]} eq_refl eq_refl Hadd)
    as (tbl' & row & Hdb & _ & Hrow & Hurl & _ & _ & Hup & Hold).
  assert (Hlook : ({[ "origin" := synced_row ]} : gmap string PeerRow)
                    !! storage.Name (peer_of "origin" "https://x/y" "alice" "secret")
                  = Some synced_row) by (vm_compute; reflexivity).
  rewrite Hlook in Hold. destruct Hold as [Hc Hl].
  eexists _, _, row. split; [exact Hadd|].
  split; [exists tbl'; split; [exact Hdb | exact Hrow]|].
  split; [exact Hurl|]. split; [exact Hup|]. split; [exact Hc | exact Hl].
Defined.

Lemma AddFederationPeer_remote_failure_witness :
  exists s' d tbl row,
    AddFederationPeer (broken_store None) (peer_of "origin" "https://x/y" "bob" "")
                      migration_rand
    = ((s', migration_rand),
       Some (wrapError "failed to add dolt remote: "
               (errorString "dolt remote add failed: exit status 1") "")) /\
    db s' = Some d /\ federation_peers d = Some tbl /\
    tbl !! "origin" = Some row /\ remote_url row = "https://x/y"%string.
Proof.
  assert (Hadd :
    AddFederationPeer (broken_store None) (peer_of "origin" "https://x/y" "bob" "")
                      migration_rand
    = (((AddFederationPeer (broken_store None)
           (peer_of "origin" "https://x/y" "bob" "") migration_rand).1.1,
        migration_rand),
       Some (wrapError "failed to add dolt remote: "
               (errorString "dolt remote add failed: exit status 1") "")))
    by (vm_compute; reflexivity).
  destruct (AddFederationPeer_remote_failure _ _ _ _ _ _ Hadd)
    as (_ & d & tbl & row & Hdb & Htbl & Hrow & Hurl).
  eexists _, d, tbl, row. split; [exact Hadd|]. repeat split; assumption.
Defined.

Lemma RemoveFederationPeer_then_Get_witness :
  exists s',
    RemoveFederationPeer (broken_store None) "origin" = (s', None) /\
    exists e, GetFederationPeer s' "origin" = Returns (None, Some e) /\ IsNotFound e = true.
Proof.
  destruct (RemoveFederationPeer_then_Get (broken_store None)
              (mkDatabase (Some ∅) 1000) ∅ "origin" eq_refl eq_refl)
    as (s' & Hrm & _ & Hget & _).
  exists s'. split; [exact Hrm | exact Hget].
Defined.

Section Listing.

Context {R : Type} `{RemoteAdapter R}.

Lemma scan_peer_Some_inv (s : DoltStore R) (name : string) (row : PeerRow)
    (p : storage.FederationPeer) (err : option error) :
  scan_peer s name row = (Some p, err) ->
  err = None /\ exists password, p = row_peer name row password.
Proof.
  destruct (scan_peer_cases s name row) as [(pw & _ & ->) | (pw & e & _ & ->)];
    intros Heq; [|discriminate].
  injection Heq as <- <-. eauto.
Qed.

(** The loop of [ListFederationPeers]: all rows scanned in order, or the
    error of the first row that does not scan. *)
Lemma scan_peers_spec (s : DoltStore R) (rows : list (string * PeerRow))
    (acc : list storage.FederationPeer) :
  (exists peers,
     Forall2 (fun (nr : string * PeerRow) p => scan_peer s nr.1 nr.2 = (Some p, None))
             rows peers /\
     scan_peers s rows acc = (acc ++ peers, None)) \/
  (exists nr e,
     nr ∈ rows /\ scan_peer s nr.1 nr.2 = (None, Some e) /\
     scan_peers s rows acc = ([], Some e)).
Proof.
  revert acc. induction rows as [|[n row] rows IH]; intros acc.
  - left. exists []. split; [constructor | now rewrite List.app_nil_r].
  - cbn [scan_peers].
    destruct (scan_peer_cases s n row) as [(pw & _ & Hs) | (pw & e & _ & Hs)].
    + rewrite Hs.
      destruct (IH (acc ++ [row_peer n row pw]))
        as [(peers & Hall & Hres) | (nr & e & Hin & Hnr & Hres)].
      * left. exists (row_peer n row pw :: peers). split.
        -- constructor; [exact Hs | exact Hall].
        -- rewrite Hres, <- List.app_assoc. reflexivity.
      * right. exists nr, e. split; [apply elem_of_cons; now right|]. now split.
    + rewrite Hs. right.
      exists (n, row), (wrapError "failed to decrypt password: " e "").
      split; [apply elem_of_cons; now left|]. now split.
Qed.

Lemma Forall2_elem_of_left {A B : Type} (P : A -> B -> Prop) (l : list A)
    (k : list B) (x : A) :
  Forall2 P l k -> x ∈ l -> exists y, y ∈ k /\ P x y.
Proof.
  induction 1 as [|a b l k Hab _ IH]; intros Hin; [inversion Hin|].
  apply elem_of_cons in Hin as [-> | Hin].
  - exists b. split; [apply elem_of_cons; now left | exact Hab].
  - destruct (IH Hin) as (y & Hy & Hp). exists y.
    split; [apply elem_of_cons; now right | exact Hp].
Qed.

Lemma Forall2_elem_of_right {A B : Type} (P : A -> B -> Prop) (l : list A)
    (k : list B) (y : B) :
  Forall2 P l k -> y ∈ k -> exists x, x ∈ l /\ P x y.
Proof.
  induction 1 as [|a b l k Hab _ IH]; intros Hin; [inversion Hin|].
  apply elem_of_cons in Hin as [-> | Hin].
  - exists a. split; [apply elem_of_cons; now left | exact Hab].
  - destruct (IH Hin) as (x & Hx & Hp). exists x.
    split; [apply elem_of_cons; now right | exact Hp].
Qed.

Lemma scanned_names (s : DoltStore R) (rows : list (string * PeerRow))
    (peers : list storage.FederationPeer) :
  Forall2 (fun (nr : string * PeerRow) p => scan_peer s nr.1 nr.2 = (Some p, None))
          rows peers ->
  storage.Name <$> peers = rows.*1.
Proof.
  induction 1 as [|[n row] p rows peers Hs _ IH]; [reflexivity|].
  cbn [fmap list_fmap fst]. cbn [fst snd] in Hs.
  apply scan_peer_Some_inv in Hs as (_ & pw & ->). now rewrite IH.
Qed.

Lemma name_le_total : Total name_le.
Proof.
  intros [n1 r1] [n2 r2]. unfold name_le. cbn [fst].
  destruct (String.le_total n1 n2) as [Hle | Hle]; [left | right];
    now apply Is_true_true.
Qed.

Lemma sorted_rows (tbl : gmap string PeerRow) :
  Sorted String.le ((merge_sort name_le (map_to_list tbl)).*1) /\
  NoDup ((merge_sort name_le (map_to_list tbl)).*1).
Proof.
  split.
  - apply (Sorted_fmap fst name_le String.le).
    + intros x y Hxy. now apply Is_true_true.
    + apply (@Sorted_merge_sort _ name_le _ name_le_total).
  - rewrite merge_sort_Permutation. apply NoDup_fst_map_to_list.
Qed.

(** A listing that succeeds returns one peer per row, in ascending order of
    name, each exactly as [GetFederationPeer] returns it; and the listing
    fails precisely when some stored peer cannot be read. *)
Theorem ListFederationPeers_spec (s : DoltStore R) (d : Database)
    (tbl : gmap string PeerRow) :
  db s = Some d -> federation_peers d = Some tbl ->
  (forall peers,
     ListFederationPeers s = (peers, None) ->
     Sorted String.le (storage.Name <$> peers) /\
     NoDup (storage.Name <$> peers) /\
     length peers = size tbl /\
     forall p, p ∈ peers <-> GetFederationPeer s (storage.Name p) = Returns (Some p, None)) /\
  ((ListFederationPeers s).2 <> None <->
   exists name row e, tbl !! name = Some row /\
                      GetFederationPeer s name = Returns (None, Some e)).
Proof.
  intros Hdb Htbl.
  assert (Hget : forall name row, tbl !! name = Some row ->
                   GetFederationPeer s name = Returns (scan_peer s name row)).
  { intros name row Hrow. now apply (GetFederationPeer_row s name d tbl row). }
  unfold ListFederationPeers. rewrite Hdb, Htbl.
  set (rows := merge_sort name_le (map_to_list tbl)).
  assert (Hrows : forall name row, (name, row) ∈ rows <-> tbl !! name = Some row).
  { intros name row. unfold rows. rewrite merge_sort_Permutation.
    apply elem_of_map_to_list. }
  destruct (sorted_rows tbl) as [Hsorted Hnodup]. fold rows in Hsorted, Hnodup.
  destruct (scan_peers_spec s rows [])
    as [(peers & Hall & Hres) | (nr & e & Hin & Hnr & Hres)]; rewrite Hres.
  - rewrite List.app_nil_l. split.
    + intros peers' Heq. injection Heq as <-.
      rewrite (scanned_names s rows peers Hall).
      split; [exact Hsorted|]. split; [exact Hnodup|]. split.
      * rewrite <- (Forall2_length _ _ _ Hall). unfold rows.
        rewrite merge_sort_Permutation. apply length_map_to_list.
      * intros p. split.
        -- intros Hp.
           destruct (Forall2_elem_of_right _ _ _ p Hall Hp) as ([n row] & Hnrow & Hs).
           cbn [fst snd] in Hs.
           pose proof Hs as Hs'. apply scan_peer_Some_inv in Hs' as (_ & pw & ->).
           cbn [storage.Name row_peer]. rewrite (Hget n row); [now rewrite Hs|].
           now apply Hrows.
        -- intros Hp. destruct (tbl !! storage.Name p) as [row|] eqn:Hrow.
           ++ rewrite (Hget _ row Hrow) in Hp.
              apply Hrows in Hrow.
              destruct (Forall2_elem_of_left _ _ _ _ Hall Hrow) as (p' & Hp' & Hs).
              cbn [fst snd] in Hs. rewrite Hs in Hp. now injection Hp as <-.
           ++ unfold GetFederationPeer in Hp. rewrite Hdb, Htbl, Hrow in Hp.
              discriminate.
    + cbn [snd]. split; [contradiction|].
      intros (name & row & e & Hrow & Hfail).
      rewrite (Hget name row Hrow) in Hfail. apply Hrows in Hrow.
      destruct (Forall2_elem_of_left _ _ _ _ Hall Hrow) as (p' & _ & Hs).
      cbn [fst snd] in Hs. congruence.
  - split; [intros peers Heq; discriminate|].
    cbn [snd]. split; [|discriminate]. intros _.
    destruct nr as [n row]. cbn [fst snd] in Hnr.
    exists n, row, e. apply Hrows in Hin. split; [exact Hin|].
    now rewrite (Hget n row Hin), Hnr.
Qed.

End Listing.

Lemma ListFederationPeers_spec_witness :
  exists peers,
    ListFederationPeers two_peer_store = (peers, None) /\
    storage.Name <$> peers = ["alpha"; "zeta"]%string /\
    Sorted String.le (storage.Name <$> peers) /\ length peers = 2%nat.
Proof.
  assert (Hlist : ListFederationPeers two_peer_store
                  = ((ListFederationPeers two_peer_store).1, None))
    by (vm_compute; reflexivity).
  destruct (proj1 (ListFederationPeers_spec two_peer_store _ _ eq_refl eq_refl)
              _ Hlist) as (Hsorted & _ & Hlen & _).
  eexists. split; [exact Hlist|]. split; [vm_compute; reflexivity|].
  split; [exact Hsorted | exact Hlen].
Defined.

(* ================================================================== *)
(** * Further properties of the key bootstrap *)
(* ================================================================== *)

Section Bootstrap.

Context {R : Type} `{RemoteAdapter R}.
Context {F : Type} `{FileSystem F}.

(** A migration to a 32-byte key cannot fail, and it changes nothing but the
    peer table. *)
Lemma migrateCredentialKeys_total (s : DoltStore R) (newKey : bytes) (r : RandReader) :
  length newKey = 32%nat ->
  exists s1 r1,
    migrateCredentialKeys s newKey r = ((s1, r1), None) /\
    dbPath s1 = dbPath s /\ credentialKey s1 = credentialKey s /\
    remotes s1 = remotes s.
Proof.
  intros HK. destruct (db s) as [d|] eqn:Hdb.
  - destruct (federation_peers d) as [tbl|] eqn:Htbl.
    + destruct (migrateCredentialKeys_table s newKey r d tbl HK Hdb Htbl)
        as (tbl' & r' & Hrun & _). eexists _, _. split; [exact Hrun|]. now repeat split.
    + exists s, r. split; [now apply (migrateCredentialKeys_no_table s newKey r d)|].
      now repeat split.
  - exists s, r. split; [now apply migrateCredentialKeys_no_db|]. now repeat split.
Qed.

(** An existing key file of exactly 32 bytes is loaded; nothing is written,
    no random byte is drawn and the database is not touched. *)
Lemma initCredentialKey_load (s : DoltStore R) (fs : F) (r : RandReader)
    (key : bytes) :
  dbPath s <> EmptyString ->
  ReadFile fs (keyPath_of s) = (key, None) -> length key = 32%nat ->
  initCredentialKey s fs r = ((set_credentialKey s key, fs, r), None).
Proof.
  intros Hp Hfile Hlen. unfold initCredentialKey.
  apply String.eqb_neq in Hp. rewrite Hp.
  fold (keyPath_of s). rewrite Hfile. cbn [is_nil andb]. now rewrite Hlen.
Qed.

(** Without a usable key file the key is generated and the peers are
    migrated; then the directory is made and the key file written, and a
    failure of either is returned. *)
Lemma initCredentialKey_generate (s : DoltStore R) (fs : F) (r : RandReader) :
  dbPath s <> EmptyString ->
  no_usable_key fs (keyPath_of s) ->
  initCredentialKey s fs r
  = match migrateCredentialKeys s (ReadFull r 32).1 (ReadFull r 32).2 with
    | ((s1, r2), Some err) =>
        ((s1, fs, r2), Some (wrapError "failed to migrate credential keys: " err ""))
    | ((s1, r2), None) =>
        match MkdirAll fs (dbPath s) 448 with
        | (fs1, Some err) =>
            ((s1, fs1, r2),
             Some (wrapError "failed to create directory for credential key: " err ""))
        | (fs1, None) =>
            match WriteFile fs1 (keyPath_of s) (ReadFull r 32).1 384 with
            | (fs2, Some err) =>
                ((s1, fs2, r2),
                 Some (wrapError "failed to write credential key file: " err ""))
            | (fs2, None) => ((set_credentialKey s1 (ReadFull r 32).1, fs2, r2), None)
            end
        end
    end.
Proof.
  intros Hp Hnokey. unfold initCredentialKey.
  apply String.eqb_neq in Hp. rewrite Hp. fold (keyPath_of s).
  unfold no_usable_key in Hnokey.
  destruct (ReadFile fs (keyPath_of s)) as [key [e|]]; cbn [fst snd] in Hnokey.
  - cbn [is_nil andb]. now destruct (ReadFull r 32).
  - cbn [is_nil andb]. destruct Hnokey as [Hne | Hne]; [contradiction|].
    apply Nat.eqb_neq in Hne. rewrite Hne. now destruct (ReadFull r 32).
Qed.

(** Key bootstrap on a data directory without a usable key file, when the
    file system makes the directory and writes the file: it succeeds; the
    key is the next 32 random bytes; the file system is left as
    [MkdirAll dbPath 0700] followed by [WriteFile keyPath key 0600] left
    it; and every later initialisation against that directory, by this or
    another store instance, on a file system from which the key file reads
    back as written, loads the same key without writing or drawing
    randomness. *)
Theorem initCredentialKey_persists (s : DoltStore R) (fs fs1 fs2 : F) (r : RandReader) :
  dbPath s <> EmptyString ->
  no_usable_key fs (keyPath_of s) ->
  MkdirAll fs (dbPath s) 448 = (fs1, None) ->
  WriteFile fs1 (keyPath_of s) (ReadFull r 32).1 384 = (fs2, None) ->
  exists s' r',
    initCredentialKey s fs r = ((s', fs2, r'), None) /\
    credentialKey s' = Some (ReadFull r 32).1 /\
    length (ReadFull r 32).1 = 32%nat /\
    dbPath s' = dbPath s /\
    (forall (s2 : DoltStore R) (r2 : RandReader),
       dbPath s2 = dbPath s ->
       ReadFile fs2 (keyPath_of s) = ((ReadFull r 32).1, None) ->
       initCredentialKey s2 fs2 r2
       = ((set_credentialKey s2 (ReadFull r 32).1, fs2, r2), None)).
Proof.
  intros Hp Hnokey Hmkdir Hwrite.
  assert (Hlen : length (ReadFull r 32).1 = 32%nat) by apply length_ReadFull.
  rewrite (initCredentialKey_generate s fs r Hp Hnokey).
  destruct (migrateCredentialKeys_total s (ReadFull r 32).1 (ReadFull r 32).2 Hlen)
    as (s1 & r1 & -> & Hpath & _ & _).
  rewrite Hmkdir, Hwrite.
  exists (set_credentialKey s1 (ReadFull r 32).1), r1.
  split; [reflexivity|]. split; [reflexivity|]. split; [exact Hlen|].
  split; [exact Hpath|].
  intros s2 r2 Hsame Hread.
  eapply initCredentialKey_load; [congruence | | exact Hlen].
  unfold keyPath_of. rewrite Hsame. exact Hread.
Qed.

(** After a bootstrap in which the directory is made and the key file is
    written, a password that the old scheme had sealed under the legacy key
    is read back unchanged through the new key. *)
Theorem initCredentialKey_then_Get (s : DoltStore R) (fs fs1 fs2 : F) (r : RandReader)
    (d : Database) (tbl : gmap string PeerRow) (name : string) (row : PeerRow)
    (password : string) :
  dbPath s <> EmptyString ->
  no_usable_key fs (keyPath_of s) ->
  MkdirAll fs (dbPath s) 448 = (fs1, None) ->
  WriteFile fs1 (keyPath_of s) (ReadFull r 32).1 384 = (fs2, None) ->
  db s = Some d -> federation_peers d = Some tbl ->
  tbl !! name = Some row ->
  legacy_plaintext (legacyEncryptionKey s) row = Some password ->
  exists s' r' p,
    initCredentialKey s fs r = ((s', fs2, r'), None) /\
    GetFederationPeer s' name = Returns (Some p, None) /\
    storage.Password p = password /\
    storage.RemoteURL p = remote_url row.
Proof.
  intros Hp Hnokey Hmkdir Hwrite Hdb Htbl Hrow Hleg.
  assert (Hlen : length (ReadFull r 32).1 = 32%nat) by apply length_ReadFull.
  rewrite (initCredentialKey_generate s fs r Hp Hnokey).
  destruct (migrateCredentialKeys_table s (ReadFull r 32).1 (ReadFull r 32).2 d tbl
              Hlen Hdb Htbl) as (tbl' & r' & -> & _ & Hrows).
  rewrite Hmkdir, Hwrite.
  specialize (Hrows name row Hrow). rewrite Hleg in Hrows.
  destruct Hrows as (enc & Hrow' & Hdec).
  eexists _, _, (row_peer name (set_password_encrypted enc row) password).
  split; [reflexivity|]. split; [|split; reflexivity].
  unfold GetFederationPeer, set_credentialKey, set_db. cbn [db federation_peers].
  rewrite Hrow', scan_peer_decrypt.
  cbn [password_encrypted set_password_encrypted default from_option id].
  unfold decryptPassword. cbn [credentialKey].
  destruct enc as [|b enc].
  - exfalso. revert Hdec. unfold decryptWithKey.
    rewrite (NewCipher_32 _ Hlen). cbn. discriminate.
  - cbn [length Nat.eqb]. now rewrite Hdec.
Qed.


End Bootstrap.

Lemma initCredentialKey_persists_witness :
  dbPath (store_of_rows legacy_rows) <> EmptyString /\
  no_usable_key empty_disk (keyPath_of (store_of_rows legacy_rows)) /\
  exists s' fs' r',
    initCredentialKey (store_of_rows legacy_rows) empty_disk migration_rand
    = ((s', fs', r'), None) /\
    credentialKey s' = Some (ReadFull migration_rand 32).1 /\
    files fs' !! "/data/beads/.beads-credential-key"%string
    = Some ((ReadFull migration_rand 32).1, 384) /\
    dirs fs' !! "/data/beads"%string = Some 448 /\
    initCredentialKey (store_of_rows legacy_rows) fs' migration_rand
    = ((set_credentialKey (store_of_rows legacy_rows) (ReadFull migration_rand 32).1,
        fs', migration_rand), None).
Proof.
  assert (Hp : dbPath (store_of_rows legacy_rows) <> EmptyString) by discriminate.
  assert (Hno : no_usable_key empty_disk (keyPath_of (store_of_rows legacy_rows)))
    by (left; vm_compute; discriminate).
  split; [exact Hp|]. split; [exact Hno|].
  set (fs1 := (MkdirAll empty_disk "/data/beads" 448).1).
  set (fs2 := (WriteFile fs1 "/data/beads/.beads-credential-key"
                 (ReadFull migration_rand 32).1 384).1).
  assert (Hmkdir : MkdirAll empty_disk (dbPath (store_of_rows legacy_rows)) 448
                   = (fs1, None)) by (vm_compute; reflexivity).
  assert (Hwrite : WriteFile fs1 (keyPath_of (store_of_rows legacy_rows))
                     (ReadFull migration_rand 32).1 384 = (fs2, None))
    by (vm_compute; reflexivity).
  assert (Hread : ReadFile fs2 (keyPath_of (store_of_rows legacy_rows))
                  = ((ReadFull migration_rand 32).1, None))
    by (vm_compute; reflexivity).
  destruct (initCredentialKey_persists (store_of_rows legacy_rows) empty_disk
              fs1 fs2 migration_rand Hp Hno Hmkdir Hwrite)
    as (s' & r' & Hinit & Hkey & _ & _ & Hagain).
  exists s', fs2, r'. split; [exact Hinit|]. split; [exact Hkey|].
  split; [vm_compute; reflexivity|]. split; [vm_compute; reflexivity|].
  now apply Hagain.
Defined.

Lemma initCredentialKey_then_Get_witness :
  legacy_plaintext (legacyEncryptionKey (store_of_rows legacy_rows))
    (row_with_blob (legacy_blob "secret")) = Some "secret"%string /\
  exists s' fs' r' p,
    initCredentialKey (store_of_rows legacy_rows) empty_disk migration_rand
    = ((s', fs', r'), None) /\
    GetFederationPeer s' "origin" = Returns (Some p, None) /\
    storage.Password p = "secret"%string.
Proof.
  assert (Hleg : legacy_plaintext (legacyEncryptionKey (store_of_rows legacy_rows))
                   (row_with_blob (legacy_blob "secret")) = Some "secret"%string)
    by (vm_compute; reflexivity).
  assert (Hrow : legacy_rows !! "origin" = Some (row_with_blob (legacy_blob "secret")))
    by (vm_compute; reflexivity).
  split; [exact Hleg|].
  set (fs1 := (MkdirAll empty_disk "/data/beads" 448).1).
  set (fs2 := (WriteFile fs1 "/data/beads/.beads-credential-key"
                 (ReadFull migration_rand 32).1 384).1).
  assert (Hmkdir : MkdirAll empty_disk (dbPath (store_of_rows legacy_rows)) 448
                   = (fs1, None)) by (vm_compute; reflexivity).
  assert (Hwrite : WriteFile fs1 (keyPath_of (store_of_rows legacy_rows))
                     (ReadFull migration_rand 32).1 384 = (fs2, None))
    by (vm_compute; reflexivity).
  destruct (initCredentialKey_then_Get (store_of_rows legacy_rows) empty_disk
              fs1 fs2 migration_rand (mkDatabase (Some legacy_rows) 1000) legacy_rows
              "origin" (row_with_blob (legacy_blob "secret")) "secret")
    as (s' & r' & p & Hinit & Hget & Hpw & _);
    [discriminate | left; vm_compute; discriminate | exact Hmkdir | exact Hwrite
     | reflexivity | reflexivity | exact Hrow | exact Hleg |].
  exists s', fs2, r', p.
  split; [exact Hinit|]. split; [exact Hget | exact Hpw].
Defined.


(** The same bootstrap when the name of the key file is taken by a
    directory: the directory is there, the write fails. *)
Example initCredentialKey_occupied :
  (initCredentialKey (store_of_rows legacy_rows) occupied_disk migration_rand).2
  = Some (wrapError "failed to write credential key file: "
            (errorString "open /data/beads/.beads-credential-key: is a directory") "") /\
  credentialKey
    (initCredentialKey (store_of_rows legacy_rows) occupied_disk migration_rand).1.1.1
  = None.
Proof. split; vm_compute; reflexivity. Qed.

(* ================================================================== *)
(** * Further properties of credential lookup and delivery *)
(* ================================================================== *)

Section Lookup.

Context {R : Type} `{RemoteAdapter R}.
Variable wrapExecError : string -> option error -> option error.

(** The credentials built from a peer, in terms of [credentials_for]. *)
Lemma credentials_for_peer (p : storage.FederationPeer) :
  (if negb (String.eqb (storage.Username p) "")
      || negb (String.eqb (storage.Password p) "")
   then Some (mkRemoteCredentials (storage.Username p) (storage.Password p))
   else None)
  = credentials_for (storage.Username p) (storage.Password p).
Proof.
  unfold credentials_for.
  now destruct (String.eqb (storage.Username p) ""),
               (String.eqb (storage.Password p) "").
Qed.

(** [withPeerCredentials] on a peer that can be read. *)
Lemma withPeerCredentials_found (s : DoltStore R) (name : string)
    (fn : option remoteCredentials -> DoltStore R -> DoltStore R * option error)
    (p : storage.FederationPeer) :
  GetFederationPeer s name = Returns (Some p, None) ->
  withPeerCredentials wrapExecError s name fn
  = Returns
      match fn (credentials_for (storage.Username p) (storage.Password p)) s with
      | (s1, None) => ((updatePeerLastSync wrapExecError s1 name).1, None)
      | (s1, Some e) => (s1, Some e)
      end.
Proof.
  intros Hget. unfold withPeerCredentials. rewrite Hget, credentials_for_peer.
  now destruct (fn _ s) as [s1 [e|]].
Qed.

(** [withPeerCredentials]: without a connection the lookup panics and the
    panic passes through; when the lookup returns an error the callback is
    not run and the store is untouched; otherwise the callback receives no
    credentials exactly when user name and password are both empty, the
    call returns the callback's own error whatever happens to the
    timestamp, the timestamp is written only after a success, and then it
    is the only column that changes. *)
Theorem withPeerCredentials_outcomes (s : DoltStore R) (name : string)
    (fn : option remoteCredentials -> DoltStore R -> DoltStore R * option error) :
  (db s = None ->
   exists v, GetFederationPeer s name = Panics v /\
             withPeerCredentials wrapExecError s name fn = Panics v) /\
  (forall o e,
     GetFederationPeer s name = Returns (o, Some e) ->
     withPeerCredentials wrapExecError s name fn
     = Returns (s, Some (wrapError "failed to get peer credentials: " e ""))) /\
  (forall p,
     GetFederationPeer s name = Returns (Some p, None) ->
     let creds := credentials_for (storage.Username p) (storage.Password p) in
     exists res,
       withPeerCredentials wrapExecError s name fn = Returns res /\
       (empty creds = true <->
        storage.Username p = EmptyString /\ storage.Password p = EmptyString) /\
       res.2 = (fn creds s).2 /\
       ((fn creds s).2 <> None -> res.1 = (fn creds s).1) /\
       ((fn creds s).2 = None ->
        forall d1 tbl1,
          db (fn creds s).1 = Some d1 -> federation_peers d1 = Some tbl1 ->
          db res.1
          = Some (mkDatabase (Some (alter (set_last_sync (clock d1)) name tbl1))
                             (clock d1)) /\
          (forall row, tbl1 !! name = Some row ->
             alter (set_last_sync (clock d1)) name tbl1 !! name
             = Some (mkPeerRow (remote_url row) (username row) (password_encrypted row)
                       (sovereignty row) (Some (clock d1)) (created_at row)
                       (updated_at row))) /\
          (forall other, other <> name ->
             alter (set_last_sync (clock d1)) name tbl1 !! other = tbl1 !! other) /\
          credentialKey res.1 = credentialKey (fn creds s).1 /\
          remotes res.1 = remotes (fn creds s).1)).
Proof.
  split; [|split].
  - intros Hdb. unfold withPeerCredentials, GetFederationPeer. rewrite Hdb.
    eexists. split; reflexivity.
  - intros o e Hget. unfold withPeerCredentials. now rewrite Hget.
  - intros p Hget creds.
    rewrite (withPeerCredentials_found s name fn p Hget). fold creds.
    eexists. split; [reflexivity|].
    split.
    { unfold creds, credentials_for, empty.
      destruct (String.eqb (storage.Username p) "") eqn:Hue,
               (String.eqb (storage.Password p) "") eqn:Hpe;
        cbn [andb Username Password]; rewrite ?Hue, ?Hpe; cbn [andb];
        rewrite ?String.eqb_eq, ?String.eqb_neq in *;
        (split; [try discriminate; tauto | tauto]). }
    destruct (fn creds s) as [s1 [e|]]; cbn [fst snd].
    + split; [reflexivity|]. split; [reflexivity | discriminate].
    + split; [reflexivity|]. split; [contradiction|].
      intros _ d1 tbl1 Hdb Htbl. unfold updatePeerLastSync, exec_on_peers.
      rewrite Hdb, Htbl. cbn [fst]. split; [reflexivity|]. split.
      { intros row Hrow. rewrite lookup_alter_eq, Hrow. reflexivity. }
      split; [|now split].
      intros other Hne. now apply lookup_alter_ne.
Qed.

(** End to end: the callback of [withPeerCredentials] receives the user
    name and the password the peer was added with, and its error is what
    the call returns. *)
Theorem withPeerCredentials_after_Add (s s' : DoltStore R)
    (peer : storage.FederationPeer) (r r' : RandReader)
    (fn : option remoteCredentials -> DoltStore R -> DoltStore R * option error) :
  AddFederationPeer s peer r = ((s', r'), None) ->
  let creds := credentials_for (storage.Username peer) (storage.Password peer) in
  (exists res,
     withPeerCredentials wrapExecError s' (storage.Name peer) fn = Returns res /\
     res.2 = (fn creds s').2) /\
  (creds = None <->
   storage.Username peer = EmptyString /\ storage.Password peer = EmptyString) /\
  (forall c, creds = Some c ->
     Username c = storage.Username peer /\ Password c = storage.Password peer).
Proof.
  intros Hadd creds.
  destruct (AddFederationPeer_scanned s s' peer r r' Hadd)
    as (row & Hget & _ & Huser & _).
  split.
  - rewrite (withPeerCredentials_found s' _ fn _ Hget). unfold row_peer.
    cbn [storage.Username storage.Password]. rewrite Huser. cbn [default from_option id].
    fold creds. eexists. split; [reflexivity|].
    now destruct (fn creds s') as [s1 [e|]].
  - unfold creds, credentials_for.
    destruct (String.eqb (storage.Username peer) "") eqn:Hue,
             (String.eqb (storage.Password peer) "") eqn:Hpe; cbn [andb];
      rewrite ?String.eqb_eq, ?String.eqb_neq in *.
    + split; [tauto|]. discriminate.
    + split; [split; [discriminate | tauto]|]. intros c [= <-]. now split.
    + split; [split; [discriminate | tauto]|]. intros c [= <-]. now split.
    + split; [split; [discriminate | tauto]|]. intros c [= <-]. now split.
Qed.

End Lookup.

Lemma withPeerCredentials_outcomes_witness :
  GetFederationPeer keyless_store "origin"
  = Returns (Some (row_peer "origin" row_without_password ""), None) /\
  withPeerCredentials plain_wrap keyless_store "origin" sync_fails
  = Returns (keyless_store, Some (errorString "push rejected")).
Proof.
  assert (Hget : GetFederationPeer keyless_store "origin"
                 = Returns (Some (row_peer "origin" row_without_password ""), None))
    by (vm_compute; reflexivity).
  split; [exact Hget|].
  destruct (proj2 (proj2 (withPeerCredentials_outcomes plain_wrap keyless_store "origin"
                            sync_fails)) _ Hget) as (res & Hrun & _ & Herr & Hkeep & _).
  rewrite Hrun. f_equal. destruct res as [s1 err]. cbn [fst snd] in *.
  rewrite Herr, Hkeep; [reflexivity | discriminate].
Defined.

Lemma withPeerCredentials_after_Add_witness :
  exists s' r' res,
    AddFederationPeer keyed_store (peer_of "origin" "https://x/y" "bob" "secret")
                      migration_rand = ((s', r'), None) /\
    withPeerCredentials plain_wrap s' "origin" sync_fails = Returns res /\
    res.2 = Some (errorString "push rejected").
Proof.
  assert (Hadd :
    AddFederationPeer keyed_store (peer_of "origin" "https://x/y" "bob" "secret")
                      migration_rand
    = (((AddFederationPeer keyed_store (peer_of "origin" "https://x/y" "bob" "secret")
                      migration_rand).1.1,
        (AddFederationPeer keyed_store (peer_of "origin" "https://x/y" "bob" "secret")
                      migration_rand).1.2), None))
    by (vm_compute; reflexivity).
  destruct (proj1 (withPeerCredentials_after_Add plain_wrap _ _ _ _ _ sync_fails Hadd))
    as (res & Hrun & Herr).
  eexists _, _, res. split; [exact Hadd|]. split; [exact Hrun | exact Herr].
Defined.

(* ================================================================== *)
(** * Further properties of the in-process credential path *)
(* ================================================================== *)

(** The locked path, step by step. *)
Lemma withEnvCredentials_locked (c : remoteCredentials) (fn : Operation) (p : Process) :
  empty (Some c) = false ->
  federationEnvMutex p = false ->
  withEnvCredentials (Some c) fn p
  = Some ((fn (credentialed_env c (environ p))).1,
          mkProcess
            (Unsetenv (Unsetenv (fn (credentialed_env c (environ p))).2
                         "DOLT_REMOTE_USER") "DOLT_REMOTE_PASSWORD")
            false
            (trace p ++ [EvLock] ++ setenv_events c
             ++ [EvCall (credentialed_env c (environ p));
                 EvUnsetenv "DOLT_REMOTE_USER";
                 EvUnsetenv "DOLT_REMOTE_PASSWORD"; EvUnlock])).
Proof.
  intros He Hm. unfold withEnvCredentials. rewrite He. unfold Lock. rewrite Hm.
  unfold setFederationCredentials, call, run_deferred, os_Setenv.
  unfold credentialed_env, setenv_nonempty, setenv_events.
  unfold empty in He.
  destruct (String.eqb (Username c) "") eqn:Hu,
           (String.eqb (Password c) "") eqn:Hp;
    try discriminate He;
    cbn [negb environ federationEnvMutex trace] in *;
    match goal with |- context [fn ?e] => destruct (fn e) as [res env_out] end;
    unfold os_Unsetenv, Unlock;
    cbn [fold_left environ federationEnvMutex trace fst snd];
    rewrite <- ?List.app_assoc; reflexivity.
Qed.

(** [withEnvCredentials] touches no variable but the two credential
    variables: for nil, empty and non-empty credentials alike, the
    operation finds every other variable as the caller had it, and the
    caller finds every other variable as the operation left it.  With nil
    or empty credentials the mutex is not taken and the two credential
    variables pass through as well. *)
Theorem withEnvCredentials_other_variables (creds : option remoteCredentials)
    (fn : Operation) (p : Process) :
  federationEnvMutex p = false ->
  let env_in := env_seen creds (environ p) in
  exists p',
    withEnvCredentials creds fn p = Some ((fn env_in).1, p') /\
    federationEnvMutex p' = false /\
    (forall k, k <> "DOLT_REMOTE_USER"%string -> k <> "DOLT_REMOTE_PASSWORD"%string ->
       LookupEnv env_in k = LookupEnv (environ p) k /\
       LookupEnv (environ p') k = LookupEnv (fn env_in).2 k) /\
    (empty creds = true ->
     env_in = environ p /\ environ p' = (fn env_in).2 /\
     trace p' = trace p ++ [EvCall (environ p)]).
Proof.
  intros Hm env_in. destruct (empty creds) eqn:He.
  - assert (Hin : env_in = environ p).
    { unfold env_in, env_seen. destruct creds; [now rewrite He | reflexivity]. }
    rewrite (withEnvCredentials_empty creds fn p He), Hin. unfold call.
    destruct (fn (environ p)) as [res env_out] eqn:Hfn.
    eexists. split; [reflexivity|]. cbn [environ federationEnvMutex trace fst snd].
    split; [exact Hm|]. split; [now intros|]. now intros _.
  - destruct creds as [c|]; [|discriminate He].
    assert (Hin : env_in = credentialed_env c (environ p)).
    { unfold env_in, env_seen. now rewrite He. }
    rewrite (withEnvCredentials_locked c fn p He Hm), Hin.
    eexists. split; [reflexivity|]. cbn [environ federationEnvMutex trace].
    split; [reflexivity|]. split; [|discriminate].
    intros k Hu Hp. split.
    + unfold credentialed_env. now rewrite !LookupEnv_setenv_nonempty_ne.
    + rewrite !LookupEnv_Unsetenv.
      apply String.eqb_neq in Hu, Hp. now rewrite Hu, Hp.
Qed.

Lemma withEnvCredentials_other_variables_witness :
  federationEnvMutex ambient = false /\
  exists p',
    withEnvCredentials (Some alpha) failing_push ambient
    = Some (Returned (Some (errorString "push failed")), p') /\
    LookupEnv (environ p') "PATH" = Some "/usr/bin"%string /\
    LookupEnv (environ p') "PUSHED" = Some "no"%string.
Proof.
  split; [reflexivity|].
  destruct (withEnvCredentials_other_variables (Some alpha) failing_push ambient eq_refl)
    as (p' & Hrun & _ & Hvars & _).
  exists p'. split; [exact Hrun|]. split.
  - now rewrite (proj2 (Hvars "PATH"%string ltac:(discriminate) ltac:(discriminate))).
  - now rewrite (proj2 (Hvars "PUSHED"%string ltac:(discriminate) ltac:(discriminate))).
Defined.

(** Two calls in a row: the second call is not blocked, and its operation
    finds in each credential variable the second credential or nothing,
    never what the first call or its operation had put there. *)
Theorem withEnvCredentials_sequential (c1 c2 : remoteCredentials)
    (fn1 fn2 : Operation) (p : Process) :
  empty (Some c1) = false -> empty (Some c2) = false ->
  federationEnvMutex p = false ->
  exists res1 p1 p2,
    withEnvCredentials (Some c1) fn1 p = Some (res1, p1) /\
    let env_in := credentialed_env c2 (environ p1) in
    withEnvCredentials (Some c2) fn2 p1 = Some ((fn2 env_in).1, p2) /\
    LookupEnv env_in "DOLT_REMOTE_USER" = fresh_value (Username c2) /\
    LookupEnv env_in "DOLT_REMOTE_PASSWORD" = fresh_value (Password c2) /\
    LookupEnv (environ p2) "DOLT_REMOTE_USER" = None /\
    LookupEnv (environ p2) "DOLT_REMOTE_PASSWORD" = None /\
    federationEnvMutex p2 = false.
Proof.
  intros He1 He2 Hm.
  rewrite (withEnvCredentials_locked c1 fn1 p He1 Hm).
  eexists _, _, _. split; [reflexivity|].
  cbn zeta. rewrite withEnvCredentials_locked; [| exact He2 | reflexivity].
  split; [reflexivity|].
  cbn [environ federationEnvMutex trace].
  unfold credentialed_env at 1 3, fresh_value.
  split; [|split; [|split; [|split]]].
  - rewrite LookupEnv_setenv_nonempty_ne by discriminate.
    rewrite LookupEnv_setenv_nonempty_eq by reflexivity.
    now rewrite !LookupEnv_Unsetenv.
  - rewrite LookupEnv_setenv_nonempty_eq by reflexivity.
    rewrite LookupEnv_setenv_nonempty_ne by discriminate.
    now rewrite !LookupEnv_Unsetenv.
  - now rewrite !LookupEnv_Unsetenv.
  - now rewrite !LookupEnv_Unsetenv.
  - reflexivity.
Qed.

Lemma withEnvCredentials_sequential_witness :
  empty (Some alpha) = false /\ empty (Some user_only) = false /\
  federationEnvMutex ambient = false /\
  exists res1 p1 p2,
    withEnvCredentials (Some alpha) failing_push ambient = Some (res1, p1) /\
    withEnvCredentials (Some user_only) quiet_pull p1 = Some (Returned None, p2) /\
    LookupEnv (credentialed_env user_only (environ p1)) "DOLT_REMOTE_PASSWORD" = None.
Proof.
  split; [reflexivity|]. split; [reflexivity|]. split; [reflexivity|].
  destruct (withEnvCredentials_sequential alpha user_only failing_push quiet_pull
              ambient eq_refl eq_refl eq_refl)
    as (res1 & p1 & p2 & Hrun1 & Hrun2 & _ & Hpw & _).
  exists res1, p1, p2. split; [exact Hrun1|]. split; [exact Hrun2 | exact Hpw].
Defined.

(* ================================================================== *)
(** * Remote URLs *)
(* ================================================================== *)

(** [IsSSHURL] holds exactly for the URLs that start with [git+ssh://] or
    [ssh://], or that have [git@] anywhere in them. *)
Theorem IsSSHURL_spec (url : string) :
  doltutil.IsSSHURL url = true <->
  (exists rest, url = ("git+ssh://" ++ rest)%string) \/
  (exists rest, url = ("ssh://" ++ rest)%string) \/
  (exists before after, url = (before ++ "git@" ++ after)%string).
Proof.
  unfold doltutil.IsSSHURL, HasPrefix.
  rewrite !orb_true_iff, !prefix_spec, Contains_spec. tauto.
Qed.

Lemma IsSSHURL_spec_witness :
  doltutil.IsSSHURL "https://git@example.com/org/repo" = true /\
  doltutil.IsSSHURL "https://example.com/org/repo" = false.
Proof.
  split.
  - apply IsSSHURL_spec. right. right.
    exists "https://"%string, "example.com/org/repo"%string. reflexivity.
  - reflexivity.
Defined.

(* ================================================================== *)
(** * Further properties of the subprocess credential path *)
(* ================================================================== *)

(** [applyToCmd] builds the child's environment from the environment of the
    process, never from the command: with non-empty credentials whatever
    [Env] the command carried is replaced, so of two applications only the
    last one counts; with nil or empty credentials the command is left
    exactly as it was, and a command without an [Env] of its own still
    hands the ambient credential variables to the child. *)
Theorem applyToCmd_replaces_Env (c c1 : option remoteCredentials) (cmd : Cmd)
    (p : Process) :
  (empty c = false ->
   (forall env0,
      (applyToCmd c (mkCmd (Path cmd) (Args cmd) env0) p).1 = (applyToCmd c cmd p).1) /\
   (applyToCmd c (applyToCmd c1 cmd p).1 p).1 = (applyToCmd c cmd p).1) /\
  (empty c = true ->
   applyToCmd c cmd p = (cmd, p) /\
   (Env cmd = None ->
    forall k, env_values k (child_environ (applyToCmd c cmd p).1 p)
              = env_values k (Environ (environ p)))).
Proof.
  split.
  - intros He. destruct c as [c|]; [|discriminate He].
    assert (Hany : forall cmd0,
              Path cmd0 = Path cmd -> Args cmd0 = Args cmd ->
              (applyToCmd (Some c) cmd0 p).1 = (applyToCmd (Some c) cmd p).1).
    { intros cmd0 Hpath Hargs. rewrite !applyToCmd_nonempty by exact He.
      cbn [fst]. now rewrite Hpath, Hargs. }
    split.
    + intros env0. now apply Hany.
    + apply Hany.
      * destruct c1 as [c1|]; [|reflexivity].
        destruct (empty (Some c1)) eqn:He1.
        -- unfold applyToCmd. now rewrite He1.
        -- now rewrite applyToCmd_nonempty.
      * destruct c1 as [c1|]; [|reflexivity].
        destruct (empty (Some c1)) eqn:He1.
        -- unfold applyToCmd. now rewrite He1.
        -- now rewrite applyToCmd_nonempty.
  - intros He.
    assert (Hsame : applyToCmd c cmd p = (cmd, p)).
    { destruct c as [c|]; [|reflexivity]. unfold applyToCmd. now rewrite He. }
    split; [exact Hsame|].
    intros Hnil k. rewrite Hsame. cbn [fst]. unfold child_environ. now rewrite Hnil.
Qed.

Lemma applyToCmd_replaces_Env_witness :
  empty (Some beta) = false /\ empty None = true /\ Env dolt_push = None /\
  (applyToCmd (Some beta) (applyToCmd (Some alpha) dolt_push ambient).1 ambient).1
  = (applyToCmd (Some beta) dolt_push ambient).1 /\
  env_values "DOLT_REMOTE_USER" (child_environ (applyToCmd None dolt_push ambient).1 ambient)
  = ["stale"%string].
Proof.
  split; [reflexivity|]. split; [reflexivity|]. split; [reflexivity|]. split.
  - exact (proj2 (proj1 (applyToCmd_replaces_Env (Some beta) (Some alpha) dolt_push
                           ambient) eq_refl)).
  - rewrite (proj2 (proj2 (applyToCmd_replaces_Env None None dolt_push ambient) eq_refl)
               eq_refl "DOLT_REMOTE_USER"%string).
    reflexivity.
Defined.
